(** * pip-index: the Index Writer and the regenerator, embedded in Rocq

    Source files embedded here:
    - [update_pip_index.py]: [create_package_index_html],
      [create_root_index_html], [load_existing_versions], [update_index],
      [update_root_index], [main];
    - [regenerate_pip_index.py]: [get_github_info], [get_git_commit],
      [find_repos_with_pip_index], [regenerate_index] (both textual
      definitions of the latter three; the second is the one in force).

    A Python [str] is a [string] whose characters are its code points; the
    development covers text of code points below 256, compared by code
    point as Python compares it.  Files are read and written on a POSIX
    system in UTF-8: [Path.write_text] stores the text as it is, and
    [Path.read_text] translates the line ends it finds ([Str.read_text]).
    The standard library routines the scripts call ([str.endswith],
    [str.replace], [str.split], [str.strip], [re.finditer], [re.search],
    [list.sort], [sorted], [Path.mkdir], [Path.exists], [Path.read_text],
    [Path.write_text], [Path.iterdir], [subprocess.run]) are given
    executable models in the first modules; the functions of the repository
    follow, each next to the line numbers it is taken from. *)

From Stdlib Require Import Ascii String.
From stdpp Require Import gmap strings list sorting pretty.

(** ** Python [str] operations *)

Module Str.

(** The double quote and the line feed, written by code so that the page
    templates below stay readable; the carriage return and the null
    character. *)
Definition dq : string := String "034"%char EmptyString.
Definition nl : string := String "010"%char EmptyString.
Definition lf : ascii := "010"%char.
Definition cr : ascii := "013"%char.
Definition nul : ascii := "000"%char.

(** [len(s)] *)
Definition len (s : string) : nat := String.length s.

(** [s[n:]] *)
Fixpoint drop (n : nat) (s : string) : string :=
  match n, s with
  | O, _ => s
  | S n', String _ s' => drop n' s'
  | S _, EmptyString => EmptyString
  end.

(** [s[:n]] *)
Fixpoint take (n : nat) (s : string) : string :=
  match n, s with
  | O, _ => EmptyString
  | S n', String c s' => String c (take n' s')
  | S _, EmptyString => EmptyString
  end.

(** [s.startswith(p)] *)
Definition startswith (s p : string) : bool := String.prefix p s.

(** [s.endswith(suf)]: some suffix of [s] is [suf]. *)
Fixpoint endswith (s suf : string) : bool :=
  if String.eqb s suf then true
  else match s with
       | String _ s' => endswith s' suf
       | EmptyString => false
       end.

(** [sub in s] *)
Fixpoint contains (sub s : string) : bool :=
  if String.prefix sub s then true
  else match s with
       | String _ s' => contains sub s'
       | EmptyString => false
       end.

(** [s.replace(old, new)] for a non-empty [old]: every non-overlapping
    occurrence, leftmost first.  [skip] counts the characters of an
    occurrence that was just replaced and are still to be passed over. *)
Fixpoint replace_from (skip : nat) (old new s : string) : string :=
  match s with
  | EmptyString => EmptyString
  | String c s' =>
      match skip with
      | S n => replace_from n old new s'
      | O => if String.prefix old s
             then new +:+ replace_from (len old - 1) old new s'
             else String c (replace_from 0 old new s')
      end
  end.

Definition replace (s old new : string) : string := replace_from 0 old new s.

(** The first occurrence of a non-empty [sep] in [s]: the text before it
    and the text after it. *)
Fixpoint partition (sep s : string) : option (string * string) :=
  if String.prefix sep s then Some (EmptyString, drop (len sep) s)
  else match s with
       | EmptyString => None
       | String c s' =>
           match partition sep s' with
           | Some (a, b) => Some (String c a, b)
           | None => None
           end
       end.

(** [s.split(sep, 1)] *)
Definition split1 (s sep : string) : list string :=
  match partition sep s with
  | Some (a, b) => [a; b]
  | None => [s]
  end.

(** [c not in s] for a single character. *)
Fixpoint lacks (c : ascii) (s : string) : Prop :=
  match s with
  | EmptyString => True
  | String d s' => d ≠ c ∧ lacks c s'
  end.

(** The characters [str.isspace] and the class [\s] accept, among the code
    points below 256: codes 9 to 13, 28 to 31, the space, the next-line
    character 133 and the no-break space 160. *)
Definition whitespace : list ascii :=
  ["009"; "010"; "011"; "012"; "013"; "028"; "029"; "030"; "031"; " ";
   "133"; "160"]%char.

Definition is_space (c : ascii) : bool := existsb (Ascii.eqb c) whitespace.

(** [s.strip()] removes leading and trailing white space. *)
Fixpoint lstrip (s : string) : string :=
  match s with
  | String c s' => if is_space c then lstrip s' else s
  | EmptyString => EmptyString
  end.

Definition strip (s : string) : string :=
  String.rev (lstrip (String.rev (lstrip s))).

(** What text mode gives for the stored text [s] (universal newlines): a
    carriage return is read as a line feed, and a line feed that follows a
    carriage return is dropped.  [after_cr] says that the character just
    read was a carriage return. *)
Fixpoint newlines_from (after_cr : bool) (s : string) : string :=
  match s with
  | EmptyString => EmptyString
  | String c s' =>
      if Ascii.eqb c cr then String lf (newlines_from true s')
      else if Ascii.eqb c lf then
        if after_cr then newlines_from false s'
        else String lf (newlines_from false s')
      else String c (newlines_from false s')
  end.

(** [Path.read_text()] on a file that stores the text [s]. *)
Definition read_text (s : string) : string := newlines_from false s.

(** The number of bytes of [s] in UTF-8: one for a code point below 128,
    two for one from 128 to 255. *)
Fixpoint utf8_len (s : string) : nat :=
  match s with
  | EmptyString => 0
  | String c s' =>
      (if Nat.ltb (nat_of_ascii c) 128 then 1 else 2) + utf8_len s'
  end.

End Str.

(** ** Python exceptions and results *)

Inductive exn : Type :=
  | IndexError
  | FileExistsError
  | IsADirectoryError
  | NotADirectoryError
  | FileNotFoundError
  | OSError
  | ValueError
  | TypeError
  | TimeoutExpired
  | CalledProcessError.

Inductive result (A : Type) : Type :=
  | Ok (a : A)
  | Raise (e : exn).
Arguments Ok {A} a.
Arguments Raise {A} e.

(** ** A backtracking matcher for the fragment of [re] the scripts use

    Atoms consume one character; [RPlus] is the greedy [+] and [RLazy] the
    lazy [+?] on an atom; [ROpt] is the greedy [?]; [RGroup n] is the [n]-th
    capturing group; [REnd] is [$].  The matcher is written in
    continuation-passing style, which is how a backtracking engine explores
    alternatives: the first alternative in priority order whose continuation
    succeeds is the match. *)

Module Re.

Inductive atom : Type :=
  | AChar (c : ascii)            (* a literal character, escaped or not *)
  | ASet (cs : list ascii)       (* [...] *)
  | ANot (cs : list ascii).      (* [^...] *)

Inductive regex : Type :=
  | REps
  | RAtom (a : atom)
  | RPlus (a : atom)
  | RLazy (a : atom)
  | RCat (r1 r2 : regex)
  | ROpt (r : regex)
  | RGroup (n : nat) (r : regex)
  | REnd.

Definition mem (c : ascii) (cs : list ascii) : bool :=
  existsb (Ascii.eqb c) cs.

Definition atom_ok (a : atom) (c : ascii) : bool :=
  match a with
  | AChar d => Ascii.eqb c d
  | ASet cs => mem c cs
  | ANot cs => negb (mem c cs)
  end.

(** The literal text [s] as a regex. *)
Fixpoint lit (s : string) : regex :=
  match s with
  | EmptyString => REps
  | String c s' => RCat (RAtom (AChar c)) (lit s')
  end.

(** Captured groups of a match: [m n] is [Some] text when group [n] took
    part in the match. *)
Definition caps : Type := nat → option string.
Definition no_caps : caps := fun _ => None.
Definition set_group (n : nat) (v : string) (m : caps) : caps :=
  fun i => if Nat.eqb i n then Some v else m i.

(** What was consumed between the subject [s] and its suffix [s']. *)
Definition consumed (s s' : string) : string :=
  Str.take (Str.len s - Str.len s') s.

Section Matcher.
Context {R : Type}.

Fixpoint plus_greedy (a : atom) (s : string) (k : string → option R)
  : option R :=
  match s with
  | String c s' =>
      if atom_ok a c then
        match plus_greedy a s' k with
        | Some r => Some r
        | None => k s'
        end
      else None
  | EmptyString => None
  end.

Fixpoint plus_lazy (a : atom) (s : string) (k : string → option R)
  : option R :=
  match s with
  | String c s' =>
      if atom_ok a c then
        match k s' with
        | Some r => Some r
        | None => plus_lazy a s' k
        end
      else None
  | EmptyString => None
  end.

Fixpoint rmatch (r : regex) (s : string) (m : caps)
    (k : string → caps → option R) : option R :=
  match r with
  | REps => k s m
  | RAtom a =>
      match s with
      | String c s' => if atom_ok a c then k s' m else None
      | EmptyString => None
      end
  | RPlus a => plus_greedy a s (fun s' => k s' m)
  | RLazy a => plus_lazy a s (fun s' => k s' m)
  | RCat r1 r2 => rmatch r1 s m (fun s' m' => rmatch r2 s' m' k)
  | ROpt r1 =>
      match rmatch r1 s m k with
      | Some x => Some x
      | None => k s m
      end
  | RGroup n r1 =>
      rmatch r1 s m (fun s' m' => k s' (set_group n (consumed s s') m'))
  | REnd =>
      if String.eqb s EmptyString || String.eqb s Str.nl
      then k s m else None
  end.
End Matcher.

(** [pattern.match(s)]: a match anchored at the start of [s]; the groups
    and the text left after the match. *)
Definition match_at (r : regex) (s : string) : option (caps * string) :=
  rmatch r s no_caps (fun s' m => Some (m, s')).

(** [re.finditer(pattern, s)] for a pattern that matches no empty text:
    scan left to right; after a match resume where it ended.  [skip] is
    the number of characters of the last match still to be passed over. *)
Fixpoint finditer_from (skip : nat) (r : regex) (s : string) : list caps :=
  match s with
  | EmptyString => []
  | String _ s' =>
      match skip with
      | S n => finditer_from n r s'
      | O =>
          match match_at r s with
          | Some (m, rest) =>
              m :: finditer_from (Str.len s - Str.len rest - 1) r s'
          | None => finditer_from 0 r s'
          end
      end
  end.

Definition finditer (r : regex) (s : string) : list caps :=
  finditer_from 0 r s.

(** [re.search(pattern, s)]: the leftmost match. *)
Fixpoint search (r : regex) (s : string) : option caps :=
  match match_at r s with
  | Some (m, _) => Some m
  | None =>
      match s with
      | String _ s' => search r s'
      | EmptyString => None
      end
  end.

(** Every character of [s] is accepted by the atom [a]. *)
Fixpoint all_ok (a : atom) (s : string) : Prop :=
  match s with
  | EmptyString => True
  | String c s' => atom_ok a c = true ∧ all_ok a s'
  end.

(** [match.group(n)] for a group that took part in the match. *)
Definition group (m : caps) (n : nat) : string :=
  match m n with
  | Some v => v
  | None => EmptyString
  end.

End Re.

(** ** [list.sort(key=...)] and [sorted]

    Python's sort is stable and compares keys with [<] only; on a list of
    strings (or of records keyed by a string) its result is the stable
    insertion sort below, whatever algorithm computes it.  Strings compare
    lexicographically by character code ([String.leb]). *)

Module Sort.
Section ByKey.
Context {A : Type} (key : A → string).

Fixpoint insert (x : A) (l : list A) : list A :=
  match l with
  | [] => [x]
  | y :: l' =>
      if String.leb (key x) (key y) then x :: y :: l'
      else y :: insert x l'
  end.

Fixpoint sort (l : list A) : list A :=
  match l with
  | [] => []
  | x :: l' => insert x (sort l')
  end.

(** The order the sort establishes: keys ascend in [String.le]. *)
Definition key_le (a b : A) : Prop := String.le (key a) (key b).
End ByKey.

(** [sorted(l)] on a list of strings. *)
Definition sorted (l : list string) : list string := sort id l.
End Sort.

(** ** The Index Writer: [update_pip_index.py] *)

(** A version tuple [(version, commit_hash, github_user, github_repo)]. *)
Record VersionRecord : Type := mkVersion {
  version : string;
  commit_hash : string;
  github_user : string;
  github_repo : string
}.

Global Instance VersionRecord_eq_dec : EqDecision VersionRecord.
Proof. solve_decision. Defined.

(** Lines 36-43: the head of a package page. *)
Definition package_page_head (package_name : string) : string :=
  "<!DOCTYPE html>" +:+ Str.nl +:+
  "<html>" +:+ Str.nl +:+
  "<head>" +:+ Str.nl +:+
  "    <title>Links for " +:+ package_name +:+ "</title>" +:+ Str.nl +:+
  "</head>" +:+ Str.nl +:+
  "<body>" +:+ Str.nl +:+
  "    <h1>Links for " +:+ package_name +:+ "</h1>" +:+ Str.nl.

(** Lines 51-53 and 79-81: the tail of both pages. *)
Definition page_tail : string :=
  "</body>" +:+ Str.nl +:+ "</html>" +:+ Str.nl.

(** Lines 46-49: the anchor line of one version. *)
Definition tarball_url (v : VersionRecord) : string :=
  "https://github.com/" +:+ github_user v +:+ "/" +:+ github_repo v +:+
  "/archive/" +:+ commit_hash v +:+ ".tar.gz".

Definition link_url (package_name : string) (v : VersionRecord) : string :=
  tarball_url v +:+ "#egg=" +:+ package_name +:+ "-" +:+ version v.

Definition link_text (package_name : string) (v : VersionRecord) : string :=
  package_name +:+ "-" +:+ version v.

Definition package_anchor (package_name : string) (v : VersionRecord)
  : string :=
  "    <a href=" +:+ Str.dq +:+ link_url package_name v +:+ Str.dq +:+ ">" +:+
  link_text package_name v +:+ "</a><br>" +:+ Str.nl.

(** Lines 25-54. *)
Definition create_package_index_html (package_name : string)
    (versions_data : list VersionRecord) : string :=
  let html := package_page_head package_name in
  let html :=
    fold_left (fun html v => html +:+ package_anchor package_name v)
              versions_data html in
  html +:+ page_tail.

(** Lines 67-74. *)
Definition root_page_head : string :=
  "<!DOCTYPE html>" +:+ Str.nl +:+
  "<html>" +:+ Str.nl +:+
  "<head>" +:+ Str.nl +:+
  "    <title>Simple Index</title>" +:+ Str.nl +:+
  "</head>" +:+ Str.nl +:+
  "<body>" +:+ Str.nl +:+
  "    <h1>Simple Index</h1>" +:+ Str.nl.

(** Line 77. *)
Definition root_anchor (package : string) : string :=
  "    <a href=" +:+ Str.dq +:+ package +:+ "/" +:+ Str.dq +:+ ">" +:+
  package +:+ "</a><br>" +:+ Str.nl.

(** Lines 57-82. *)
Definition create_root_index_html (packages : list string) : string :=
  let html := root_page_head in
  let html :=
    fold_left (fun html package => html +:+ root_anchor package)
              (Sort.sorted packages) html in
  html +:+ page_tail.

(** Line 99, the pattern
    [href="https://github\.com/([^/]+)/([^/]+)/archive/([^"#]+)\.tar\.gz(?:#egg=[^"]+)?">([^<]+)</a>]. *)
Definition dqc : ascii := "034"%char.

Definition anchor_pattern : Re.regex :=
  Re.RCat (Re.lit ("href=" +:+ Str.dq +:+ "https://github.com/"))
  (Re.RCat (Re.RGroup 1 (Re.RPlus (Re.ANot ["/"%char])))
  (Re.RCat (Re.lit "/")
  (Re.RCat (Re.RGroup 2 (Re.RPlus (Re.ANot ["/"%char])))
  (Re.RCat (Re.lit "/archive/")
  (Re.RCat (Re.RGroup 3 (Re.RPlus (Re.ANot [dqc; "#"%char])))
  (Re.RCat (Re.lit ".tar.gz")
  (Re.RCat (Re.ROpt (Re.RCat (Re.lit "#egg=") (Re.RPlus (Re.ANot [dqc]))))
  (Re.RCat (Re.lit (Str.dq +:+ ">"))
  (Re.RCat (Re.RGroup 4 (Re.RPlus (Re.ANot ["<"%char])))
           (Re.lit "</a>")))))))))).

(** [l[1]] *)
Definition index1 (l : list string) : result string :=
  match l !! 1%nat with
  | Some x => Ok x
  | None => Raise IndexError
  end.

(** Lines 107-110: the version recovered from a link text. *)
Definition version_of_link_text (link_text : string) : result string :=
  if Str.endswith link_text ".tar.gz" then
    index1 (Str.split1 (Str.replace link_text ".tar.gz" EmptyString) "-")
  else
    if Str.contains "-" link_text then index1 (Str.split1 link_text "-")
    else Ok link_text.

(** Lines 102-112: the body of the loop over the matches. *)
Definition record_of_match (m : Re.caps) : result VersionRecord :=
  let github_user := Re.group m 1 in
  let github_repo := Re.group m 2 in
  let commit_hash := Re.group m 3 in
  let link_text := Re.group m 4 in
  match version_of_link_text link_text with
  | Ok version => Ok (mkVersion version commit_hash github_user github_repo)
  | Raise e => Raise e
  end.

(** The loop of lines 101-112: the first exception ends it. *)
Fixpoint collect_versions (ms : list Re.caps) (versions : list VersionRecord)
  : result (list VersionRecord) :=
  match ms with
  | [] => Ok versions
  | m :: ms' =>
      match record_of_match m with
      | Ok v => collect_versions ms' (versions ++ [v])
      | Raise e => Raise e
      end
  end.

(** Lines 96-114: the records of a page's text. *)
Definition parse_versions (content : string) : result (list VersionRecord) :=
  collect_versions (Re.finditer anchor_pattern content) [].

(** ** The files under [simple/]

    The state the Index Writer reads and rewrites is the directory
    [index_repo/simple]: a finite map from entry names to nodes.  An entry is
    a file with its text, or a directory with its own entries, each a file
    or a directory.  A missing [simple/] is the empty map ([mkdir] with
    [parents=True] creates it).  What the script prints is kept in [stdout].

    The map is keyed by entry names, so the model follows the script for a
    package name that is the name of one entry of [simple/]: a single path
    component ([path_component]).  Other names (the empty name, [.], [..],
    a name with a [/]) are resolved by [pathlib] to other directories, which
    the map does not follow; every statement about a run on a package name
    assumes [path_component] of it. *)

Inductive inode : Type :=
  | IFile (content : string)
  | IDir.

Inductive node : Type :=
  | NFile (content : string)
  | NDir (children : gmap string inode).

Record world : Type := mkWorld {
  simple : gmap string node;
  stdout : list string
}.

Definition is_dir (n : node) : bool :=
  match n with
  | NDir _ => true
  | NFile _ => false
  end.

Definition path_component (name : string) : Prop :=
  Str.lacks "/"%char name ∧ name ≠ EmptyString ∧ name ≠ "." ∧ name ≠ "..".

(** Computations that read and write the world and may raise; what was
    written before an exception stays written. *)
Definition M (A : Type) : Type := world → world * result A.

Global Instance M_ret : MRet M := fun A (a : A) w => (w, Ok a).

Global Instance M_bind : MBind M := fun A B (f : A → M B) (c : M A) w =>
  match c w with
  | (w', Ok a) => f a w'
  | (w', Raise e) => (w', Raise e)
  end.

(** [print(line)] *)
Definition print (line : string) : M unit :=
  fun w => (mkWorld (simple w) (stdout w ++ [line]), Ok tt).

(** The longest entry name the file system takes, in bytes ([NAME_MAX],
    255 on the file systems of Linux). *)
Definition NAME_MAX : nat := 255.

(** What the operating system refuses in the name of an entry: a null
    character ([ValueError], embedded null byte) and a name of more than
    [NAME_MAX] bytes ([OSError], file name too long). *)
Definition name_error (name : string) : option exn :=
  if Str.contains (String Str.nul EmptyString) name then Some ValueError
  else if Nat.ltb NAME_MAX (Str.utf8_len name) then Some OSError
  else None.

(** [(simple_dir / name).mkdir(parents=True, exist_ok=True)], for a [name]
    that is a single path component. *)
Definition mkdir (name : string) : M unit :=
  fun w =>
    match name_error name with
    | Some e => (w, Raise e)
    | None =>
        match simple w !! name with
        | None => (mkWorld (<[name := NDir ∅]> (simple w)) (stdout w), Ok tt)
        | Some (NDir _) => (w, Ok tt)
        | Some (NFile _) => (w, Raise FileExistsError)
        end
    end.

(** [(simple_dir / name / "index.html").write_text(text)], for a [name]
    that is a single path component and that [mkdir] has accepted. *)
Definition write_package_page (name text : string) : M unit :=
  fun w =>
    match simple w !! name with
    | Some (NDir d) =>
        match d !! "index.html" with
        | Some IDir => (w, Raise IsADirectoryError)
        | _ =>
            (mkWorld (<[name := NDir (<["index.html" := IFile text]> d)]>
                        (simple w)) (stdout w), Ok tt)
        end
    | Some (NFile _) => (w, Raise NotADirectoryError)
    | None => (w, Raise FileNotFoundError)
    end.

(** [(simple_dir / "index.html").write_text(text)] *)
Definition write_root_page (text : string) : M unit :=
  fun w =>
    match simple w !! "index.html" with
    | Some (NDir _) => (w, Raise IsADirectoryError)
    | _ => (mkWorld (<["index.html" := NFile text]> (simple w)) (stdout w),
            Ok tt)
    end.

(** [simple_dir.iterdir()], in the order the map enumerates its entries;
    [create_root_index_html] sorts the names, so the order is immaterial
    (lemma [sorted_order_independent] below). *)
Definition iterdir (simple_dir : gmap string node) : list (string * node) :=
  map_to_list simple_dir.

(** Lines 85-114.  [package_dir] is [simple/package_name]; line 97 reads
    the page in text mode. *)
Definition load_existing_versions (package_name : string)
  : M (list VersionRecord) :=
  fun w =>
    match simple w !! package_name with
    | Some (NDir d) =>
        match d !! "index.html" with
        | None => (w, Ok [])
        | Some IDir => (w, Raise IsADirectoryError)
        | Some (IFile stored) =>
            let content := Str.read_text stored in
            (w, parse_versions content)
        end
    | _ => (w, Ok [])
    end.

(** The records [load_existing_versions] finds in a directory. *)
Definition dir_versions (d : gmap string inode)
  : result (list VersionRecord) :=
  match d !! "index.html" with
  | None => Ok []
  | Some IDir => Raise IsADirectoryError
  | Some (IFile stored) => parse_versions (Str.read_text stored)
  end.

(** Lines 137-142: drop the records of the incoming version, append the new
    one, sort by version. *)
Definition merge_version (versions : list VersionRecord)
    (new_version : VersionRecord) : list VersionRecord :=
  let versions :=
    filter (fun v => version v ≠ version new_version) versions in
  let versions := (versions ++ [new_version]) in
  Sort.sort version versions.

(** Lines 156-159: the names [update_root_index] collects. *)
Definition listed_packages (simple_dir : gmap string node) : list string :=
  (fun item => item.1) <$>
    filter (fun item => is_dir item.2 ∧ item.1 ≠ ".git") (iterdir simple_dir).

(** Lines 152-164. *)
Definition update_root_index : M unit :=
  fun w =>
    let packages := listed_packages (simple w) in
    let root_html := create_root_index_html packages in
    (write_root_page root_html ;;
     print ("Updated root index: " +:+ pretty (length packages) +:+
            " package(s)")) w.

(** Lines 117-149, for a [package_name] that is a single path component. *)
Definition update_index (package_name version commit_hash github_user
    github_repo : string) : M unit :=
  mkdir package_name ;;
  versions ← load_existing_versions package_name ;
  let new_version :=
    mkVersion version commit_hash github_user github_repo in
  let versions := merge_version versions new_version in
  let package_html := create_package_index_html package_name versions in
  write_package_page package_name package_html ;;
  print ("Updated " +:+ package_name +:+ " index: " +:+
         pretty (length versions) +:+ " version(s)") ;;
  update_root_index.

(** The text of a package's page, when it has one. *)
Definition page_of (w : world) (package_name : string) : option string :=
  match simple w !! package_name with
  | Some (NDir d) =>
      match d !! "index.html" with
      | Some (IFile content) => Some content
      | _ => None
      end
  | _ => None
  end.

(** The text of the root page, when there is one. *)
Definition root_page_of (w : world) : option string :=
  match simple w !! "index.html" with
  | Some (NFile content) => Some content
  | _ => None
  end.

(** ** Records that survive a render and a parse

    The pages are written without any escaping and re-read in text mode
    by pattern matching, so a field has to avoid the characters the pattern
    gives a meaning to, and the carriage return, which is read back as a
    line feed. *)

Definition wf_package (package_name : string) : Prop :=
  Str.lacks "-"%char package_name ∧
  Str.lacks dqc package_name ∧
  Str.lacks "<"%char package_name ∧
  Str.lacks Str.cr package_name.

Record wf_record (v : VersionRecord) : Prop := mk_wf_record {
  wf_user_nonempty : github_user v ≠ EmptyString;
  wf_user_slash : Str.lacks "/"%char (github_user v);
  wf_repo_nonempty : github_repo v ≠ EmptyString;
  wf_repo_slash : Str.lacks "/"%char (github_repo v);
  wf_commit_nonempty : commit_hash v ≠ EmptyString;
  wf_commit_quote : Str.lacks dqc (commit_hash v);
  wf_commit_hash : Str.lacks "#"%char (commit_hash v);
  wf_version_quote : Str.lacks dqc (version v);
  wf_version_angle : Str.lacks "<"%char (version v);
  wf_version_suffix : Str.endswith (version v) ".tar.gz" = false;
  wf_user_cr : Str.lacks Str.cr (github_user v);
  wf_repo_cr : Str.lacks Str.cr (github_repo v);
  wf_commit_cr : Str.lacks Str.cr (commit_hash v);
  wf_version_cr : Str.lacks Str.cr (version v)
}.

(** The part of an anchor line the pattern matches, and the groups it
    captures there. *)
Definition anchor_core (package_name : string) (v : VersionRecord) : string :=
  "href=" +:+ Str.dq +:+ link_url package_name v +:+ Str.dq +:+ ">" +:+
  link_text package_name v +:+ "</a>".

Definition anchor_caps (package_name : string) (v : VersionRecord) : Re.caps :=
  Re.set_group 4 (link_text package_name v)
    (Re.set_group 3 (commit_hash v)
      (Re.set_group 2 (github_repo v)
        (Re.set_group 1 (github_user v) Re.no_caps))).

(** The text every match of [anchor_pattern] starts with. *)
Definition href_lead : string :=
  "href=" +:+ Str.dq +:+ "https://github.com/".

(** The anchor lines of a list of records, in order. *)
Definition concat_str (l : list string) : string :=
  foldr String.append EmptyString l.

(** ** The regenerator: [regenerate_pip_index.py]

    An external process either cannot be started (the program is not
    installed, the working directory is gone), or exits after some seconds
    with a return code and its output, or never exits.  [out] and [err] are
    the captured output as [text=True] hands it over, decoded and with its
    line ends translated.  For a program it
    cannot start [subprocess.run] raises an [OSError].  Otherwise it waits
    for the process: with a timeout it raises [TimeoutExpired] once the
    timeout has passed; without one it waits for as long as the process
    runs, for ever if the process hangs, which is the outcome [Blocks]. *)

Inductive process : Type :=
  | Exits (seconds : nat) (code : Z) (out err : string)
  | Hangs
  | NotStarted.

Record CompletedProcess : Type := mkCompleted {
  returncode : Z;
  proc_stdout : string;
  proc_stderr : string
}.

(** How a computation of the regenerator ends.  [Undetermined] is the end
    of a run whose further course does not follow from what the model
    records of its input; it arises at one place, [sorted_by_name]. *)
Inductive outcome (A : Type) : Type :=
  | Returns (a : A)
  | Raises (e : exn)
  | SysExit (code : Z)
  | Blocks
  | Undetermined.
Arguments Returns {A} a.
Arguments Raises {A} e.
Arguments SysExit {A} code.
Arguments Blocks {A}.
Arguments Undetermined {A}.

(** [subprocess.run(args, timeout=timeout, check=check)] on a process, for
    arguments that are strings. *)
Definition subprocess_run (p : process) (timeout : option nat) (check : bool)
  : outcome CompletedProcess :=
  match p with
  | NotStarted => Raises OSError
  | Hangs =>
      match timeout with
      | Some _ => Raises TimeoutExpired
      | None => Blocks
      end
  | Exits seconds code out err =>
      let late :=
        match timeout with
        | Some t => Nat.ltb t seconds
        | None => false
        end in
      if late then Raises TimeoutExpired
      else if check && negb (Z.eqb code 0) then Raises CalledProcessError
      else Returns (mkCompleted code out err)
  end.

(** The lines the regenerator prints about a repository or at the end of
    a run, on standard output or standard error ([WriterFailed] stands for
    the error line and the captured output printed after it). *)
Inductive event : Type :=
  | Found (package_name version commit8 : string)
  | Skipping (name reason : string)
  | Adding (package_name version : string)
  | WarnRemoteUnparsed (remote_url : string)
  | WarnRemoteTimeout (name : string)
  | WarnRemoteError (name : string)
  | WarnDefaults (package_name : string)
  | WriterOutput (out : string)
  | WriterReturned (code : Z) (err : string)
  | WriterTimeout (package_name : string)
  | WriterFailed (package_name : string)
  | ErrorMissing (what : string)
  | NothingFound
  | Complete.

(** A value of the manifest, as [tomllib] hands it over: a string, or a
    value of another type (a number, a truth value, a date, an array, a
    table), of which the script uses the truth value and the text an
    f-string prints for it. *)
Inductive toml_value : Type :=
  | TomlStr (s : string)
  | TomlOther (truth : bool) (shown : string).

Coercion TomlStr : string >-> toml_value.

Definition is_str (v : toml_value) : bool :=
  match v with
  | TomlStr _ => true
  | TomlOther _ _ => false
  end.

(** The text an f-string prints for a value. *)
Definition shown_text (v : toml_value) : string :=
  match v with
  | TomlStr s => s
  | TomlOther _ shown => shown
  end.

(** One entry of [MYAPPS_DIR]: what the scan can observe of it.  The
    manifest is read by [tomllib] ([read_package_info], lines 257-277);
    [cand_project] is the pair that function returns, [None] for a value
    that is absent or for a manifest that cannot be read.  The three
    processes are the two [git] queries run in the directory and the Index
    Writer run for it, which depends on the arguments it is given. *)
Record candidate : Type := mkCandidate {
  cand_name : string;
  cand_is_dir : bool;
  cand_marker : bool;
  cand_project : option toml_value * option toml_value;
  cand_rev_parse : process;
  cand_remote : process;
  cand_writer : list string → process
}.

(** Computations of the regenerator: they print, and return, raise, exit
    or block. *)
Definition Proc (A : Type) : Type := list event → list event * outcome A.

Global Instance Proc_ret : MRet Proc := fun A (a : A) log => (log, Returns a).

Global Instance Proc_bind : MBind Proc :=
  fun A B (f : A → Proc B) (c : Proc A) log =>
    match c log with
    | (log', Returns a) => f a log'
    | (log', Raises e) => (log', Raises e)
    | (log', SysExit code) => (log', SysExit code)
    | (log', Blocks) => (log', Blocks)
    | (log', Undetermined) => (log', Undetermined)
    end.

Definition emit (e : event) : Proc unit :=
  fun log => (log ++ [e], Returns tt).

Definition lift {A} (o : outcome A) : Proc A := fun log => (log, o).

(** Python truth of an optional string: [None] and the empty string are
    false. *)
Definition truthy (s : option string) : bool :=
  match s with
  | Some (String _ _) => true
  | _ => false
  end.

(** Python truth of an optional value of the manifest. *)
Definition truthy_value (v : option toml_value) : bool :=
  match v with
  | Some (TomlStr s) => truthy (Some s)
  | Some (TomlOther truth _) => truth
  | None => false
  end.

Definition GITHUB_USER : string := "jakeogh".

(** Line 54, the pattern [github\.com[:/]([^/]+)/([^/\s]+?)(?:\.git)?$]. *)
Definition remote_pattern : Re.regex :=
  Re.RCat (Re.lit "github.com")
  (Re.RCat (Re.RAtom (Re.ASet [":"%char; "/"%char]))
  (Re.RCat (Re.RGroup 1 (Re.RPlus (Re.ANot ["/"%char])))
  (Re.RCat (Re.lit "/")
  (Re.RCat (Re.RGroup 2 (Re.RLazy (Re.ANot ("/"%char :: Str.whitespace))))
  (Re.RCat (Re.ROpt (Re.lit ".git"))
           Re.REnd))))).

(** Lines 33-72. *)
Definition get_github_info (repo : candidate)
  : Proc (option (string * string)) :=
  match subprocess_run (cand_remote repo) (Some 5%nat) false with
  | Returns result =>
      if negb (Z.eqb (returncode result) 0) then mret None
      else
        let remote_url := Str.strip (proc_stdout result) in
        match Re.search remote_pattern remote_url with
        | Some m => mret (Some (Re.group m 1, Re.group m 2))
        | None => emit (WarnRemoteUnparsed remote_url) ;; mret None
        end
  | Raises TimeoutExpired =>
      emit (WarnRemoteTimeout (cand_name repo)) ;; mret None
  | Raises _ => emit (WarnRemoteError (cand_name repo)) ;; mret None
  | SysExit code => lift (SysExit code)
  | Blocks => lift Blocks
  | Undetermined => lift Undetermined
  end.

(** Lines 242-254, the definition in force; lines 75-87 read the same. *)
Definition get_git_commit (repo : candidate) : Proc (option string) :=
  match subprocess_run (cand_rev_parse repo) None true with
  | Returns result => mret (Some (Str.strip (proc_stdout result)))
  | Raises CalledProcessError => mret None
  | Raises e => lift (Raises e)
  | SysExit code => lift (SysExit code)
  | Blocks => lift Blocks
  | Undetermined => lift Undetermined
  end.

(** A discovered repository [(repo_path, package_name, version,
    commit_hash)]: the name and the version are the values of the
    manifest, the commit is a string. *)
Record RepoMetadata : Type := mkRepo {
  repo_path : candidate;
  repo_name : toml_value;
  repo_ver : toml_value;
  repo_commit : string
}.

(** The name and the version as the script prints them. *)
Definition repo_package (repo : RepoMetadata) : string :=
  shown_text (repo_name repo).

Definition repo_version (repo : RepoMetadata) : string :=
  shown_text (repo_ver repo).

(** Lines 293-318: one turn of the scan loop. *)
Definition scan_item (item : candidate) (repos : list RepoMetadata)
  : Proc (list RepoMetadata) :=
  if negb (cand_is_dir item) then mret repos
  else if Str.startswith (cand_name item) "." ||
          String.eqb (cand_name item) "pip-index" then mret repos
  else if negb (cand_marker item) then mret repos
  else
    let '(package_name, version) := cand_project item in
    if negb (truthy_value package_name) || negb (truthy_value version) then
      emit (Skipping (cand_name item) "no package name or version") ;;
      mret repos
    else
      commit_hash ← get_git_commit item ;
      if negb (truthy commit_hash) then
        emit (Skipping (cand_name item) "not a git repo") ;; mret repos
      else
        let name := default (TomlStr EmptyString) package_name in
        let ver := default (TomlStr EmptyString) version in
        let commit := default EmptyString commit_hash in
        emit (Found (shown_text name) (shown_text ver) (Str.take 8 commit)) ;;
        mret (repos ++ [mkRepo item name ver commit]).

Fixpoint scan_items (items : list candidate) (repos : list RepoMetadata)
  : Proc (list RepoMetadata) :=
  match items with
  | [] => mret repos
  | item :: items' =>
      repos' ← scan_item item repos ; scan_items items' repos'
  end.

(** Lines 280-320.  [myapps] is the listing of [MYAPPS_DIR], or [None] when
    the directory does not exist. *)
Definition find_repos_with_pip_index (myapps : option (list candidate))
  : Proc (list RepoMetadata) :=
  match myapps with
  | None => emit (ErrorMissing "MYAPPS_DIR") ;; mret []
  | Some items => scan_items items []
  end.

(** Lines 345-353: the forge identity, with its fall-back.  The two groups
    of a match of [remote_pattern] are not empty, so the test of line 347
    fails exactly when the lookup returned nothing. *)
Definition forge_identity (repo : RepoMetadata) : Proc (string * string) :=
  info ← get_github_info (repo_path repo) ;
  match info with
  | Some (github_user, github_repo) => mret (github_user, github_repo)
  | None =>
      emit (WarnDefaults (repo_package repo)) ;;
      mret (GITHUB_USER, cand_name (repo_path repo))
  end.

(** Lines 27-29, with the home directory written [~]. *)
Definition PIP_INDEX_REPO : string := "~/_myapps/pip-index".
Definition UPDATE_SCRIPT : string := "~/_myapps/pip-index/update_pip_index.py".

(** The arguments of the Index Writer after the interpreter (lines
    359-368), when the name and the version are strings; [None] when one of
    them is not, in which case [subprocess.run] raises [TypeError] and
    starts no process. *)
Definition writer_args (repo : RepoMetadata) (github_user github_repo : string)
  : option (list string) :=
  match repo_name repo, repo_ver repo with
  | TomlStr package_name, TomlStr version =>
      Some [UPDATE_SCRIPT; package_name; version; repo_commit repo;
            "--index-repo"; PIP_INDEX_REPO; "--github-user"; github_user;
            "--github-repo"; github_repo]
  | _, _ => None
  end.

(** Lines 339-380, the loop body in force: the Index Writer is run with
    [check=True] and no timeout. *)
Definition add_repo (repo : RepoMetadata) : Proc unit :=
  emit (Adding (repo_package repo) (repo_version repo)) ;;
  '(github_user, github_repo) ← forge_identity repo ;
  match writer_args repo github_user github_repo with
  | None => lift (Raises TypeError)
  | Some args =>
      match subprocess_run (cand_writer (repo_path repo) args) None true with
      | Returns result => emit (WriterOutput (proc_stdout result))
      | Raises CalledProcessError =>
          emit (WriterFailed (repo_package repo))
      | Raises e => lift (Raises e)
      | SysExit code => lift (SysExit code)
      | Blocks => lift Blocks
      | Undetermined => lift Undetermined
      end
  end.

(** Lines 172-223, the loop body of the first definition, which the second
    one replaces when the module is loaded: the Index Writer is run with
    [timeout=10] and without [check]. *)
Definition add_repo_first (repo : RepoMetadata) : Proc unit :=
  emit (Adding (repo_package repo) (repo_version repo)) ;;
  '(github_user, github_repo) ← forge_identity repo ;
  match writer_args repo github_user github_repo with
  | None => lift (Raises TypeError)
  | Some args =>
      match subprocess_run (cand_writer (repo_path repo) args)
              (Some 10%nat) false with
      | Returns result =>
          if Z.eqb (returncode result) 0 then
            emit (WriterOutput (proc_stdout result))
          else emit (WriterReturned (returncode result) (proc_stderr result))
      | Raises TimeoutExpired => emit (WriterTimeout (repo_package repo))
      | Raises CalledProcessError =>
          emit (WriterFailed (repo_package repo))
      | Raises e => lift (Raises e)
      | SysExit code => lift (SysExit code)
      | Blocks => lift Blocks
      | Undetermined => lift Undetermined
      end
  end.

Fixpoint for_each {A} (body : A → Proc unit) (l : list A) : Proc unit :=
  match l with
  | [] => mret tt
  | x :: l' => body x ;; for_each body l'
  end.

(** Lines 339-341: [sorted(repos, key=lambda x: x[1])].  Names that are
    strings are put in order.  A single repository is compared with
    nothing.  A string and a value of another type do not compare, and any
    sort of a list that holds both compares two such names: [TypeError].
    How several names none of which is a string compare depends on their
    types and values, which the model does not record. *)
Definition sorted_by_name (repos : list RepoMetadata)
  : outcome (list RepoMetadata) :=
  if forallb (fun repo => is_str (repo_name repo)) repos then
    Returns (Sort.sort repo_package repos)
  else
    match repos with
    | [_] => Returns repos
    | _ =>
        if existsb (fun repo => is_str (repo_name repo)) repos
        then Raises TypeError
        else Undetermined
    end.

(** The frame shared by both definitions of [regenerate_index]. *)
Definition regenerate_with (body : RepoMetadata → Proc unit)
    (script_exists : bool) (myapps : option (list candidate)) : Proc unit :=
  if negb script_exists then
    emit (ErrorMissing "UPDATE_SCRIPT") ;; lift (SysExit 1)
  else
    repos ← find_repos_with_pip_index myapps ;
    match repos with
    | [] => emit NothingFound ;; lift (SysExit 0)
    | _ =>
        in_order ← lift (sorted_by_name repos) ;
        for_each body in_order ;;
        emit Complete
    end.

(** Lines 323-388, the definition in force. *)
Definition regenerate_index : bool → option (list candidate) → Proc unit :=
  regenerate_with add_repo.

(** Lines 156-231, the definition that is replaced. *)
Definition regenerate_index_first
  : bool → option (list candidate) → Proc unit :=
  regenerate_with add_repo_first.

(** ** The version of a link text, as the specification words it

    Strip a trailing [.tar.gz] if present, then take what follows the first
    [-]; without a [-] the whole text is the version. *)

Definition strip_suffix (s suf : string) : string :=
  if Str.endswith s suf then Str.take (Str.len s - Str.len suf) s else s.

Definition spec_version_of_link_text (link_text : string) : string :=
  let text := strip_suffix link_text ".tar.gz" in
  match Str.partition "-" text with
  | Some (_, after) => after
  | None => text
  end.

(** ** What a run may touch *)

(** The entry [f] of the directory [simple/dir], when [dir] is a directory
    and has that entry. *)
Definition entry_of (w : world) (dir f : string) : option inode :=
  match simple w !! dir with
  | Some (NDir d) => d !! f
  | _ => None
  end.

(** What a run on package [P] must leave as it was: every entry of
    [simple/] other than [P] and [index.html], every entry of [simple/P]
    other than its [index.html], and the page of every other package. *)
Definition frame (P : string) (w w' : world) : Prop :=
  (∀ name, name ≠ P → name ≠ "index.html" →
           simple w' !! name = simple w !! name) ∧
  (∀ f, f ≠ "index.html" → entry_of w' P f = entry_of w P f) ∧
  (∀ Q, Q ≠ P → page_of w' Q = page_of w Q).

(** A computation keeps the frame when every run of it does. *)
Definition keeps {A} (P : string) (c : M A) : Prop :=
  ∀ w w' res, c w = (w', res) → frame P w w'.

(** ** Example inputs *)

(** The index before its first update. *)
Definition empty_world : world := mkWorld ∅ [].

(** A world whose only entry is a package directory holding one page. *)
Definition world_with_page (package_name text : string) : world :=
  mkWorld {[ package_name := NDir {[ "index.html" := IFile text ]} ]} [].

(** Records of the package [eprint]. *)
Definition eprint_001 : VersionRecord :=
  mkVersion "0.0.1" "abc123" "jakeogh" "eprint".
Definition eprint_002 : VersionRecord :=
  mkVersion "0.0.2" "def456" "jakeogh" "eprint".
Definition eprint_0010 : VersionRecord :=
  mkVersion "0.0.10" "0123abc" "jakeogh" "eprint".

(** The anchor of a hand-written or older page whose link text is
    [foo.tar.gz]. *)
Definition legacy_page : string :=
  "<a href=" +:+ Str.dq +:+
  "https://github.com/jakeogh/foo/archive/abc123.tar.gz" +:+ Str.dq +:+
  ">foo.tar.gz</a>".

(** A repository whose processes never exit, and one whose commit lookup
    answers while the other two never exit. *)
Definition hung_repo : candidate :=
  mkCandidate "eprint" true true
    (Some (TomlStr "eprint"), Some (TomlStr "0.0.1"))
    Hangs Hangs (fun _ => Hangs).

Definition hung_writer_repo : candidate :=
  mkCandidate "eprint" true true
    (Some (TomlStr "eprint"), Some (TomlStr "0.0.1"))
    (Exits 0 0 ("abc123def456" +:+ Str.nl) EmptyString) Hangs
    (fun _ => Hangs).

(** An index that holds [eprint] 0.0.2, and the same index after 0.0.10 is
    published. *)
Definition eprint_world : world :=
  world_with_page "eprint" (create_package_index_html "eprint" [eprint_002]).

Definition eprint_world' : world :=
  (update_index "eprint" "0.0.10" "0123abc" "jakeogh" "eprint" eprint_world).1.


(** ** What every record read from a page satisfies

    The character classes of [anchor_pattern] bound what groups 1 to 3 can
    capture. *)
Definition parsed_ok (v : VersionRecord) : Prop :=
  github_user v ≠ EmptyString ∧ Str.lacks "/"%char (github_user v) ∧
  github_repo v ≠ EmptyString ∧ Str.lacks "/"%char (github_repo v) ∧
  commit_hash v ≠ EmptyString ∧ Str.lacks dqc (commit_hash v) ∧
  Str.lacks "#"%char (commit_hash v).

(** ** The directory a returning run leaves

    [package_dir_of s P] is the content of [simple/P] (empty when there is
    no such directory); [with_root s] is [s] with its root page rewritten;
    [updated s P versions] is [s] after the page of [P] is rewritten for
    [versions] and then the root page. *)
Definition package_dir_of (s : gmap string node) (P : string)
  : gmap string inode :=
  match s !! P with
  | Some (NDir d) => d
  | _ => ∅
  end.

Definition with_page (s : gmap string node) (P : string)
    (versions : list VersionRecord) : gmap string node :=
  <[P := NDir (<["index.html" :=
                   IFile (create_package_index_html P versions)]>
                 (package_dir_of s P))]> s.

Definition with_root (s : gmap string node) : gmap string node :=
  <["index.html" := NFile (create_root_index_html (listed_packages s))]> s.

Definition updated (s : gmap string node) (P : string)
    (versions : list VersionRecord) : gmap string node :=
  with_root (with_page s P versions).

(** The two lines a returning run prints. *)
Definition package_line (P : string) (versions : list VersionRecord)
  : string :=
  "Updated " +:+ P +:+ " index: " +:+ pretty (length versions) +:+
  " version(s)".

Definition root_line (s : gmap string node) : string :=
  "Updated root index: " +:+ pretty (length (listed_packages s)) +:+
  " package(s)".

(** When a run can return: the file system takes the name [P], [simple/P]
    is not a file, [P] is not the name of the root page, and
    [simple/index.html] is not a directory. *)
Definition writable (s : gmap string node) (P : string) : Prop :=
  name_error P = None ∧
  (∀ text, s !! P ≠ Some (NFile text)) ∧
  P ≠ "index.html" ∧
  (∀ d, s !! "index.html" ≠ Some (NDir d)).

(** ** The command line of the Index Writer

    [args] is what [parser.parse_args()] returns (lines 168-176): the three
    positional arguments and the three options, [--github-repo] being
    [None] when it is not given.  The index repository is the one the world
    stands for. *)
Record Args : Type := mkArgs {
  args_package : string;
  args_version : string;
  args_commit : string;
  args_index_repo : string;
  args_github_user : string;
  args_github_repo : option string
}.

(** Line 178: [args.github_repo or args.package]. *)
Definition repo_or_package (args : Args) : string :=
  match args_github_repo args with
  | Some (String c s) => String c s
  | _ => args_package args
  end.

(** Lines 167-186. *)
Definition main (args : Args) : M unit :=
  let github_repo := repo_or_package args in
  update_index (args_package args) (args_version args) (args_commit args)
    (args_github_user args) github_repo ;;
  print (Str.nl +:+ "To publish changes:") ;;
  print ("  cd " +:+ args_index_repo args) ;;
  print "  git add simple/" ;;
  print ("  git commit -m 'Update " +:+ args_package args +:+ " to " +:+
         args_version args +:+ "'") ;;
  print "  git push".

(** The index [eprint_world'] after [asserttool] 0.0.1 is published, after
    [eprint] 0.0.3 is, and after [eprint] 0.0.10 is published again. *)
Definition eprint_asserttool_world : world :=
  (update_index "asserttool" "0.0.1" "aaa111" "jakeogh" "asserttool"
     eprint_world').1.

Definition eprint_003 : VersionRecord :=
  mkVersion "0.0.3" "ccc333" "jakeogh" "eprint".

Definition eprint_world_003 : world :=
  (update_index "eprint" "0.0.3" "ccc333" "jakeogh" "eprint"
     eprint_world').1.

(** ** Reading the regenerator's output

    The package names of the [Adding] lines, in the order printed: one per
    repository the loop of [regenerate_index] starts on. *)
Definition added (log : list event) : list string :=
  omap (fun e => match e with
                 | Adding package_name _ => Some package_name
                 | _ => None
                 end) log.

(** An entry of [MYAPPS_DIR] passes the scan's tests of lines 294-307 when
    it is a directory, not hidden, not the index itself, carries the marker
    and declares a name and a version. *)
Definition eligible (item : candidate) : Prop :=
  cand_is_dir item = true ∧
  Str.startswith (cand_name item) "." = false ∧
  cand_name item ≠ "pip-index" ∧
  cand_marker item = true ∧
  truthy_value (cand_project item).1 = true ∧
  truthy_value (cand_project item).2 = true.

(** A process that runs to its end, and a manifest whose name and version
    are strings. *)
Definition exits (p : process) : Prop :=
  ∃ seconds code out err, p = Exits seconds code out err.

Definition declares_strings (item : candidate) : Prop :=
  ∃ name ver : string,
    cand_project item = (Some (TomlStr name), Some (TomlStr ver)).

(** What the scan records of a repository it discovers among [items]. *)
Definition discovered (items : list candidate) (repo : RepoMetadata) : Prop :=
  repo_path repo ∈ items ∧
  eligible (repo_path repo) ∧
  cand_project (repo_path repo)
  = (Some (repo_name repo), Some (repo_ver repo)) ∧
  repo_commit repo ≠ EmptyString ∧
  ∃ seconds out err,
    cand_rev_parse (repo_path repo) = Exits seconds 0 out err ∧
    repo_commit repo = Str.strip out.

(** Three entries of [MYAPPS_DIR]: a repository in order, a directory
    without the marker, and a marked directory that is no git repository
    and whose Index Writer run fails. *)
Definition good_repo : candidate :=
  mkCandidate "eprint" true true
    (Some (TomlStr "eprint"), Some (TomlStr "0.0.1"))
    (Exits 0 0 ("abc123def456" +:+ Str.nl) EmptyString)
    (Exits 1 0 ("git@github.com:jakeogh/eprint.git" +:+ Str.nl) EmptyString)
    (fun _ => Exits 0 0 "Updated" EmptyString).

Definition no_marker_repo : candidate :=
  mkCandidate "notes" true false (None, None) Hangs Hangs (fun _ => Hangs).

Definition failing_repo : candidate :=
  mkCandidate "asserttool" true true
    (Some (TomlStr "asserttool"), Some (TomlStr "0.0.3"))
    (Exits 0 128 EmptyString "fatal: not a git repository")
    (Exits 0 2 EmptyString "error: No such remote")
    (fun _ => Exits 0 1 EmptyString "Traceback").

(** A repository whose Index Writer run fails; one whose manifest gives the
    version as the number [1.0]; and one in which [git] cannot be
    started. *)
Definition failing_writer_repo : candidate :=
  mkCandidate "asserttool" true true
    (Some (TomlStr "asserttool"), Some (TomlStr "0.0.3"))
    (Exits 0 0 ("fedcba987654" +:+ Str.nl) EmptyString)
    (Exits 0 2 EmptyString "error: No such remote")
    (fun _ => Exits 0 1 EmptyString "Traceback").

Definition float_version_repo : candidate :=
  mkCandidate "tool" true true
    (Some (TomlStr "tool"), Some (TomlOther true "1.0"))
    (Exits 0 0 ("0a1b2c3d4e5f" +:+ Str.nl) EmptyString)
    (Exits 0 2 EmptyString "error: No such remote")
    (fun _ => Exits 0 0 "Updated" EmptyString).

Definition unstartable_repo : candidate :=
  mkCandidate "gone" true true
    (Some (TomlStr "gone"), Some (TomlStr "0.0.1"))
    NotStarted NotStarted (fun _ => NotStarted).

(** The characters the second group of [remote_pattern] accepts, and the
    usual beginnings of a remote address before the host name. *)
Definition name_atom : Re.atom := Re.ANot ("/"%char :: Str.whitespace).

Definition schemes : list string :=
  [EmptyString; "git@"; "https://"; "http://"; "ssh://git@"; "git://"].

(** ** The links of the pages, as the specification words them

    The root page holds one anchor per package, with [href="{package}/"]
    and the package name as its text; a package page holds one anchor per
    record, whose [href] is the address of the tarball followed by
    [#egg={package}-{version}] and whose text is [{package}-{version}].
    Each anchor stands on a line of its own, after four spaces and before
    a line break. *)
Definition spec_root_link (package : string) : string :=
  "<a href=" +:+ Str.dq +:+ package +:+ "/" +:+ Str.dq +:+ ">" +:+
  package +:+ "</a>".

Definition spec_package_link (package : string) (v : VersionRecord)
  : string :=
  "<a href=" +:+ Str.dq +:+ "https://github.com/" +:+ github_user v +:+
  "/" +:+ github_repo v +:+ "/archive/" +:+ commit_hash v +:+
  ".tar.gz#egg=" +:+ package +:+ "-" +:+ version v +:+ Str.dq +:+ ">" +:+
  package +:+ "-" +:+ version v +:+ "</a>".

Definition spec_line (link : string) : string :=
  "    " +:+ link +:+ "<br>" +:+ Str.nl.

(** An index that holds version [1] of [foo], one that holds version [2.0]
    of [my-pkg], and one that holds [eprint] 0.0.2 next to the working
    directory of another version-control tool. *)
Definition foo_1 : VersionRecord := mkVersion "1" "abc123" "jakeogh" "foo".

Definition foo_world : world :=
  world_with_page "foo" (create_package_index_html "foo" [foo_1]).


Definition hg_world : world :=
  mkWorld (<[".hg" := NDir ∅]> (simple eprint_world)) [].

(** ** Facts about strings *)

Module StrFacts.
Import Str.

Lemma app_cons c s t : String c s +:+ t = String c (s +:+ t).
Proof. reflexivity. Qed.

Lemma app_nil_l s : EmptyString +:+ s = s.
Proof. reflexivity. Qed.

Lemma app_nil_r s : s +:+ EmptyString = s.
Proof. induction s as [|c s IH]; [done|]. by rewrite app_cons, IH. Qed.

Lemma app_assoc s t u : (s +:+ t) +:+ u = s +:+ (t +:+ u).
Proof.
  induction s as [|c s IH]; [done|]. by rewrite !app_cons, IH.
Qed.

Lemma len_app s t : len (s +:+ t) = len s + len t.
Proof.
  induction s as [|c s IH]; [done|].
  rewrite ?app_cons. unfold len in *. simpl. by rewrite IH.
Qed.

Lemma take_app s t : take (len s) (s +:+ t) = s.
Proof.
  induction s as [|c s IH]; [by destruct t|].
  rewrite ?app_cons. unfold len in *. simpl. by rewrite IH.
Qed.

Lemma drop_app s t : drop (len s) (s +:+ t) = t.
Proof.
  induction s as [|c s IH]; [done|].
  rewrite ?app_cons. unfold len in *. by simpl.
Qed.

Lemma lacks_app c s t : lacks c (s +:+ t) ↔ lacks c s ∧ lacks c t.
Proof.
  induction s as [|d s IH]; simpl; [tauto|].
  rewrite ?app_cons. simpl. tauto.
Qed.

Lemma prefix_app s t : String.prefix s (s +:+ t) = true.
Proof.
  induction s as [|c s IH]; [by destruct t|].
  rewrite ?app_cons. simpl. by destruct (ascii_dec c c).
Qed.

Lemma prefix_inv p s :
  String.prefix p s = true → ∃ t, s = p +:+ t.
Proof.
  revert s. induction p as [|c p IH]; intros s H.
  - by exists s.
  - destruct s as [|d s]; [done|]. simpl in H.
    destruct (ascii_dec c d) as [->|]; [|done].
    destruct (IH _ H) as [t ->]. by exists t.
Qed.

(** A text that holds [c] differs from every text that lacks it. *)
Lemma lacks_neq c x y suf : lacks c suf → x +:+ String c y ≠ suf.
Proof.
  intros Hl <-. apply lacks_app in Hl as [_ Hl]. simpl in Hl. tauto.
Qed.

Lemma endswith_cons c s suf :
  endswith (String c s) suf
  = if String.eqb (String c s) suf then true else endswith s suf.
Proof. reflexivity. Qed.

Lemma endswith_after c x y suf :
  lacks c suf → endswith (x +:+ String c y) suf = endswith y suf.
Proof.
  intros Hl. induction x as [|d x IH].
  - rewrite app_nil_l, endswith_cons.
    destruct (String.eqb_spec (String c y) suf) as [E|_]; [|done].
    by destruct (lacks_neq c EmptyString y suf Hl).
  - rewrite app_cons, endswith_cons.
    destruct (String.eqb_spec (String d (x +:+ String c y)) suf)
      as [E|_]; [|done].
    by destruct (lacks_neq c (String d x) y suf Hl).
Qed.

Lemma partition_first c x y :
  lacks c x →
  partition (String c EmptyString) (x +:+ String c y) = Some (x, y).
Proof.
  induction x as [|d x IH]; intros Hl.
  - rewrite ?app_nil_l. simpl. destruct (ascii_dec c c); [|done].
    by destruct y.
  - destruct Hl as [Hd Hl]. rewrite ?app_cons. simpl.
    destruct (ascii_dec c d) as [->|_]; [done|].
    by rewrite (IH Hl).
Qed.

Lemma contains_mid c x y :
  contains (String c EmptyString) (x +:+ String c y) = true.
Proof.
  induction x as [|d x IH].
  - rewrite ?app_nil_l. simpl. destruct (ascii_dec c c); [|done].
    by destruct y.
  - rewrite ?app_cons. simpl. rewrite IH.
    by destruct (ascii_dec c d); [destruct (x +:+ String c y)|].
Qed.

(** Text without a carriage return is read as it is stored. *)
Lemma read_text_id s : lacks cr s → read_text s = s.
Proof.
  unfold read_text. induction s as [|c s IH]; [done|]. intros [Hc Hs].
  cbn [newlines_from]. rewrite (proj2 (Ascii.eqb_neq c cr) Hc).
  rewrite (IH Hs). by destruct (Ascii.eqb_spec c lf) as [->|].
Qed.

(** Reading brings in no character other than the line feed. *)
Lemma lacks_newlines c b s :
  c ≠ lf → lacks c s → lacks c (newlines_from b s).
Proof.
  intros Hc. revert b. induction s as [|d s IH]; intros b; [done|].
  intros [Hd Hs]. cbn [newlines_from].
  destruct (Ascii.eqb d cr); [by split; [|apply IH]|].
  destruct (Ascii.eqb d lf); [|by split; [|apply IH]].
  destruct b; [by apply IH|by split; [|apply IH]].
Qed.

End StrFacts.

(** ** Facts about the matcher *)

Module ReFacts.
Import Str StrFacts Re.

Lemma eqb_neq_false (c d : ascii) : c ≠ d → Ascii.eqb c d = false.
Proof. intros H. by apply Ascii.eqb_neq. Qed.

Lemma lacks_all_ok1 c s : lacks c s → all_ok (ANot [c]) s.
Proof.
  induction s as [|d s IH]; [done|]. intros [Hd Hs]. split; [|auto].
  unfold atom_ok, mem. simpl. by rewrite (eqb_neq_false d c Hd).
Qed.

Lemma lacks_all_ok2 c1 c2 s :
  lacks c1 s → lacks c2 s → all_ok (ANot [c1; c2]) s.
Proof.
  induction s as [|d s IH]; [done|]. intros [Hd1 Hs1] [Hd2 Hs2].
  split; [|auto]. unfold atom_ok, mem. simpl.
  by rewrite (eqb_neq_false d c1 Hd1), (eqb_neq_false d c2 Hd2).
Qed.

Lemma consumed_app x s : consumed (x +:+ s) s = x.
Proof.
  unfold consumed. rewrite len_app.
  replace (len x + len s - len s) with (len x) by lia. apply take_app.
Qed.

Section Matcher.
Context {R : Type}.
Implicit Types (k : string → caps → option R) (res : R).

Lemma rmatch_cat r1 r2 s m k :
  rmatch (RCat r1 r2) s m k
  = rmatch r1 s m (fun s' m' => rmatch r2 s' m' k).
Proof. reflexivity. Qed.

Lemma rmatch_group n r1 s m k :
  rmatch (RGroup n r1) s m k
  = rmatch r1 s m (fun s' m' => k s' (set_group n (consumed s s') m')).
Proof. reflexivity. Qed.

Lemma rmatch_plus a s m k :
  rmatch (RPlus a) s m k = plus_greedy a s (fun s' => k s' m).
Proof. reflexivity. Qed.

Lemma rmatch_opt_some r1 s m k res :
  rmatch r1 s m k = Some res → rmatch (ROpt r1) s m k = Some res.
Proof. intros H. simpl. by rewrite H. Qed.

(** A literal consumes exactly its own text. *)
Lemma rmatch_lit l s m k : rmatch (lit l) (l +:+ s) m k = k s m.
Proof.
  induction l as [|c l IH]; [done|].
  rewrite app_cons. simpl. by rewrite Ascii.eqb_refl.
Qed.

Lemma rmatch_lit_inv l u m k res :
  rmatch (lit l) u m k = Some res →
  ∃ u', u = l +:+ u' ∧ k u' m = Some res.
Proof.
  revert u. induction l as [|c l IH]; intros u H.
  - by exists u.
  - destruct u as [|d u]; [done|]. simpl in H.
    destruct (Ascii.eqb_spec d c) as [->|]; [|done].
    destruct (IH _ H) as (u' & -> & Hk). by exists u'.
Qed.

(** The greedy [+] takes the whole run [x] when no longer run leads to
    a match and the continuation accepts what follows [x]. *)
Lemma plus_greedy_found a x s (k : string → option R) res :
  x ≠ EmptyString → all_ok a x →
  plus_greedy a s k = None → k s = Some res →
  plus_greedy a (x +:+ s) k = Some res.
Proof.
  intros Hne Hok Hno Hk. induction x as [|c x IH]; [done|].
  destruct Hok as [Hc Hx]. rewrite app_cons. simpl. rewrite Hc.
  destruct x as [|d x].
  - rewrite app_nil_l, Hno. done.
  - by rewrite IH.
Qed.
End Matcher.

(** [finditer] passes over the characters of a match. *)
Lemma finditer_from_skip r t s :
  finditer_from (len t) r (t +:+ s) = finditer_from 0 r s.
Proof.
  induction t as [|c t IH]; [by destruct s|].
  rewrite app_cons. unfold len in *. simpl. apply IH.
Qed.

Lemma finditer_match r x rest m :
  x ≠ EmptyString →
  match_at r (x +:+ rest) = Some (m, rest) →
  finditer r (x +:+ rest) = m :: finditer r rest.
Proof.
  intros Hne Hm. unfold finditer. destruct x as [|c x]; [done|].
  rewrite app_cons in *. simpl. rewrite Hm. f_equal.
  change (String.length (String c (x +:+ rest))) with (S (len (x +:+ rest))).
  rewrite len_app.
  replace (S (len x + len rest) - len rest - 1) with (len x)
    by (unfold len; lia).
  apply finditer_from_skip.
Qed.

Lemma finditer_no_match r c s :
  match_at r (String c s) = None →
  finditer r (String c s) = finditer r s.
Proof. intros H. unfold finditer. simpl. by rewrite H. Qed.

End ReFacts.

(** ** The parser reads back what the renderer writes *)

Module RoundTrip.
Import Str StrFacts Re ReFacts.

Ltac lit_step :=
  rewrite rmatch_cat; etrans; [apply rmatch_lit|]; cbv beta.

Ltac plus_step :=
  rewrite rmatch_cat, rmatch_group, rmatch_plus;
  apply plus_greedy_found.

Lemma anchor_core_eq P v rest :
  anchor_core P v +:+ rest
  = ("href=" +:+ dq +:+ "https://github.com/") +:+
    github_user v +:+ "/" +:+ github_repo v +:+ "/archive/" +:+
    commit_hash v +:+ ".tar.gz" +:+ "#egg=" +:+
    (P +:+ "-" +:+ version v) +:+ (dq +:+ ">") +:+
    (P +:+ "-" +:+ version v) +:+ "</a>" +:+ rest.
Proof.
  unfold anchor_core, link_url, tarball_url, link_text.
  by rewrite !app_assoc.
Qed.

Lemma anchor_match P v rest :
  wf_package P → wf_record v →
  match_at anchor_pattern (anchor_core P v +:+ rest)
  = Some (anchor_caps P v, rest).
Proof.
  intros (HPd & HPq & HPa & _) Hv. rewrite anchor_core_eq.
  unfold match_at, anchor_pattern.
  lit_step.
  destruct Hv.
  plus_step; [done|by apply lacks_all_ok1|done|].
  lit_step.
  plus_step; [done|by apply lacks_all_ok1|done|].
  lit_step.
  plus_step; [done|by apply lacks_all_ok2|vm_compute; reflexivity|].
  lit_step.
  rewrite rmatch_cat. apply rmatch_opt_some.
  lit_step. rewrite rmatch_plus.
  assert (Hne : P +:+ "-" +:+ version v ≠ EmptyString)
    by (by destruct P).
  apply plus_greedy_found;
    [done|apply lacks_all_ok1; rewrite !lacks_app; by simpl|done|].
  lit_step.
  plus_step;
    [done|apply lacks_all_ok1; rewrite !lacks_app; by simpl|done|].
  etrans; [apply rmatch_lit|]. cbv beta.
  by rewrite !consumed_app.
Qed.

(** A match can only start where the page reads [href_lead]. *)
Lemma match_at_lead u res :
  match_at anchor_pattern u = Some res → ∃ u', u = href_lead +:+ u'.
Proof.
  unfold match_at, anchor_pattern. rewrite rmatch_cat. intros H.
  apply rmatch_lit_inv in H as (u' & -> & _). by exists u'.
Qed.

Lemma no_match_no_quote u :
  lacks dqc u → match_at anchor_pattern u = None.
Proof.
  intros Hl. destruct (match_at anchor_pattern u) as [res|] eqn:E; [|done].
  apply match_at_lead in E as (u' & ->).
  vm_compute in Hl. tauto.
Qed.

Lemma no_match_before_href c t s :
  lacks dqc (String c t) →
  match_at anchor_pattern (String c t +:+ "href=" +:+ dq +:+ s) = None.
Proof.
  intros Hl.
  destruct (match_at anchor_pattern _) as [res|] eqn:E; [|done].
  apply match_at_lead in E as (u' & E). exfalso.
  destruct t as [|c2 [|c3 [|c4 [|c5 [|c6 t]]]]];
    vm_compute in E, Hl; simplify_eq; tauto.
Qed.

Lemma finditer_no_quote u :
  lacks dqc u → finditer anchor_pattern u = [].
Proof.
  induction u as [|c u IH]; [done|]. intros Hl.
  rewrite finditer_no_match by by apply no_match_no_quote.
  apply IH, Hl.
Qed.

Lemma finditer_skip t s :
  lacks dqc t →
  finditer anchor_pattern (t +:+ "href=" +:+ dq +:+ s)
  = finditer anchor_pattern ("href=" +:+ dq +:+ s).
Proof.
  induction t as [|c t IH]; [done|]. intros Hl.
  rewrite app_cons, finditer_no_match
    by by apply (no_match_before_href c t s).
  apply IH, Hl.
Qed.

Lemma fold_left_append {A} (f : A → string) l h :
  fold_left (fun html x => html +:+ f x) l h = h +:+ concat_str (f <$> l).
Proof.
  revert h. induction l as [|x l IH]; intros h; simpl.
  - by rewrite app_nil_r.
  - by rewrite IH, app_assoc.
Qed.

Lemma create_package_index_html_eq P vs :
  create_package_index_html P vs
  = package_page_head P +:+ concat_str (package_anchor P <$> vs) +:+
    page_tail.
Proof.
  unfold create_package_index_html. by rewrite fold_left_append, app_assoc.
Qed.

Lemma create_root_index_html_eq packages :
  create_root_index_html packages
  = root_page_head +:+
    concat_str (root_anchor <$> Sort.sorted packages) +:+ page_tail.
Proof.
  unfold create_root_index_html. by rewrite fold_left_append, app_assoc.
Qed.

Lemma package_anchor_eq P v X :
  package_anchor P v +:+ X
  = "    <a " +:+ anchor_core P v +:+ ("<br>" +:+ nl) +:+ X.
Proof.
  unfold package_anchor, anchor_core. by rewrite !app_assoc.
Qed.

Lemma anchor_core_href P v X :
  ∃ S, anchor_core P v +:+ X = "href=" +:+ dq +:+ S.
Proof. unfold anchor_core. rewrite !app_assoc. by eexists. Qed.

Lemma anchor_core_nonempty P v : anchor_core P v ≠ EmptyString.
Proof. done. Qed.

(** The matches on the body of a page are its anchors, in order. *)
Lemma finditer_body P vs t :
  wf_package P → Forall wf_record vs → lacks dqc t →
  finditer anchor_pattern
    (t +:+ concat_str (package_anchor P <$> vs) +:+ page_tail)
  = anchor_caps P <$> vs.
Proof.
  intros HP Hvs. revert t.
  induction Hvs as [|v vs Hv Hvs IH]; intros t Ht.
  - simpl. apply finditer_no_quote, lacks_app. split; [done|].
    by vm_compute.
  - rewrite !fmap_cons.
    change (concat_str (package_anchor P v :: ?l))
      with (package_anchor P v +:+ concat_str l).
    rewrite (app_assoc (package_anchor P v)), package_anchor_eq.
    set (rest := ("<br>" +:+ nl) +:+ _).
    rewrite <-(app_assoc t).
    destruct (anchor_core_href P v rest) as [S ES]. rewrite ES.
    rewrite finditer_skip
      by (apply lacks_app; split; [done|by vm_compute]).
    rewrite <-ES.
    rewrite (finditer_match _ _ _ (anchor_caps P v))
      by (by apply anchor_core_nonempty || by apply anchor_match).
    f_equal. apply IH. by vm_compute.
Qed.

Lemma version_of_link_text_rendered P v :
  wf_package P → wf_record v →
  version_of_link_text (link_text P v) = Ok (version v).
Proof.
  intros (HP & _) Hv. unfold version_of_link_text, link_text.
  change (P +:+ "-" +:+ version v)
    with (P +:+ String "-"%char (version v)).
  rewrite endswith_after by (by vm_compute).
  rewrite (wf_version_suffix v Hv), contains_mid.
  unfold split1. by rewrite partition_first.
Qed.

Lemma record_of_match_rendered P v :
  wf_package P → wf_record v →
  record_of_match (anchor_caps P v) = Ok v.
Proof.
  intros HP Hv. unfold record_of_match.
  change (Re.group (anchor_caps P v) 4) with (link_text P v).
  rewrite version_of_link_text_rendered by done. by destruct v.
Qed.

Lemma collect_versions_rendered P vs acc :
  wf_package P → Forall wf_record vs →
  collect_versions (anchor_caps P <$> vs) acc = Ok (acc ++ vs).
Proof.
  intros HP Hvs. revert acc.
  induction Hvs as [|v vs Hv Hvs IH]; intros acc; simpl.
  - by rewrite List.app_nil_r.
  - rewrite record_of_match_rendered by done.
    by rewrite IH, <-List.app_assoc.
Qed.

Lemma parse_rendered P vs :
  wf_package P → Forall wf_record vs →
  parse_versions (create_package_index_html P vs) = Ok vs.
Proof.
  intros HP Hvs. unfold parse_versions.
  rewrite create_package_index_html_eq, finditer_body; [|done..|].
  - by rewrite collect_versions_rendered.
  - destruct HP as (_ & HP & _). unfold package_page_head.
    rewrite !lacks_app. by vm_compute.
Qed.

(** The page rendered for such records holds no carriage return, so it is
    read back as it was written. *)
Lemma lacks_cr_anchor P v :
  wf_package P → wf_record v → lacks cr (package_anchor P v).
Proof.
  intros (_ & _ & _ & HP) Hv. destruct Hv.
  unfold package_anchor, link_url, tarball_url, link_text.
  rewrite !lacks_app. split_and!; try done; by vm_compute.
Qed.

Lemma read_rendered P vs :
  wf_package P → Forall wf_record vs →
  read_text (create_package_index_html P vs)
  = create_package_index_html P vs.
Proof.
  intros HP Hvs. apply read_text_id.
  rewrite create_package_index_html_eq, !lacks_app. split_and!.
  - destruct HP as (_ & _ & _ & HP). unfold package_page_head.
    rewrite !lacks_app. split_and!; try done; by vm_compute.
  - induction Hvs as [|v vs Hv Hvs IH]; [done|].
    rewrite fmap_cons.
    change (concat_str (package_anchor P v :: ?l))
      with (package_anchor P v +:+ concat_str l).
    apply lacks_app. split; [by apply lacks_cr_anchor|done].
  - by vm_compute.
Qed.

Lemma read_parse_rendered P vs :
  wf_package P → Forall wf_record vs →
  parse_versions (read_text (create_package_index_html P vs)) = Ok vs.
Proof. intros HP Hvs. by rewrite read_rendered, parse_rendered. Qed.

End RoundTrip.

(** ** Facts about the stable sort *)

Module SortFacts.
Import Sort.

Section ByKey.
Context {A : Type} (key : A → string).

Lemma key_le_leb a b : key_le key a b ↔ String.leb (key a) (key b) = true.
Proof. unfold key_le, String.le. apply Is_true_true. Qed.

Lemma key_le_trans a b c :
  key_le key a b → key_le key b c → key_le key a c.
Proof. unfold key_le. apply transitivity. Qed.

Lemma key_le_total a b : key_le key a b ∨ key_le key b a.
Proof. unfold key_le. apply (total String.le). Qed.

Lemma insert_perm x l : insert key x l ≡ₚ x :: l.
Proof.
  induction l as [|y l IH]; simpl; [done|].
  destruct (String.leb (key x) (key y)); [done|].
  rewrite IH. apply Permutation_swap.
Qed.

Lemma sort_perm l : sort key l ≡ₚ l.
Proof.
  induction l as [|x l IH]; simpl; [done|].
  by rewrite insert_perm, IH.
Qed.

Lemma insert_sorted x l :
  StronglySorted (key_le key) l → StronglySorted (key_le key) (insert key x l).
Proof.
  induction 1 as [|y l Hs IH Hy]; simpl.
  - by repeat constructor.
  - destruct (String.leb (key x) (key y)) eqn:E.
    + apply key_le_leb in E. constructor; [by constructor|].
      constructor; [done|].
      eapply Forall_impl; [exact Hy|].
      intros z Hz. by eapply key_le_trans.
    + constructor; [done|]. rewrite insert_perm. constructor; [|done].
      destruct (key_le_total x y) as [H|H]; [|done].
      apply key_le_leb in H. congruence.
Qed.

Lemma sort_sorted l : StronglySorted (key_le key) (sort key l).
Proof.
  induction l as [|x l IH]; simpl; [constructor|by apply insert_sorted].
Qed.

Lemma insert_least x l : Forall (key_le key x) l → insert key x l = x :: l.
Proof.
  destruct 1 as [|y l Hy _]; simpl; [done|].
  apply key_le_leb in Hy. by rewrite Hy.
Qed.


Section Filter.
Context (P : A → Prop) `{!∀ x, Decision (P x)}.

Lemma filter_insert x l :
  StronglySorted (key_le key) l →
  filter P (insert key x l)
  = if decide (P x) then insert key x (filter P l) else filter P l.
Proof.
  induction 1 as [|y l Hs IH Hy]; simpl.
  - rewrite filter_cons, filter_nil. by destruct (decide (P x)).
  - destruct (String.leb (key x) (key y)) eqn:E.
    + rewrite (filter_cons P x). destruct (decide (P x)); [|done].
      symmetry. apply insert_least.
      apply key_le_leb in E.
      apply Forall_forall. intros z Hz.
      apply list_elem_of_filter in Hz as [_ Hz].
      apply elem_of_cons in Hz as [->|Hz]; [done|].
      eapply key_le_trans; [exact E|].
      rewrite Forall_forall in Hy. by apply Hy.
    + rewrite !(filter_cons P y), IH.
      destruct (decide (P y)), (decide (P x)); simpl; try done.
      by rewrite E.
Qed.

(** Filtering commutes with the stable sort. *)
Lemma filter_sort l : filter P (sort key l) = sort key (filter P l).
Proof.
  induction l as [|x l IH]; simpl; [done|].
  rewrite filter_insert by apply sort_sorted.
  rewrite filter_cons, IH. by destruct (decide (P x)).
Qed.
End Filter.

(** Two insertions of different keys commute. *)
Lemma insert_comm x y l :
  String.leb (key x) (key y) = false →
  insert key y (insert key x l) = insert key x (insert key y l).
Proof.
  intros Hxy.
  assert (Hyx : String.leb (key y) (key x) = true).
  { destruct (key_le_total y x) as [H|H]; apply key_le_leb in H; congruence. }
  induction l as [|z l IH]; simpl.
  - by rewrite Hyx, Hxy.
  - destruct (String.leb (key x) (key z)) eqn:Exz; simpl.
    + assert (Hyz : String.leb (key y) (key z) = true).
      { apply key_le_leb. eapply key_le_trans; by apply key_le_leb. }
      rewrite Hyx, Hyz. simpl. by rewrite Hxy, Exz.
    + destruct (String.leb (key y) (key z)) eqn:Eyz; simpl.
      * by rewrite Hxy, Exz.
      * by rewrite Exz, IH.
Qed.

Lemma sort_insert_app x l1 l2 :
  sort key (insert key x l1 ++ l2) = insert key x (sort key (l1 ++ l2)).
Proof.
  induction l1 as [|y l1 IH]; simpl; [done|].
  destruct (String.leb (key x) (key y)) eqn:E; simpl; [done|].
  by rewrite IH, insert_comm.
Qed.

(** Sorting a part first does not change the outcome. *)
Lemma sort_sort_app l1 l2 :
  sort key (sort key l1 ++ l2) = sort key (l1 ++ l2).
Proof.
  induction l1 as [|x l1 IH]; simpl; [done|].
  by rewrite sort_insert_app, IH.
Qed.
End ByKey.

(** Two orderings of the same names sort to the same list, so the order
    in which a directory is enumerated does not show in the root page. *)
Lemma sorted_order_independent (l1 l2 : list string) :
  l1 ≡ₚ l2 → sorted l1 = sorted l2.
Proof.
  intros Hp. unfold sorted.
  apply (Sorted_unique String.le).
  - apply StronglySorted_Sorted, (sort_sorted id).
  - apply StronglySorted_Sorted, (sort_sorted id).
  - by rewrite !sort_perm.
Qed.

End SortFacts.

(** ** How a run of [update_index] unfolds *)

Module Run.
Import Str StrFacts.

Lemma load_existing_versions_pure P w :
  (load_existing_versions P w).1 = w.
Proof.
  unfold load_existing_versions. by repeat case_match.
Qed.

Lemma bind_ok {A B} (c : M A) (f : A → M B) w w' b :
  (c ≫= f) w = (w', Ok b) →
  ∃ a w1, c w = (w1, Ok a) ∧ f a w1 = (w', Ok b).
Proof.
  unfold mbind, M_bind. destruct (c w) as [w1 [a|e]]; [|done].
  intros H. by exists a, w1.
Qed.

Lemma mkdir_ok P w w1 :
  mkdir P w = (w1, Ok ()) →
  ∃ d, simple w1 !! P = Some (NDir d) ∧ stdout w1 = stdout w ∧
       (simple w !! P = Some (NDir d) ∧ simple w1 = simple w ∨
        simple w !! P = None ∧ d = ∅ ∧
        simple w1 = <[P := NDir ∅]> (simple w)).
Proof.
  unfold mkdir. destruct (name_error P); [done|].
  destruct (simple w !! P) as [[?|d]|] eqn:E; intros H; simplify_eq.
  - exists d. eauto.
  - exists ∅. simpl. rewrite lookup_insert_eq. eauto 10.
Qed.

Lemma mkdir_ok_name P w w1 :
  mkdir P w = (w1, Ok ()) → name_error P = None.
Proof. unfold mkdir. by destruct (name_error P). Qed.

Lemma write_package_page_ok P text w w2 :
  write_package_page P text w = (w2, Ok ()) →
  ∃ d, simple w !! P = Some (NDir d) ∧
       w2 = mkWorld (<[P := NDir (<["index.html" := IFile text]> d)]>
                       (simple w)) (stdout w).
Proof.
  unfold write_package_page.
  destruct (simple w !! P) as [[?|d]|]; [done| |done].
  destruct (d !! "index.html") as [[?|]|]; intros H; simplify_eq; eauto.
Qed.

Lemma write_root_page_ok text w w2 :
  write_root_page text w = (w2, Ok ()) →
  (∀ dd, simple w !! "index.html" ≠ Some (NDir dd)) ∧
  w2 = mkWorld (<["index.html" := NFile text]> (simple w)) (stdout w).
Proof.
  unfold write_root_page.
  destruct (simple w !! "index.html") as [[?|d]|]; intros H;
    by simplify_eq.
Qed.

Lemma update_root_index_ok w w' :
  update_root_index w = (w', Ok ()) →
  (∀ dd, simple w !! "index.html" ≠ Some (NDir dd)) ∧
  simple w' =
    <["index.html" :=
        NFile (create_root_index_html (listed_packages (simple w)))]>
      (simple w).
Proof.
  unfold update_root_index. intros H.
  apply bind_ok in H as ([] & w1 & H1 & H2).
  apply write_root_page_ok in H1 as [Hd Hw1]. subst w1.
  unfold print in H2. by simplify_eq.
Qed.

Lemma load_existing_versions_dir P w d :
  simple w !! P = Some (NDir d) →
  load_existing_versions P w = (w, dir_versions d).
Proof.
  intros E. unfold load_existing_versions, dir_versions. rewrite E.
  by repeat case_match.
Qed.

Lemma load_existing_versions_absent P w :
  simple w !! P = None → load_existing_versions P w = (w, Ok []).
Proof. intros E. unfold load_existing_versions. by rewrite E. Qed.

(** A run that returns went through every step. *)
Lemma update_index_ok P v c u r w w' :
  update_index P v c u r w = (w', Ok ()) →
  ∃ d vs,
    (simple w !! P = Some (NDir d) ∨ simple w !! P = None ∧ d = ∅) ∧
    load_existing_versions P w = (w, Ok vs) ∧
    let versions := merge_version vs (mkVersion v c u r) in
    let d' :=
      <["index.html" := IFile (create_package_index_html P versions)]> d in
    let s2 := <[P := NDir d']> (simple w) in
    P ≠ "index.html" ∧
    (∀ dd, simple w !! "index.html" ≠ Some (NDir dd)) ∧
    simple w' =
      <["index.html" :=
          NFile (create_root_index_html (listed_packages s2))]> s2.
Proof.
  unfold update_index. intros H.
  apply bind_ok in H as ([] & w1 & Hmk & H).
  apply bind_ok in H as (vs & w1' & Hload & H).
  apply bind_ok in H as ([] & w2 & Hwr & H).
  apply bind_ok in H as ([] & w3 & Hpr & H).
  apply mkdir_ok in Hmk as (d & Hd1 & Hout & Hmk).
  rewrite (load_existing_versions_dir _ _ _ Hd1) in Hload.
  simplify_eq.
  apply write_package_page_ok in Hwr as (d0 & Hd0 & Hw2). simplify_eq.
  unfold print in Hpr. simplify_eq.
  apply update_root_index_ok in H as [Hroot Hw']. simpl in Hroot, Hw'.
  assert (HP : P ≠ "index.html").
  { intros ->. by eapply Hroot, lookup_insert_eq. }
  exists d, vs. cbv zeta.
  destruct Hmk as [[HdP Hs]|(HdP & -> & Hs)]; rewrite Hs in *.
  - split_and!; [by left| |done| |done].
    + by rewrite (load_existing_versions_dir _ _ _ HdP), H1.
    + intros dd Hdd. apply (Hroot dd). by rewrite lookup_insert_ne.
  - rewrite insert_insert_eq in Hw', Hroot.
    split_and!; [by right| |done| |done].
    + rewrite (load_existing_versions_absent _ _ HdP).
      unfold dir_versions in H1. rewrite lookup_empty in H1. congruence.
    + intros dd Hdd. apply (Hroot dd). by rewrite lookup_insert_ne.
Qed.

(** A run that returns was given a name the file system takes. *)
Lemma update_index_ok_name P v c u r w w' :
  update_index P v c u r w = (w', Ok ()) → name_error P = None.
Proof.
  unfold update_index. intros H.
  apply bind_ok in H as ([] & w1 & Hmk & _). by eapply mkdir_ok_name.
Qed.

End Run.

(** ** Facts about the merge step *)

Module MergeFacts.
Import SortFacts.

Local Abbreviation other_than new :=
  (fun r : VersionRecord => version r ≠ version new).
Local Abbreviation same_as new :=
  (fun r : VersionRecord => version r = version new).

Lemma merge_version_perm vs new :
  merge_version vs new ≡ₚ filter (other_than new) vs ++ [new].
Proof. unfold merge_version. apply sort_perm. Qed.

Lemma merge_version_sorted vs new :
  StronglySorted (Sort.key_le version) (merge_version vs new).
Proof. unfold merge_version. apply sort_sorted. Qed.

(** The merged list holds the incoming record and no other record of
    its version. *)
Lemma merge_version_new vs new :
  filter (same_as new) (merge_version vs new) = [new].
Proof.
  unfold merge_version. rewrite filter_sort, filter_app.
  rewrite list_filter_filter.
  rewrite (filter_cons_True (same_as new)) by done.
  assert (filter (fun r => version r = version new ∧ version r ≠ version new)
            vs = []) as ->; [|done].
  induction vs as [|r vs IH]; [done|].
  rewrite filter_cons_False by tauto. exact IH.
Qed.

(** The records of the other versions are the prior ones, in sorted
    order. *)
Lemma merge_version_others vs new :
  filter (other_than new) (merge_version vs new)
  = Sort.sort version (filter (other_than new) vs).
Proof.
  unfold merge_version. rewrite filter_sort, filter_app.
  rewrite list_filter_filter.
  rewrite (filter_cons_False (other_than new)) by (by intros []).
  rewrite filter_nil, List.app_nil_r. f_equal.
  induction vs as [|r vs IH]; [done|].
  rewrite !filter_cons, IH.
  destruct (decide (version r ≠ version new));
    destruct (decide (_ ∧ _)); tauto.
Qed.

Lemma merge_version_nodup vs new :
  NoDup (version <$> vs) → NoDup (version <$> merge_version vs new).
Proof.
  intros Hnd. rewrite merge_version_perm, fmap_app. simpl.
  apply NoDup_app. split_and!.
  - eapply sublist_NoDup; [exact Hnd|apply fmap_sublist, sublist_filter].
  - intros x Hx Hin. apply list_elem_of_fmap in Hx as (r & -> & Hr).
    apply list_elem_of_filter in Hr as [Hne _].
    apply list_elem_of_singleton in Hin. done.
  - apply NoDup_singleton.
Qed.

(** Merging the same record a second time changes nothing. *)
Lemma merge_version_again vs new :
  merge_version (merge_version vs new) new = merge_version vs new.
Proof.
  unfold merge_version at 1. rewrite merge_version_others.
  unfold merge_version. apply sort_sort_app.
Qed.

End MergeFacts.

(** ** Which files a run touches *)

Module Frame.
Import Run.

Lemma frame_refl P w : frame P w w.
Proof. by split_and!. Qed.

Lemma frame_trans P w1 w2 w3 :
  frame P w1 w2 → frame P w2 w3 → frame P w1 w3.
Proof.
  intros (A1 & B1 & C1) (A2 & B2 & C2). split_and!.
  - intros name ??. by rewrite A2, A1.
  - intros f ?. by rewrite B2, B1.
  - intros Q ?. by rewrite C2, C1.
Qed.

Lemma keeps_bind {A B} P (c : M A) (f : A → M B) :
  keeps P c → (∀ a, keeps P (f a)) → keeps P (c ≫= f).
Proof.
  intros Hc Hf w w' res. unfold mbind, M_bind.
  destruct (c w) as [w1 [a|e]] eqn:E; intros H.
  - eapply frame_trans; [by eapply Hc|by eapply Hf].
  - simplify_eq. by eapply Hc.
Qed.

Lemma keeps_mkdir P : keeps P (mkdir P).
Proof.
  intros w w' res. unfold mkdir.
  destruct (name_error P); [intros; simplify_eq; apply frame_refl|].
  destruct (simple w !! P) as [[?|d]|] eqn:E; intros H; simplify_eq;
    try apply frame_refl.
  split_and!; simpl.
  - intros name ??. by rewrite lookup_insert_ne.
  - intros f ?. unfold entry_of. simpl.
    by rewrite lookup_insert_eq, E, lookup_empty.
  - intros Q ?. unfold page_of. simpl. by rewrite lookup_insert_ne.
Qed.

Lemma keeps_load P : keeps P (load_existing_versions P).
Proof.
  intros w w' res H.
  pose proof (load_existing_versions_pure P w) as Hp.
  rewrite H in Hp. simpl in Hp. subst. apply frame_refl.
Qed.

Lemma keeps_write_package_page P text :
  keeps P (write_package_page P text).
Proof.
  intros w w' res. unfold write_package_page.
  destruct (simple w !! P) as [[?|d]|] eqn:E;
    [intros; simplify_eq; apply frame_refl| |
     intros; simplify_eq; apply frame_refl].
  destruct (d !! "index.html") as [[?|]|]; intros H; simplify_eq;
    try apply frame_refl.
  all: split_and!; simpl.
  all: try (intros name ??; by rewrite lookup_insert_ne).
  all: try (intros Q ?; unfold page_of; simpl; by rewrite lookup_insert_ne).
  all: intros f ?; unfold entry_of; simpl;
    by rewrite lookup_insert_eq, E, lookup_insert_ne.
Qed.

Lemma keeps_print P line : keeps P (print line).
Proof. intros w w' res H. unfold print in H. by simplify_eq. Qed.

Lemma keeps_write_root_page P text : keeps P (write_root_page text).
Proof.
  intros w w' res. unfold write_root_page.
  destruct (simple w !! "index.html") as [[?|d]|] eqn:E; intros H;
    simplify_eq; try apply frame_refl.
  all: split_and!; simpl.
  all: try (intros name ??; by rewrite lookup_insert_ne).
  all: try (intros f ?; unfold entry_of; simpl;
            destruct (decide (P = "index.html")) as [->|];
            [by rewrite lookup_insert_eq, E
            |by rewrite lookup_insert_ne]).
  all: intros Q ?; unfold page_of; simpl;
    destruct (decide (Q = "index.html")) as [->|];
    [by rewrite lookup_insert_eq, E|by rewrite lookup_insert_ne].
Qed.

Lemma keeps_update_root_index P : keeps P update_root_index.
Proof.
  intros w w' res. unfold update_root_index.
  apply keeps_bind; [apply keeps_write_root_page|].
  intros _. apply keeps_print.
Qed.

Lemma keeps_update_index P v c u r : keeps P (update_index P v c u r).
Proof.
  unfold update_index.
  apply keeps_bind; [apply keeps_mkdir|intros _].
  apply keeps_bind; [apply keeps_load|intros vs].
  apply keeps_bind; [apply keeps_write_package_page|intros _].
  apply keeps_bind; [apply keeps_print|intros _].
  apply keeps_update_root_index.
Qed.

End Frame.

(** ** Supporting lemmas *)

Module Support.
Import Str StrFacts SortFacts MergeFacts Run.

(** [sub in s] holds exactly when [s] can be split at [sub]. *)
Lemma partition_contains sep s :
  contains sep s = false → partition sep s = None.
Proof.
  induction s as [|c s IH]; cbn [contains partition].
  - by destruct (String.prefix sep EmptyString).
  - destruct (String.prefix sep (String c s)); [done|].
    intros H. by rewrite (IH H).
Qed.

Lemma contains_partition sep s :
  contains sep s = true → ∃ a b, partition sep s = Some (a, b).
Proof.
  induction s as [|c s IH]; cbn [contains partition].
  - destruct (String.prefix sep EmptyString); [eauto|done].
  - destruct (String.prefix sep (String c s)); [eauto|].
    intros H. destruct (IH H) as (a & b & ->). eauto.
Qed.

(** Where the link text does not end in [.tar.gz] the code computes the
    version the specification describes. *)
Lemma version_of_link_text_plain text :
  endswith text ".tar.gz" = false →
  version_of_link_text text = Ok (spec_version_of_link_text text).
Proof.
  intros He. unfold version_of_link_text, spec_version_of_link_text,
    strip_suffix, split1.
  rewrite He. destruct (contains "-" text) eqn:Ec.
  - by destruct (contains_partition _ _ Ec) as (a & b & ->).
  - by rewrite (partition_contains _ _ Ec).
Qed.

(** What a returning run leaves on the package page. *)
Lemma update_index_page P v c u r w w' :
  update_index P v c u r w = (w', Ok ()) →
  ∃ vs, load_existing_versions P w = (w, Ok vs) ∧
        page_of w' P
        = Some (create_package_index_html P
                  (merge_version vs (mkVersion v c u r))).
Proof.
  intros H. apply update_index_ok in H as (d & vs & _ & Hload & H).
  cbv zeta in H. destruct H as (HP & _ & Hw').
  exists vs. split; [done|]. unfold page_of. rewrite Hw'.
  rewrite lookup_insert_ne by done.
  by rewrite lookup_insert_eq, lookup_insert_eq.
Qed.

(** In a sorted list, an element that may not follow another precedes it. *)
Lemma sorted_before {A} (R : relation A) (l : list A) a b :
  StronglySorted R l → a ∈ l → b ∈ l → a ≠ b → ¬ R b a →
  ∃ l1 l2 l3, l = l1 ++ a :: l2 ++ b :: l3.
Proof.
  intros Hs Ha Hb Hab HR.
  induction Hs as [|x l Hs IH Hx]; [by apply elem_of_nil in Ha|].
  apply elem_of_cons in Ha as [->|Ha]; apply elem_of_cons in Hb as [->|Hb].
  - done.
  - apply list_elem_of_split in Hb as (l2 & l3 & ->). by exists [], l2, l3.
  - rewrite Forall_forall in Hx. destruct HR. by apply Hx.
  - destruct (IH Ha Hb) as (l1 & l2 & l3 & ->). by exists (x :: l1), l2, l3.
Qed.




(** The names [update_root_index] collects are the directories of
    [simple/] other than [.git]. *)
Lemma elem_of_listed_packages (s : gmap string node) name :
  name ∈ listed_packages s ↔
  (∃ d, s !! name = Some (NDir d)) ∧ name ≠ ".git".
Proof.
  unfold listed_packages, iterdir. rewrite list_elem_of_fmap. split.
  - intros ([n x] & -> & Hin). apply list_elem_of_filter in Hin as [[Hd Hg] Hin].
    apply elem_of_map_to_list in Hin. simpl in *.
    destruct x as [?|d]; [done|]. eauto.
  - intros [[d Hd] Hg]. exists (name, NDir d). split; [done|].
    apply list_elem_of_filter. split; [done|]. by apply elem_of_map_to_list.
Qed.

Lemma NoDup_listed_packages (s : gmap string node) :
  NoDup (listed_packages s).
Proof.
  unfold listed_packages, iterdir.
  eapply sublist_NoDup; [apply (NoDup_fst_map_to_list s)|].
  apply fmap_sublist, sublist_filter.
Qed.

(** Writing the root page does not change which names are listed. *)
Lemma listed_packages_root_written (s : gmap string node) text :
  (∀ dd, s !! "index.html" ≠ Some (NDir dd)) →
  listed_packages (<["index.html" := NFile text]> s) ≡ₚ listed_packages s.
Proof.
  intros Hroot. apply NoDup_Permutation; try apply NoDup_listed_packages.
  intros name. rewrite !elem_of_listed_packages.
  destruct (decide (name = "index.html")) as [->|Hne].
  - rewrite lookup_insert_eq.
    split; intros [[dd Hdd] _]; [done|by destruct (Hroot dd)].
  - by rewrite (lookup_insert_ne _ "index.html" name).
Qed.

Lemma create_root_index_html_perm l1 l2 :
  l1 ≡ₚ l2 → create_root_index_html l1 = create_root_index_html l2.
Proof.
  intros Hp. unfold create_root_index_html.
  by rewrite (sorted_order_independent l1 l2 Hp).
Qed.

Lemma mkdir_dir P w d :
  name_error P = None →
  simple w !! P = Some (NDir d) → mkdir P w = (w, Ok ()).
Proof. intros En E. unfold mkdir. by rewrite En, E. Qed.

Lemma write_package_page_dir P text w d :
  simple w !! P = Some (NDir d) → d !! "index.html" ≠ Some IDir →
  write_package_page P text w
  = (mkWorld (<[P := NDir (<["index.html" := IFile text]> d)]> (simple w))
       (stdout w), Ok ()).
Proof.
  intros E Hd. unfold write_package_page. rewrite E.
  by destruct (d !! "index.html") as [[?|]|].
Qed.

Lemma update_root_index_file w :
  (∀ dd, simple w !! "index.html" ≠ Some (NDir dd)) →
  ∃ w', update_root_index w = (w', Ok ()) ∧
        simple w'
        = <["index.html" :=
              NFile (create_root_index_html (listed_packages (simple w)))]>
            (simple w).
Proof.
  intros Hroot. unfold update_root_index, mbind, M_bind, write_root_page.
  destruct (simple w !! "index.html") as [[?|dd]|] eqn:E;
    [by eexists| by destruct (Hroot dd) | by eexists].
Qed.

Lemma wf_merge_version vs new :
  Forall wf_record vs → wf_record new →
  Forall wf_record (merge_version vs new).
Proof.
  intros Hvs Hnew. rewrite merge_version_perm.
  apply Forall_app. split; [|by constructor].
  apply Forall_forall. intros x [_ Hx]%list_elem_of_filter.
  rewrite Forall_forall in Hvs. by apply Hvs.
Qed.

(** For a package name and records that survive a render and a parse, a
    second run of [update_index] with the same tuple returns and leaves
    [simple/] as the first run left it. *)
Lemma update_index_again P v c u r w w1 vs :
  wf_package P → wf_record (mkVersion v c u r) → Forall wf_record vs →
  load_existing_versions P w = (w, Ok vs) →
  update_index P v c u r w = (w1, Ok ()) →
  ∃ w2, update_index P v c u r w1 = (w2, Ok ()) ∧ simple w2 = simple w1.
Proof.
  intros HP Hnew Hvs Hload H.
  pose proof (update_index_ok_name _ _ _ _ _ _ _ H) as Hname.
  apply update_index_ok in H as (d & vs0 & _ & Hload0 & H).
  rewrite Hload in Hload0. simplify_eq.
  cbv zeta in H. destruct H as (HPne & Hroot & Hw1).
  set (new := mkVersion v c u r) in *.
  set (html := create_package_index_html P (merge_version vs0 new)) in *.
  set (d' := <["index.html" := IFile html]> d) in *.
  set (s2 := <[P := NDir d']> (simple w)) in *.
  assert (HP1 : simple w1 !! P = Some (NDir d')).
  { rewrite Hw1, lookup_insert_ne by done. apply lookup_insert_eq. }
  assert (Hs2 : ∀ dd, s2 !! "index.html" ≠ Some (NDir dd)).
  { intros dd. unfold s2. rewrite lookup_insert_ne by done. apply Hroot. }
  assert (Hd' : <["index.html" := IFile html]> d' = d').
  { unfold d'. apply insert_insert_eq. }
  unfold update_index, mbind, M_bind.
  rewrite (mkdir_dir _ _ _ Hname HP1), (load_existing_versions_dir _ _ _ HP1).
  unfold dir_versions, d'. rewrite lookup_insert_eq. fold d'.
  unfold html at 1.
  rewrite RoundTrip.read_parse_rendered by (done || by apply wf_merge_version).
  fold new. rewrite merge_version_again. fold html.
  rewrite (write_package_page_dir _ _ _ _ HP1)
    by (unfold d'; by rewrite lookup_insert_eq).
  rewrite Hd', (insert_id (simple w1) P (NDir d')) by done.
  unfold print. cbn [fst snd simple stdout].
  match goal with
  | |- context [update_root_index ?w0] =>
      destruct (update_root_index_file w0) as (w2 & Hrun & Hsimple)
  end.
  { cbn [simple]. intros dd. by rewrite Hw1, lookup_insert_eq. }
  exists w2. split; [exact Hrun|]. rewrite Hsimple. cbn [simple].
  apply insert_id.
  etrans; [rewrite Hw1; apply lookup_insert_eq|].
  do 2 f_equal. apply create_root_index_html_perm.
  rewrite Hw1. symmetry. by apply listed_packages_root_written.
Qed.

(** The page rendered for a package name and records that survive a
    render and a parse is read back as these records. *)
Lemma load_existing_versions_page dir P vs w :
  wf_package P → Forall wf_record vs →
  page_of w dir = Some (create_package_index_html P vs) →
  load_existing_versions dir w = (w, Ok vs).
Proof.
  intros HP Hvs Hpage. unfold page_of in Hpage.
  destruct (simple w !! dir) as [[?|d]|] eqn:Ed; try done.
  rewrite (load_existing_versions_dir _ _ _ Ed). unfold dir_versions.
  destruct (d !! "index.html") as [[content|]|]; try done.
  simplify_eq. by rewrite RoundTrip.read_parse_rendered.
Qed.

(** The anchor lines the code writes are those the specification
    describes. *)
Lemma root_anchor_spec name :
  root_anchor name = spec_line (spec_root_link name).
Proof.
  unfold root_anchor, spec_line, spec_root_link. by rewrite !app_assoc.
Qed.

Lemma package_anchor_spec P x :
  package_anchor P x = spec_line (spec_package_link P x).
Proof.
  unfold package_anchor, link_url, tarball_url, link_text, spec_line,
    spec_package_link.
  by rewrite !app_assoc.
Qed.

Lemma fmap_root_anchor_spec (l : list string) :
  root_anchor <$> l = (fun name => spec_line (spec_root_link name)) <$> l.
Proof.
  induction l as [|x l IH]; [done|].
  by rewrite !fmap_cons, IH, root_anchor_spec.
Qed.

Lemma fmap_package_anchor_spec P (l : list VersionRecord) :
  package_anchor P <$> l
  = (fun x => spec_line (spec_package_link P x)) <$> l.
Proof.
  induction l as [|x l IH]; [done|].
  by rewrite !fmap_cons, IH, package_anchor_spec.
Qed.

Lemma name_error_cases P e :
  name_error P = Some e → e = ValueError ∨ e = OSError.
Proof.
  unfold name_error. repeat case_match; intros; simplify_eq; auto.
Qed.

Ltac solve_lacks := vm_compute; repeat split; discriminate.

Lemma wf_package_eprint : wf_package "eprint".
Proof. unfold wf_package. split_and!; solve_lacks. Defined.

Lemma wf_record_eprint_001 : wf_record eprint_001.
Proof. split; try solve_lacks; done. Defined.

Lemma wf_record_eprint_002 : wf_record eprint_002.
Proof. split; try solve_lacks; done. Defined.

Lemma path_component_eprint : path_component "eprint".
Proof. unfold path_component. split_and!; [solve_lacks|done..]. Defined.

Lemma eprint_load :
  load_existing_versions "eprint" eprint_world = (eprint_world, Ok [eprint_002]).
Proof. by vm_compute. Defined.

Lemma eprint_run :
  update_index "eprint" "0.0.10" "0123abc" "jakeogh" "eprint" eprint_world
  = (eprint_world', Ok ()).
Proof. by vm_compute. Defined.


End Support.

(** ** The properties of the specification *)

Import Str StrFacts SortFacts MergeFacts Run Support.

(** C1 (as amended).  Take a package name free of [-], of the double quote,
    of [<] and of the carriage return, and records whose fields are free of
    the carriage return, whose forge user and repository are non-empty and
    free of [/], whose commit is non-empty and free of the double quote and
    of [#], and whose version is free of the double quote and of [<] and
    does not end in [.tar.gz].  When a directory holds the page
    [create_package_index_html] renders for them, [load_existing_versions]
    returns exactly these records, in the order rendered: the same list,
    hence the same set. *)
Theorem load_existing_versions_rendered dir P vs w :
  wf_package P → Forall wf_record vs →
  page_of w dir = Some (create_package_index_html P vs) →
  load_existing_versions dir w = (w, Ok vs).
Proof.
  intros HP Hvs Hpage. unfold page_of in Hpage.
  destruct (simple w !! dir) as [[?|d]|] eqn:Ed; try done.
  rewrite (load_existing_versions_dir _ _ _ Ed). unfold dir_versions.
  destruct (d !! "index.html") as [[content|]|]; try done.
  simplify_eq. by rewrite RoundTrip.read_parse_rendered.
Qed.

Lemma load_existing_versions_rendered_witness :
  load_existing_versions "eprint"
    (world_with_page "eprint"
       (create_package_index_html "eprint" [eprint_001; eprint_002]))
  = (world_with_page "eprint"
       (create_package_index_html "eprint" [eprint_001; eprint_002]),
     Ok [eprint_001; eprint_002]).
Proof.
  apply (load_existing_versions_rendered "eprint" "eprint").
  - exact wf_package_eprint.
  - constructor; [exact wf_record_eprint_001|].
    constructor; [exact wf_record_eprint_002|constructor].
  - reflexivity.
Defined.

(** C1 as stated fails.  None of the five versions below holds a [-], yet
    what [load_existing_versions] reads from the rendered page is not the
    record rendered: under the package name [my-pkg] the version comes back
    as [pkg-1.0]; a version that ends in [.tar.gz] comes back without it;
    with a [<] in the version, or an empty forge user, no record comes
    back; and a carriage return in the version comes back as a line
    feed. *)
Lemma roundtrip_counterexample :
  let read P v :=
    (load_existing_versions P
       (world_with_page P (create_package_index_html P [v]))).2 in
  let hyphen := mkVersion "1.0" "abc123" "jakeogh" "my-pkg" in
  let suffix := mkVersion "1.0.tar.gz" "abc123" "jakeogh" "pkg" in
  let angle := mkVersion "1<2" "abc123" "jakeogh" "pkg" in
  let nouser := mkVersion "1.0" "abc123" EmptyString "pkg" in
  let ret := mkVersion (String cr "1.0") "abc123" "jakeogh" "pkg" in
  (Forall (fun v => lacks "-"%char (version v))
     [hyphen; suffix; angle; nouser; ret]) ∧
  (read "my-pkg" hyphen
   = Ok [mkVersion "pkg-1.0" "abc123" "jakeogh" "my-pkg"]) ∧
  (read "pkg" suffix = Ok [mkVersion "1.0" "abc123" "jakeogh" "pkg"]) ∧
  (read "pkg" angle = Ok []) ∧
  (read "pkg" nouser = Ok []) ∧
  (read "pkg" ret
   = Ok [mkVersion (String lf "1.0") "abc123" "jakeogh" "pkg"]).
Proof.
  cbv zeta. split_and!.
  - repeat constructor; solve_lacks.
  - by vm_compute.
  - by vm_compute.
  - by vm_compute.
  - by vm_compute.
  - by vm_compute.
Qed.

(** C2 (the code departs from it).  The link text [foo.tar.gz] holds no [-];
    the specification makes [foo] its version.  The code takes element 1 of
    a one-element list and raises [IndexError], and so does
    [load_existing_versions] on a page with such an anchor.  The code also
    removes every [.tar.gz] of the text, where the specification strips the
    trailing one. *)
Theorem version_of_link_text_suffix_no_dash :
  spec_version_of_link_text "foo.tar.gz" = "foo" ∧
  version_of_link_text "foo.tar.gz" = Raise IndexError ∧
  load_existing_versions "foo" (world_with_page "foo" legacy_page)
  = (world_with_page "foo" legacy_page, Raise IndexError) ∧
  spec_version_of_link_text "pkg-1.tar.gz.x.tar.gz" = "1.tar.gz.x" ∧
  version_of_link_text "pkg-1.tar.gz.x.tar.gz" = Ok "1.x".
Proof. split_and!; by vm_compute. Qed.

(** C3 (as amended).  Take a run of [update_index] on a package name that
    is a single path component, which returns, and whose loaded records
    held at most one record per version.  The records it renders (the merge
    of the loaded records with the incoming one) still do, and exactly one
    of them, the incoming record, has the incoming version.  When moreover
    the package name, the loaded records and the incoming record survive a
    render and a parse, the page it leaves reads back as these records, so
    that the page holds at most one record per version as
    [load_existing_versions] sees it. *)
Theorem update_index_one_record_per_version P v c u r w w' vs :
  path_component P →
  load_existing_versions P w = (w, Ok vs) →
  NoDup (version <$> vs) →
  update_index P v c u r w = (w', Ok ()) →
  let new := mkVersion v c u r in
  let vs' := merge_version vs new in
  page_of w' P = Some (create_package_index_html P vs') ∧
  NoDup (version <$> vs') ∧
  filter (fun x => version x = v) vs' = [new] ∧
  (wf_package P → Forall wf_record vs → wf_record new →
   load_existing_versions P w' = (w', Ok vs')).
Proof.
  intros _ Hload Hnd H.
  apply update_index_page in H as (vs0 & Hload0 & Hpage).
  rewrite Hload in Hload0. simplify_eq. cbv zeta. split_and!.
  - exact Hpage.
  - by apply merge_version_nodup.
  - apply (merge_version_new vs0 (mkVersion v c u r)).
  - intros HP Hvs Hnew.
    apply (load_existing_versions_page P P); [done| |done].
    by apply wf_merge_version.
Qed.

Lemma update_index_one_record_per_version_witness :
  let vs' := merge_version [eprint_002] eprint_0010 in
  page_of eprint_world' "eprint"
  = Some (create_package_index_html "eprint" vs') ∧
  NoDup (version <$> vs') ∧
  filter (fun x => version x = "0.0.10") vs' = [eprint_0010] ∧
  (wf_package "eprint" → Forall wf_record [eprint_002] →
   wf_record eprint_0010 →
   load_existing_versions "eprint" eprint_world' = (eprint_world', Ok vs')).
Proof.
  apply (update_index_one_record_per_version
           "eprint" "0.0.10" "0123abc" "jakeogh" "eprint"
           eprint_world eprint_world' [eprint_002]).
  - exact path_component_eprint.
  - exact eprint_load.
  - apply NoDup_singleton.
  - exact eprint_run.
Defined.

(** C3 as stated fails on the page.  The index holds version [1] of [foo];
    the incoming version is [1.tar.gz].  The two versions differ, so both
    records are rendered; read back, the link text [foo-1.tar.gz] gives the
    version [1], and the page holds two records of version [1]. *)
Lemma one_record_per_version_counterexample :
  let run := update_index "foo" "1.tar.gz" "def456" "jakeogh" "foo"
               foo_world in
  load_existing_versions "foo" foo_world = (foo_world, Ok [foo_1]) ∧
  run.2 = Ok () ∧
  page_of run.1 "foo"
  = Some (create_package_index_html "foo"
            [foo_1; mkVersion "1.tar.gz" "def456" "jakeogh" "foo"]) ∧
  load_existing_versions "foo" run.1
  = (run.1, Ok [foo_1; mkVersion "1" "def456" "jakeogh" "foo"]).
Proof. cbv zeta. split_and!; by vm_compute. Qed.

(** C4.  When a run of [update_index] on a package name that is a single
    path component returns, the package page is the head, one anchor line
    per record and the tail.  The records are those loaded, less the ones
    of the incoming version, and the incoming one; they ascend in the plain
    lexicographic order of their version strings ([String.le], by character
    code).  The order is not the numeric one: a record of version [0.0.10]
    comes before a record of version [0.0.2]. *)
Theorem update_index_page_sorted P v c u r w w' :
  path_component P →
  update_index P v c u r w = (w', Ok ()) →
  ∃ vs vs', load_existing_versions P w = (w, Ok vs) ∧
    vs' ≡ₚ filter (fun x => version x ≠ v) vs ++ [mkVersion v c u r] ∧
    page_of w' P
    = Some (package_page_head P +:+
            concat_str
              ((fun x => spec_line (spec_package_link P x)) <$> vs') +:+
            page_tail) ∧
    StronglySorted (fun a b => String.le (version a) (version b)) vs' ∧
    ∀ a b, a ∈ vs' → b ∈ vs' → version a = "0.0.10" → version b = "0.0.2" →
           ∃ l1 l2 l3, vs' = l1 ++ a :: l2 ++ b :: l3.
Proof.
  intros _ H. apply update_index_page in H as (vs & Hload & Hpage).
  exists vs, (merge_version vs (mkVersion v c u r)).
  split; [done|]. split_and!.
  - apply (merge_version_perm vs (mkVersion v c u r)).
  - by rewrite Hpage, RoundTrip.create_package_index_html_eq,
      fmap_package_anchor_spec.
  - apply merge_version_sorted.
  - intros a b Ha Hb Eva Evb.
    apply (sorted_before (Sort.key_le version)); try done.
    + apply merge_version_sorted.
    + intros ->. rewrite Eva in Evb. discriminate Evb.
    + unfold Sort.key_le. rewrite Eva, Evb. by vm_compute.
Qed.

Lemma update_index_page_sorted_witness :
  ∃ vs vs',
    load_existing_versions "eprint" eprint_world = (eprint_world, Ok vs) ∧
    vs' ≡ₚ filter (fun x => version x ≠ "0.0.10") vs ++ [eprint_0010] ∧
    page_of eprint_world' "eprint"
    = Some (package_page_head "eprint" +:+
            concat_str
              ((fun x => spec_line (spec_package_link "eprint" x)) <$> vs')
            +:+ page_tail) ∧
    StronglySorted (fun a b => String.le (version a) (version b)) vs' ∧
    ∀ a b, a ∈ vs' → b ∈ vs' → version a = "0.0.10" → version b = "0.0.2" →
           ∃ l1 l2 l3, vs' = l1 ++ a :: l2 ++ b :: l3.
Proof.
  apply (update_index_page_sorted
           "eprint" "0.0.10" "0123abc" "jakeogh" "eprint" eprint_world).
  - exact path_component_eprint.
  - exact eprint_run.
Defined.




(** C6 (the code departs from it).  Two runs in succession with the same
    tuple for the package [my-pkg], starting from an empty index.  Both
    return.  After the first the page holds the one record; the second reads
    that record back under the version [pkg-1.0], keeps it as a record of
    another version and renders two records. *)
Theorem update_index_twice_hyphen :
  let new := mkVersion "1.0" "abc123" "jakeogh" "my-pkg" in
  let run1 := update_index "my-pkg" "1.0" "abc123" "jakeogh" "my-pkg"
                empty_world in
  let run2 := update_index "my-pkg" "1.0" "abc123" "jakeogh" "my-pkg"
                run1.1 in
  run1.2 = Ok () ∧ run2.2 = Ok () ∧
  page_of run1.1 "my-pkg" = Some (create_package_index_html "my-pkg" [new]) ∧
  load_existing_versions "my-pkg" run1.1
  = (run1.1, Ok [mkVersion "pkg-1.0" "abc123" "jakeogh" "my-pkg"]) ∧
  page_of run2.1 "my-pkg"
  = Some (create_package_index_html "my-pkg"
            [new; mkVersion "pkg-1.0" "abc123" "jakeogh" "my-pkg"]).
Proof. cbv zeta. split_and!; by vm_compute. Qed.

(** C7 (as amended).  When a run of [update_index] on a package name that
    is a single path component returns, the root page is the head, one
    anchor line per listed name and the tail; the anchor of a name links to
    [{name}/] and shows the name; the listed names ascend in [String.le],
    none is repeated, and a name is listed exactly when it is a directory of
    [simple/] other than [.git] in the world the run leaves. *)
Theorem update_index_root_complete P v c u r w w' :
  path_component P →
  update_index P v c u r w = (w', Ok ()) →
  ∃ packages,
    root_page_of w'
    = Some (root_page_head +:+
            concat_str
              ((fun name => spec_line (spec_root_link name)) <$> packages)
            +:+ page_tail) ∧
    StronglySorted String.le packages ∧
    NoDup packages ∧
    ∀ name, name ∈ packages ↔
            (∃ d, simple w' !! name = Some (NDir d)) ∧ name ≠ ".git".
Proof.
  intros _ H. apply update_index_ok in H as (d & vs & _ & _ & H).
  cbv zeta in H. destruct H as (HP & Hroot & Hw').
  set (s2 := <[P := _]> (simple w)) in *.
  exists (Sort.sorted (listed_packages s2)). split_and!.
  - unfold root_page_of. rewrite Hw', lookup_insert_eq.
    by rewrite RoundTrip.create_root_index_html_eq, fmap_root_anchor_spec.
  - apply (sort_sorted id).
  - unfold Sort.sorted. rewrite sort_perm. apply NoDup_listed_packages.
  - intros name. unfold Sort.sorted. rewrite sort_perm.
    rewrite elem_of_listed_packages, Hw'.
    destruct (decide (name = "index.html")) as [->|Hne].
    + rewrite lookup_insert_eq. unfold s2.
      rewrite lookup_insert_ne by done.
      split; intros [[dd Hdd] _]; [by destruct (Hroot dd)|done].
    + by rewrite (lookup_insert_ne _ "index.html" name).
Qed.

Lemma update_index_root_complete_witness :
  ∃ packages,
    root_page_of eprint_world'
    = Some (root_page_head +:+
            concat_str
              ((fun name => spec_line (spec_root_link name)) <$> packages)
            +:+ page_tail) ∧
    StronglySorted String.le packages ∧
    NoDup packages ∧
    ∀ name, name ∈ packages ↔
            (∃ d, simple eprint_world' !! name = Some (NDir d)) ∧
            name ≠ ".git".
Proof.
  apply (update_index_root_complete
           "eprint" "0.0.10" "0123abc" "jakeogh" "eprint" eprint_world).
  - exact path_component_eprint.
  - exact eprint_run.
Defined.

(** C7 as stated fails.  Line 158 leaves out the one name [.git]; the
    directory of another version-control tool is listed as a package.  The
    index holds [eprint] and a directory [.hg]: after a run the root page
    links to [.hg/] before [eprint/]. *)
Lemma root_lists_metadata_counterexample :
  let run := update_index "eprint" "0.0.10" "0123abc" "jakeogh" "eprint"
               hg_world in
  run.2 = Ok () ∧
  root_page_of run.1
  = Some (root_page_head +:+
          spec_line (spec_root_link ".hg") +:+
          spec_line (spec_root_link "eprint") +:+ page_tail).
Proof. cbv zeta. split; by vm_compute. Qed.



(** C9 (the code departs from it).  A repository whose [git] and Index
    Writer processes never exit.  The remote lookup is given 5 seconds and
    its timeout is handled as a failure.  The commit lookup has no timeout:
    it blocks, and so does the scan.  For a repository whose commit lookup
    answers, the loop in force runs the Index Writer without a timeout and
    blocks, where the loop of the first definition gives it 10 seconds,
    reports the timeout and completes. *)
Theorem regenerate_index_blocks :
  get_github_info hung_repo [] = ([WarnRemoteTimeout "eprint"], Returns None) ∧
  get_git_commit hung_repo [] = ([], Blocks) ∧
  find_repos_with_pip_index (Some [hung_repo]) [] = ([], Blocks) ∧
  regenerate_index true (Some [hung_writer_repo]) []
  = ([Found "eprint" "0.0.1" "abc123de"; Adding "eprint" "0.0.1";
      WarnRemoteTimeout "eprint"; WarnDefaults "eprint"], Blocks) ∧
  regenerate_index_first true (Some [hung_writer_repo]) []
  = ([Found "eprint" "0.0.1" "abc123de"; Adding "eprint" "0.0.1";
      WarnRemoteTimeout "eprint"; WarnDefaults "eprint";
      WriterTimeout "eprint"; Complete], Returns ()).
Proof. split_and!; by vm_compute. Qed.

(** C10.  Whatever a run of [update_index] on the package name [P] does,
    return or raise, it leaves as they were every entry of [simple/] other
    than [P] and [index.html], every entry of [simple/P] other than its
    [index.html], and the page of every package other than [P].  ([P] is a
    single path component, as a package name is: the model of the files
    reads it as the name of an entry of [simple/].) *)
Theorem update_index_frame P v c u r w w' res :
  path_component P →
  update_index P v c u r w = (w', res) →
  (∀ name, name ≠ P → name ≠ "index.html" →
           simple w' !! name = simple w !! name) ∧
  (∀ f, f ≠ "index.html" → entry_of w' P f = entry_of w P f) ∧
  (∀ Q, Q ≠ P → page_of w' Q = page_of w Q).
Proof. intros _ H. by apply (Frame.keeps_update_index P v c u r w w' res). Qed.

Lemma update_index_frame_witness :
  (∀ name, name ≠ "eprint" → name ≠ "index.html" →
           simple eprint_world' !! name = simple eprint_world !! name) ∧
  (∀ f, f ≠ "index.html" →
        entry_of eprint_world' "eprint" f = entry_of eprint_world "eprint" f) ∧
  (∀ Q, Q ≠ "eprint" → page_of eprint_world' Q = page_of eprint_world Q).
Proof.
  apply (update_index_frame
           "eprint" "0.0.10" "0123abc" "jakeogh" "eprint"
           eprint_world eprint_world' (Ok ())).
  - exact path_component_eprint.
  - exact eprint_run.
Defined.

(** ** Further properties: what a parse can return *)

Module ParseFacts.
Import Str StrFacts Re ReFacts Run.

Lemma all_ok_lacks1 c s : all_ok (ANot [c]) s → lacks c s.
Proof.
  induction s as [|d s IH]; [done|]. intros [Hd Hs]. split; [|auto].
  unfold atom_ok, mem in Hd. simpl in Hd.
  destruct (Ascii.eqb_spec d c); [done|done].
Qed.

Lemma all_ok_lacks2 c1 c2 s :
  all_ok (ANot [c1; c2]) s → lacks c1 s ∧ lacks c2 s.
Proof.
  induction s as [|d s IH]; [done|]. intros [Hd Hs].
  destruct (IH Hs) as [H1 H2].
  unfold atom_ok, mem in Hd. simpl in Hd.
  destruct (Ascii.eqb_spec d c1); [done|].
  destruct (Ascii.eqb_spec d c2); [done|]. by repeat split.
Qed.

Section Inversion.
Context {R : Type}.

(** A successful greedy [+] consumed a non-empty run of accepted
    characters, and the continuation accepted what follows it. *)
Lemma plus_greedy_inv a s (k : string → option R) res :
  plus_greedy a s k = Some res →
  ∃ x s', s = x +:+ s' ∧ x ≠ EmptyString ∧ all_ok a x ∧ k s' = Some res.
Proof.
  revert res. induction s as [|c s IH]; intros res; simpl; [done|].
  destruct (atom_ok a c) eqn:Ec; [|done].
  destruct (plus_greedy a s k) as [res'|] eqn:E.
  - intros [= <-]. destruct (IH _ eq_refl) as (x & s' & -> & _ & Hx & Hk).
    exists (String c x), s'. by repeat split.
  - intros Hk. exists (String c EmptyString), s. by repeat split.
Qed.

Lemma rmatch_group_plus_inv n a s m (k : string → caps → option R) res :
  rmatch (RGroup n (RPlus a)) s m k = Some res →
  ∃ x s', s = x +:+ s' ∧ x ≠ EmptyString ∧ all_ok a x ∧
          k s' (set_group n x m) = Some res.
Proof.
  rewrite rmatch_group, rmatch_plus. intros H.
  apply plus_greedy_inv in H as (x & s' & -> & Hx & Hok & Hk).
  rewrite consumed_app in Hk. by exists x, s'.
Qed.

(** An optional part without groups leaves the captures as they were. *)
Lemma rmatch_opt_lit_plus_inv l a s m (k : string → caps → option R) res :
  rmatch (ROpt (RCat (lit l) (RPlus a))) s m k = Some res →
  ∃ s', k s' m = Some res.
Proof.
  simpl. destruct (rmatch (lit l) s m _) as [res'|] eqn:E.
  - intros [= <-]. apply rmatch_lit_inv in E as (u' & -> & E).
    apply plus_greedy_inv in E as (x & s' & -> & _ & _ & Hk). by exists s'.
  - intros Hk. by exists s.
Qed.
End Inversion.

(** The groups of any match of [anchor_pattern]. *)
Lemma match_at_groups u m rest :
  match_at anchor_pattern u = Some (m, rest) →
  ∃ user repo commit text,
    m = set_group 4 text
          (set_group 3 commit (set_group 2 repo (set_group 1 user no_caps))) ∧
    user ≠ EmptyString ∧ lacks "/"%char user ∧
    repo ≠ EmptyString ∧ lacks "/"%char repo ∧
    commit ≠ EmptyString ∧ lacks dqc commit ∧ lacks "#"%char commit ∧
    text ≠ EmptyString ∧ lacks "<"%char text.
Proof.
  unfold match_at, anchor_pattern. rewrite rmatch_cat. intros H.
  apply rmatch_lit_inv in H as (u1 & -> & H).
  rewrite rmatch_cat in H.
  apply rmatch_group_plus_inv in H as (user & u2 & -> & Hu & Huok & H).
  rewrite rmatch_cat in H. apply rmatch_lit_inv in H as (u3 & -> & H).
  rewrite rmatch_cat in H.
  apply rmatch_group_plus_inv in H as (repo & u4 & -> & Hr & Hrok & H).
  rewrite rmatch_cat in H. apply rmatch_lit_inv in H as (u5 & -> & H).
  rewrite rmatch_cat in H.
  apply rmatch_group_plus_inv in H as (commit & u6 & -> & Hc & Hcok & H).
  rewrite rmatch_cat in H. apply rmatch_lit_inv in H as (u7 & -> & H).
  rewrite rmatch_cat in H. apply rmatch_opt_lit_plus_inv in H as (u8 & H).
  rewrite rmatch_cat in H. apply rmatch_lit_inv in H as (u9 & -> & H).
  rewrite rmatch_cat in H.
  apply rmatch_group_plus_inv in H as (text & u10 & -> & Ht & Htok & H).
  apply rmatch_lit_inv in H as (u11 & -> & H).
  injection H as <- <-.
  apply all_ok_lacks2 in Hcok as [Hc1 Hc2].
  exists user, repo, commit, text.
  split_and!; try done; by apply all_ok_lacks1.
Qed.

Lemma finditer_from_Forall (P : caps → Prop) r s skip :
  (∀ u m rest, match_at r u = Some (m, rest) → P m) →
  Forall P (finditer_from skip r s).
Proof.
  intros HP. revert skip. induction s as [|c s IH]; intros skip; simpl.
  - constructor.
  - destruct skip; [|apply IH].
    destruct (match_at r (String c s)) as [[m rest]|] eqn:E; [|apply IH].
    constructor; [by eapply HP|apply IH].
Qed.

Lemma record_of_match_ok m v :
  record_of_match m = Ok v →
  github_user v = group m 1 ∧ github_repo v = group m 2 ∧
  commit_hash v = group m 3.
Proof.
  unfold record_of_match.
  destruct (version_of_link_text (group m 4)); [|done].
  by intros [= <-].
Qed.

Lemma collect_versions_Forall (P : VersionRecord → Prop) ms acc vs :
  (∀ m v, m ∈ ms → record_of_match m = Ok v → P v) →
  Forall P acc →
  collect_versions ms acc = Ok vs → Forall P vs.
Proof.
  revert acc. induction ms as [|m ms IH]; intros acc Hms Hacc; simpl.
  - by intros [= <-].
  - destruct (record_of_match m) as [v|e] eqn:E; [|done].
    apply IH.
    + intros m' v' Hin. apply Hms. by right.
    + apply Forall_app. split; [done|]. constructor; [|constructor].
      eapply Hms; [by left|done].
Qed.

Lemma parse_versions_ok content vs :
  parse_versions content = Ok vs → Forall parsed_ok vs.
Proof.
  unfold parse_versions. apply collect_versions_Forall; [|constructor].
  intros m v Hin Hv.
  assert (Hm : ∃ u rest, match_at anchor_pattern u = Some (m, rest)).
  { pose proof (finditer_from_Forall
      (fun m => ∃ u rest, match_at anchor_pattern u = Some (m, rest))
      anchor_pattern content 0) as HF.
    rewrite Forall_forall in HF. apply HF; [|done]. eauto. }
  destruct Hm as (u & rest & Hm).
  apply match_at_groups in Hm
    as (user & repo & commit & text & -> & ? & ? & ? & ? & ? & ? & ? & _).
  apply record_of_match_ok in Hv as (Eu & Er & Ec).
  unfold parsed_ok. rewrite Eu, Er, Ec. by split_and!.
Qed.

End ParseFacts.

(** ** Further properties: the outcome of a run of [update_index] *)

Module Outcome.
Import Str StrFacts SortFacts MergeFacts Run Support.

Lemma dir_versions_empty : dir_versions ∅ = Ok [].
Proof. unfold dir_versions. by rewrite lookup_empty. Qed.

Lemma dir_versions_not_dir d vs :
  dir_versions d = Ok vs → d !! "index.html" ≠ Some IDir.
Proof. unfold dir_versions. by destruct (d !! "index.html") as [[?|]|]. Qed.

(** The only exception a parse raises is [IndexError]. *)
Lemma collect_versions_raise ms acc e :
  collect_versions ms acc = Raise e → e = IndexError.
Proof.
  revert acc. induction ms as [|m ms IH]; intros acc; simpl; [done|].
  destruct (record_of_match m) as [v|e'] eqn:E; [apply IH|].
  intros [= <-]. unfold record_of_match in E.
  destruct (version_of_link_text (Re.group m 4)) as [?|e''] eqn:Ev; [done|].
  injection E as <-. unfold version_of_link_text, index1 in Ev.
  repeat case_match; by simplify_eq.
Qed.

Lemma dir_versions_raise d e :
  dir_versions d = Raise e → e = IsADirectoryError ∨ e = IndexError.
Proof.
  unfold dir_versions. destruct (d !! "index.html") as [[text|]|]; try done.
  - intros H. right. by eapply collect_versions_raise.
  - intros [= <-]. by left.
Qed.

Lemma load_existing_versions_eq P w :
  load_existing_versions P w = (w, dir_versions (package_dir_of (simple w) P)).
Proof.
  unfold load_existing_versions, package_dir_of, dir_versions.
  destruct (simple w !! P) as [[?|d]|]; try by rewrite lookup_empty.
  by destruct (d !! "index.html") as [[?|]|].
Qed.

(** The steps before the root page: when [simple/P] is not a file and its
    page can be read, the run goes on to [update_root_index] in the world
    where the page of [P] has been rewritten. *)
Lemma update_index_upto_root P v c u r w vs :
  name_error P = None →
  (∀ text, simple w !! P ≠ Some (NFile text)) →
  dir_versions (package_dir_of (simple w) P) = Ok vs →
  let versions := merge_version vs (mkVersion v c u r) in
  update_index P v c u r w
  = update_root_index
      (mkWorld (with_page (simple w) P versions)
               (stdout w ++ [package_line P versions])).
Proof.
  intros Hname Hfile Hvs. cbv zeta. unfold update_index, mbind, M_bind.
  unfold with_page, package_dir_of in *.
  destruct (simple w !! P) as [[text|d]|] eqn:EP.
  - by destruct (Hfile text).
  - rewrite (mkdir_dir _ _ _ Hname EP), (load_existing_versions_dir _ _ _ EP),
      Hvs.
    rewrite (write_package_page_dir _ _ _ _ EP)
      by by eapply dir_versions_not_dir.
    done.
  - unfold mkdir. rewrite Hname, EP.
    rewrite (load_existing_versions_dir _ _ ∅) by apply lookup_insert_eq.
    rewrite Hvs.
    rewrite (write_package_page_dir _ _ _ ∅)
      by (apply lookup_insert_eq || by rewrite lookup_empty).
    unfold print. cbn [simple stdout]. by rewrite insert_insert_eq.
Qed.

Lemma update_root_index_run w :
  (∀ d, simple w !! "index.html" ≠ Some (NDir d)) →
  update_root_index w
  = (mkWorld (with_root (simple w)) (stdout w ++ [root_line (simple w)]),
     Ok ()).
Proof.
  intros Hroot. unfold update_root_index, mbind, M_bind, write_root_page.
  destruct (simple w !! "index.html") as [[?|d]|] eqn:E; try done.
  by destruct (Hroot d).
Qed.

Lemma update_root_index_raise w d :
  simple w !! "index.html" = Some (NDir d) →
  update_root_index w = (w, Raise IsADirectoryError).
Proof.
  intros E. unfold update_root_index, mbind, M_bind, write_root_page.
  by rewrite E.
Qed.

Lemma with_page_lookup_ne s P versions name :
  name ≠ P → with_page s P versions !! name = s !! name.
Proof. intros H. unfold with_page. by rewrite lookup_insert_ne. Qed.

End Outcome.

(** ** Further properties of the Index Writer *)

Import Outcome ParseFacts.

(** X1.  Whatever the page holds, every record [load_existing_versions]
    returns has a non-empty forge user and repository free of [/] and a
    non-empty commit free of the double quote and of [#]. *)
Theorem load_existing_versions_parsed_ok P w vs :
  load_existing_versions P w = (w, Ok vs) → Forall parsed_ok vs.
Proof.
  rewrite load_existing_versions_eq. intros [= H]. revert H.
  unfold dir_versions.
  destruct (_ !! "index.html") as [[text|]|]; try done.
  - apply parse_versions_ok.
  - intros [= <-]. constructor.
Qed.

Lemma load_existing_versions_parsed_ok_witness :
  Forall parsed_ok [eprint_002].
Proof.
  apply (load_existing_versions_parsed_ok "eprint" eprint_world).
  exact eprint_load.
Defined.

(** X2.  A page without a double quote holds no anchor the pattern accepts:
    [load_existing_versions] returns the empty list and raises nothing. *)
Theorem load_existing_versions_no_quote P w text :
  page_of w P = Some text → lacks dqc text →
  load_existing_versions P w = (w, Ok []).
Proof.
  intros Hpage Hl. rewrite load_existing_versions_eq. f_equal.
  unfold page_of, package_dir_of, dir_versions in *.
  destruct (simple w !! P) as [[?|d]|]; try done.
  destruct (d !! "index.html") as [[?|]|]; try done. simplify_eq.
  unfold parse_versions.
  by rewrite RoundTrip.finditer_no_quote by by apply lacks_newlines.
Qed.

Lemma load_existing_versions_no_quote_witness :
  load_existing_versions "eprint" (world_with_page "eprint" page_tail)
  = (world_with_page "eprint" page_tail, Ok []).
Proof.
  apply (load_existing_versions_no_quote "eprint" _ page_tail).
  - reflexivity.
  - solve_lacks.
Defined.

(** The runs of [update_index] that return, and the world they leave. *)
Lemma update_index_returns P v c u r w w' :
  update_index P v c u r w = (w', Ok ()) ↔
  writable (simple w) P ∧
  ∃ vs, dir_versions (package_dir_of (simple w) P) = Ok vs ∧
    let versions := merge_version vs (mkVersion v c u r) in
    w' = mkWorld (updated (simple w) P versions)
           ((stdout w ++ [package_line P versions]) ++
            [root_line (with_page (simple w) P versions)]).
Proof.
  assert (Hfwd : ∀ vs, writable (simple w) P →
    dir_versions (package_dir_of (simple w) P) = Ok vs →
    let versions := merge_version vs (mkVersion v c u r) in
    update_index P v c u r w
    = (mkWorld (updated (simple w) P versions)
         ((stdout w ++ [package_line P versions]) ++
          [root_line (with_page (simple w) P versions)]), Ok ())).
  { intros vs (Hname & Hfile & HP & Hroot) Hvs. cbv zeta.
    rewrite (update_index_upto_root P v c u r w vs Hname Hfile Hvs).
    rewrite update_root_index_run; [done|]. cbn [simple]. intros d.
    rewrite with_page_lookup_ne by done. apply Hroot. }
  split.
  - intros H. pose proof H as H0.
    pose proof (update_index_ok_name _ _ _ _ _ _ _ H) as Hname.
    apply update_index_ok in H0 as (d & vs & Hd & Hload & H0).
    cbv zeta in H0. destruct H0 as (HP & Hroot & _).
    assert (Hw : writable (simple w) P).
    { split_and!; [done| |done..]. intros text.
      destruct Hd as [->|[-> _]]; done. }
    split; [done|]. exists vs.
    rewrite load_existing_versions_eq in Hload. injection Hload as Hvs.
    split; [done|]. cbv zeta.
    pose proof (Hfwd vs Hw Hvs) as Hrun. cbv zeta in Hrun. congruence.
  - intros (Hw & vs & Hvs & ->). by apply Hfwd.
Qed.

(** X3.  A run of [update_index] on a package name that is a single path
    component returns exactly when the file system takes the name (no null
    character, at most [NAME_MAX] bytes), [simple/P] is not a file, [P] is
    not [index.html], [simple/index.html] is not a directory and the page
    of [P], if any, can be read; the world it leaves is then the one where
    the page of [P] is rewritten for the merged records, the root page is
    rewritten after it, and two lines are printed. *)
Theorem update_index_returns_iff P v c u r w w' :
  path_component P →
  update_index P v c u r w = (w', Ok ()) ↔
  writable (simple w) P ∧
  ∃ vs, dir_versions (package_dir_of (simple w) P) = Ok vs ∧
    let versions := merge_version vs (mkVersion v c u r) in
    w' = mkWorld (updated (simple w) P versions)
           ((stdout w ++ [package_line P versions]) ++
            [root_line (with_page (simple w) P versions)]).
Proof. intros _. apply update_index_returns. Qed.

Lemma update_index_returns_iff_witness :
  update_index "eprint" "0.0.10" "0123abc" "jakeogh" "eprint" eprint_world
  = (eprint_world', Ok ()) ↔
  writable (simple eprint_world) "eprint" ∧
  ∃ vs, dir_versions (package_dir_of (simple eprint_world) "eprint") = Ok vs ∧
    let versions := merge_version vs eprint_0010 in
    eprint_world'
    = mkWorld (updated (simple eprint_world) "eprint" versions)
        ((stdout eprint_world ++ [package_line "eprint" versions]) ++
         [root_line (with_page (simple eprint_world) "eprint" versions)]).
Proof.
  apply (update_index_returns_iff
           "eprint" "0.0.10" "0123abc" "jakeogh" "eprint"
           eprint_world eprint_world').
  exact path_component_eprint.
Defined.

(** X4.  A run of [update_index] on a package name that is a single path
    component raises nothing but [ValueError] and [OSError] (the file
    system refuses the name), [FileExistsError], [IsADirectoryError] and
    [IndexError]; and unless the root page cannot be written ([P] is
    [index.html], or [simple/index.html] is a directory), a run that raises
    has changed nothing and printed nothing. *)
Theorem update_index_raises P v c u r w w' e :
  path_component P →
  update_index P v c u r w = (w', Raise e) →
  (e = ValueError ∨ e = OSError ∨ e = FileExistsError ∨
   e = IsADirectoryError ∨ e = IndexError) ∧
  (P ≠ "index.html" → (∀ d, simple w !! "index.html" ≠ Some (NDir d)) →
   w' = w).
Proof.
  intros _ H.
  destruct (name_error P) as [e0|] eqn:Hname.
  { unfold update_index, mbind, M_bind, mkdir in H. rewrite Hname in H.
    simplify_eq. split; [|done].
    destruct (name_error_cases _ _ Hname) as [-> | ->]; auto. }
  destruct (simple w !! P) as [[text|d]|] eqn:EP.
  - unfold update_index, mbind, M_bind, mkdir in H. rewrite Hname, EP in H.
    simplify_eq. split; [auto|done].
  - destruct (dir_versions d) as [vs|e0] eqn:Ev.
    + rewrite (update_index_upto_root P v c u r w vs) in H;
        [|done|by rewrite EP|by unfold package_dir_of; rewrite EP].
      cbv zeta in H.
      set (w3 := mkWorld _ _) in H.
      destruct (simple w3 !! "index.html") as [[?|dd]|] eqn:Er.
      1,3: rewrite update_root_index_run in H by (by rewrite Er); done.
      rewrite (update_root_index_raise w3 dd Er) in H. simplify_eq.
      split; [auto|]. intros HP Hroot. exfalso.
      cbn [simple] in Er.
      rewrite with_page_lookup_ne in Er by done. by destruct (Hroot dd).
    + unfold update_index, mbind, M_bind in H.
      rewrite (mkdir_dir _ _ _ Hname EP),
        (load_existing_versions_dir _ _ _ EP), Ev in H.
      simplify_eq. split; [|done].
      destruct (dir_versions_raise _ _ Ev) as [->| ->]; auto.
  - rewrite (update_index_upto_root P v c u r w []) in H;
      [|done|by rewrite EP
       |by unfold package_dir_of; rewrite EP; apply dir_versions_empty].
    cbv zeta in H.
    set (w3 := mkWorld _ _) in H.
    destruct (simple w3 !! "index.html") as [[?|dd]|] eqn:Er.
    1,3: rewrite update_root_index_run in H by (by rewrite Er); done.
    rewrite (update_root_index_raise w3 dd Er) in H. simplify_eq.
    split; [auto|]. intros HP Hroot. exfalso.
    cbn [simple] in Er.
    rewrite with_page_lookup_ne in Er by done. by destruct (Hroot dd).
Qed.

Lemma path_component_foo : path_component "foo".
Proof. unfold path_component. split_and!; [solve_lacks|done..]. Defined.

Lemma update_index_raises_witness :
  (IndexError = ValueError ∨ IndexError = OSError ∨
   IndexError = FileExistsError ∨ IndexError = IsADirectoryError ∨
   IndexError = IndexError) ∧
  ("foo" ≠ "index.html" →
   (∀ d, simple (world_with_page "foo" legacy_page) !! "index.html"
         ≠ Some (NDir d)) →
   world_with_page "foo" legacy_page = world_with_page "foo" legacy_page).
Proof.
  apply (update_index_raises "foo" "1.0" "abc123" "jakeogh" "foo"
           (world_with_page "foo" legacy_page)).
  - exact path_component_foo.
  - by vm_compute.
Defined.

(** ** Further properties: how runs compose *)

Module Compose.
Import Str StrFacts SortFacts MergeFacts Run Support Outcome.

Lemma with_root_lookup_ne s name :
  name ≠ "index.html" → with_root s !! name = s !! name.
Proof. intros H. unfold with_root. by rewrite lookup_insert_ne. Qed.

Lemma with_root_lookup s :
  with_root s !! "index.html"
  = Some (NFile (create_root_index_html (listed_packages s))).
Proof. unfold with_root. apply lookup_insert_eq. Qed.

Lemma package_dir_of_ext s1 s2 P :
  s1 !! P = s2 !! P → package_dir_of s1 P = package_dir_of s2 P.
Proof. intros H. unfold package_dir_of. by rewrite H. Qed.

Lemma with_page_lookup s P versions :
  with_page s P versions !! P
  = Some (NDir (<["index.html" :=
                    IFile (create_package_index_html P versions)]>
                  (package_dir_of s P))).
Proof. unfold with_page. apply lookup_insert_eq. Qed.

(** Rewriting the root page twice is rewriting it once. *)
Lemma with_root_written s text :
  (∀ d, s !! "index.html" ≠ Some (NDir d)) →
  with_root (<["index.html" := NFile text]> s) = with_root s.
Proof.
  intros Hroot. unfold with_root. rewrite insert_insert_eq. do 2 f_equal.
  apply create_root_index_html_perm.
  by apply listed_packages_root_written.
Qed.

Lemma updated_with_root s P versions :
  P ≠ "index.html" → (∀ d, s !! "index.html" ≠ Some (NDir d)) →
  updated (with_root s) P versions = updated s P versions.
Proof.
  intros HP Hroot. unfold updated.
  assert (with_page (with_root s) P versions
          = <["index.html" :=
                NFile (create_root_index_html (listed_packages s))]>
              (with_page s P versions)) as ->.
  { unfold with_page.
    rewrite (package_dir_of_ext (with_root s) s)
      by by apply with_root_lookup_ne.
    unfold with_root. by apply insert_insert_ne. }
  apply with_root_written. intros d.
  rewrite with_page_lookup_ne by done. apply Hroot.
Qed.

Lemma with_page_commute s P Q a b :
  P ≠ Q →
  with_page (with_page s P a) Q b = with_page (with_page s Q b) P a.
Proof.
  intros HPQ. unfold with_page at 1 3.
  rewrite (package_dir_of_ext (with_page s P a) s Q)
    by by apply with_page_lookup_ne.
  rewrite (package_dir_of_ext (with_page s Q b) s P)
    by by apply with_page_lookup_ne.
  unfold with_page. by apply insert_insert_ne.
Qed.

Lemma with_page_again s P a b :
  with_page (with_page s P a) P b = with_page s P b.
Proof.
  unfold with_page at 1. unfold package_dir_of at 1.
  rewrite with_page_lookup. unfold with_page.
  by rewrite !insert_insert_eq.
Qed.

Lemma updated_lookup_ne s P versions name :
  name ≠ P → name ≠ "index.html" → updated s P versions !! name = s !! name.
Proof.
  intros. unfold updated.
  by rewrite with_root_lookup_ne, with_page_lookup_ne.
Qed.

Lemma updated_lookup s P versions :
  P ≠ "index.html" →
  updated s P versions !! P
  = Some (NDir (<["index.html" :=
                    IFile (create_package_index_html P versions)]>
                  (package_dir_of s P))).
Proof.
  intros. unfold updated. rewrite with_root_lookup_ne by done.
  apply with_page_lookup.
Qed.

Lemma writable_updated s P Q versions :
  writable s P → writable s Q → writable (updated s P versions) Q.
Proof.
  intros (_ & HfP & HP & Hroot) (HnQ & HfQ & HQ & _). split_and!; [done| |done|].
  - intros text. destruct (decide (Q = P)) as [->|Hne].
    + by rewrite updated_lookup.
    + rewrite updated_lookup_ne by done. apply HfQ.
  - intros d. unfold updated. by rewrite with_root_lookup.
Qed.

Lemma dir_versions_rendered P versions d :
  wf_package P → Forall wf_record versions →
  dir_versions
    (<["index.html" := IFile (create_package_index_html P versions)]> d)
  = Ok versions.
Proof.
  intros HP Hvs. unfold dir_versions. rewrite lookup_insert_eq.
  by apply RoundTrip.read_parse_rendered.
Qed.

(** Sorting does not depend on the order of the last two elements when
    their keys differ. *)
Lemma sort_app_swap {A} (key : A → string) l a b :
  key a ≠ key b →
  Sort.sort key (l ++ [a; b]) = Sort.sort key (l ++ [b; a]).
Proof.
  intros Hne. induction l as [|x l IH]; simpl; [|by rewrite IH].
  destruct (String.leb (key a) (key b)) eqn:Eab;
    destruct (String.leb (key b) (key a)) eqn:Eba; try done.
  - destruct Hne. by apply String.leb_antisym.
  - destruct (String.leb_total (key a) (key b)); congruence.
Qed.

(** Merging two records of different versions gives the same list in
    either order. *)
Lemma merge_version_commute vs r1 r2 :
  version r1 ≠ version r2 →
  merge_version (merge_version vs r1) r2
  = merge_version (merge_version vs r2) r1.
Proof.
  intros Hne.
  assert (Hgen : ∀ a b, version a ≠ version b →
    merge_version (merge_version vs a) b
    = Sort.sort version
        (filter (fun x => version x ≠ version a ∧ version x ≠ version b) vs
         ++ [a; b])).
  { intros a b Hab. unfold merge_version at 1.
    unfold merge_version. rewrite filter_sort, sort_sort_app.
    rewrite filter_app, list_filter_filter.
    rewrite (filter_cons_True _ a) by done.
    rewrite filter_nil, <-List.app_assoc. simpl. do 2 f_equal.
    apply list_filter_iff. tauto. }
  rewrite (Hgen r1 r2 Hne), (Hgen r2 r1) by done.
  rewrite (sort_app_swap version _ r1 r2 Hne). do 2 f_equal.
  apply list_filter_iff. tauto.
Qed.

End Compose.

Import Compose.

(** X5.  The first publication on an empty index, for a package name that
    is a single path component and that the file system takes.  For the
    name [index.html] the run raises [IsADirectoryError] (the directory it
    creates stands where the root page goes).  For every other name it
    returns, the package page holds the incoming record alone and the root
    page lists the package alone, or nothing when the package is named
    [.git]. *)
Theorem update_index_first P v c u r :
  path_component P → name_error P = None →
  let run := update_index P v c u r empty_world in
  if decide (P = "index.html") then run.2 = Raise IsADirectoryError
  else
    run.2 = Ok () ∧
    page_of run.1 P
    = Some (create_package_index_html P [mkVersion v c u r]) ∧
    root_page_of run.1
    = Some (create_root_index_html (if decide (P = ".git") then [] else [P])).
Proof.
  intros _ Hname. cbv zeta.
  rewrite (update_index_upto_root P v c u r empty_world []);
    [|done|done|apply dir_versions_empty].
  cbv zeta. change (merge_version [] ?x) with [x].
  set (new := mkVersion v c u r).
  destruct (decide (P = "index.html")) as [->|HP].
  - by erewrite update_root_index_raise by apply with_page_lookup.
  - rewrite update_root_index_run
      by (intros d; cbn [simple]; by rewrite with_page_lookup_ne).
    cbn [fst snd]. split_and!; [done| |].
    + unfold page_of. cbn [simple].
      rewrite with_root_lookup_ne, with_page_lookup by done.
      by rewrite lookup_insert_eq.
    + unfold root_page_of. cbn [simple]. rewrite with_root_lookup.
      do 3 f_equal. unfold with_page. cbn [simple empty_world].
      unfold listed_packages, iterdir.
      rewrite insert_empty, map_to_list_singleton.
      rewrite filter_cons, filter_nil. cbn [fst snd is_dir].
      destruct (decide (P = ".git")) as [->|Hg].
      * by rewrite decide_False by (by intros [_ ?]).
      * by rewrite decide_True.
Qed.

Lemma update_index_first_witness :
  let run := update_index "eprint" "0.0.1" "abc123" "jakeogh" "eprint"
               empty_world in
  if decide ("eprint" = "index.html") then run.2 = Raise IsADirectoryError
  else
    run.2 = Ok () ∧
    page_of run.1 "eprint"
    = Some (create_package_index_html "eprint" [eprint_001]) ∧
    root_page_of run.1
    = Some (create_root_index_html
              (if decide ("eprint" = ".git") then [] else ["eprint"])).
Proof.
  apply (update_index_first "eprint" "0.0.1" "abc123" "jakeogh" "eprint").
  - exact path_component_eprint.
  - reflexivity.
Defined.

(** X6.  Where a list of names sorts to the same list, the root page is the
    same: [create_root_index_html] does not depend on the order in which
    the names are given. *)
Theorem create_root_index_html_order l1 l2 :
  l1 ≡ₚ l2 → create_root_index_html l1 = create_root_index_html l2.
Proof.
  intros Hp. unfold create_root_index_html.
  by rewrite (sorted_order_independent l1 l2 Hp).
Qed.

Lemma create_root_index_html_order_witness :
  create_root_index_html ["eprint"; "asserttool"]
  = create_root_index_html ["asserttool"; "eprint"].
Proof.
  apply (create_root_index_html_order ["eprint"; "asserttool"]).
  apply Permutation_swap.
Defined.

(** X7.  When a run of [update_index] returns for a package name that is a
    single path component other than [.git], the root page holds the anchor
    line of that package: a link to [{package}/] that shows the package
    name. *)
Theorem update_index_root_lists_package P v c u r w w' :
  path_component P →
  update_index P v c u r w = (w', Ok ()) → P ≠ ".git" →
  ∃ before after,
    root_page_of w'
    = Some (before +:+ spec_line (spec_root_link P) +:+ after).
Proof.
  intros _ H HP.
  apply update_index_returns in H as ((_ & _ & Hidx & _) & vs & _ & ->).
  cbv zeta. unfold root_page_of, updated. cbn [simple].
  rewrite with_root_lookup, RoundTrip.create_root_index_html_eq.
  set (s2 := with_page _ _ _).
  assert (Hin : P ∈ Sort.sorted (listed_packages s2)).
  { unfold Sort.sorted. rewrite sort_perm. apply elem_of_listed_packages.
    split; [|done]. unfold s2. rewrite with_page_lookup. eauto. }
  apply list_elem_of_split in Hin as (l1 & l2 & ->).
  exists (root_page_head +:+ concat_str (root_anchor <$> l1)),
         (concat_str (root_anchor <$> l2) +:+ page_tail).
  rewrite fmap_app, fmap_cons. f_equal.
  assert (Happ : ∀ a b, concat_str (a ++ b) = concat_str a +:+ concat_str b).
  { intros a b. induction a as [|x a IH]; [done|].
    simpl. unfold concat_str in *. simpl. by rewrite IH, app_assoc. }
  rewrite Happ. unfold concat_str at 2. simpl.
  fold (concat_str (root_anchor <$> l2)).
  rewrite <-root_anchor_spec. by rewrite !app_assoc.
Qed.

Lemma update_index_root_lists_package_witness :
  ∃ before after,
    root_page_of eprint_world'
    = Some (before +:+ spec_line (spec_root_link "eprint") +:+ after).
Proof.
  apply (update_index_root_lists_package
           "eprint" "0.0.10" "0123abc" "jakeogh" "eprint" eprint_world).
  - exact path_component_eprint.
  - exact eprint_run.
  - discriminate.
Defined.

(** X8.  Updates of two different packages commute, for package names
    that are single path components: when a run for [P] followed by a run
    for [Q] returns, so do the runs in the other order, and they leave the
    same files. *)
Theorem update_index_packages_commute
    P vP cP uP rP Q vQ cQ uQ rQ w w1 w12 :
  path_component P → path_component Q →
  P ≠ Q →
  update_index P vP cP uP rP w = (w1, Ok ()) →
  update_index Q vQ cQ uQ rQ w1 = (w12, Ok ()) →
  ∃ w2 w21,
    update_index Q vQ cQ uQ rQ w = (w2, Ok ()) ∧
    update_index P vP cP uP rP w2 = (w21, Ok ()) ∧
    simple w21 = simple w12.
Proof.
  intros _ _ HPQ H1 H2.
  apply update_index_returns in H1 as (HwP & vsP & HvP & ->).
  apply update_index_returns in H2 as (HwQ1 & vsQ & HvQ & ->).
  cbv zeta in *. cbn [simple stdout] in *.
  pose proof HwP as (_ & HfP & HPi & Hroot).
  pose proof HwQ1 as (HnQ & HfQ & HQi & _).
  set (mP := merge_version vsP _) in *. set (mQ := merge_version vsQ _) in *.
  assert (EQ : updated (simple w) P mP !! Q = simple w !! Q)
    by by apply updated_lookup_ne.
  assert (HwQ : writable (simple w) Q).
  { split_and!; [done| |done..]. intros text. rewrite <-EQ. apply HfQ. }
  rewrite (package_dir_of_ext _ _ _ EQ) in HvQ.
  eexists _, _. split_and!.
  - apply update_index_returns. split; [done|]. exists vsQ. split; done.
  - apply update_index_returns. cbn [simple stdout].
    split; [by apply writable_updated|]. exists vsP. split; [|done].
    rewrite (package_dir_of_ext _ (simple w)); [done|].
    by apply updated_lookup_ne.
  - cbn [simple]. fold mP mQ.
    change (updated (simple w) Q mQ)
      with (with_root (with_page (simple w) Q mQ)).
    change (updated (simple w) P mP)
      with (with_root (with_page (simple w) P mP)).
    rewrite !updated_with_root; try done.
    + unfold updated. by rewrite with_page_commute.
    + intros d. rewrite with_page_lookup_ne by done. apply Hroot.
    + intros d. rewrite with_page_lookup_ne by done. apply Hroot.
Qed.

Lemma package_dir_of_updated s P versions :
  P ≠ "index.html" →
  package_dir_of (updated s P versions) P
  = <["index.html" := IFile (create_package_index_html P versions)]>
      (package_dir_of s P).
Proof.
  intros HP. unfold package_dir_of at 1. by rewrite updated_lookup.
Qed.

Lemma updated_again s P a b :
  P ≠ "index.html" → (∀ d, s !! "index.html" ≠ Some (NDir d)) →
  updated (updated s P a) P b = updated s P b.
Proof.
  intros HP Hroot.
  change (updated s P a) with (with_root (with_page s P a)).
  rewrite updated_with_root; [|done|].
  - unfold updated. by rewrite with_page_again.
  - intros d. rewrite with_page_lookup_ne by done. apply Hroot.
Qed.

(** X9.  Two versions of one package can be published in either order.
    For a package name that is a single path component and that, like the
    records, survives a render and a parse, when a run for one version
    followed by a run for another returns, so do the runs in the other
    order, and they leave the same files. *)
Theorem update_index_versions_commute
    P v1 c1 u1 r1 v2 c2 u2 r2 w w1 w12 vs :
  path_component P →
  wf_package P →
  wf_record (mkVersion v1 c1 u1 r1) → wf_record (mkVersion v2 c2 u2 r2) →
  v1 ≠ v2 →
  load_existing_versions P w = (w, Ok vs) → Forall wf_record vs →
  update_index P v1 c1 u1 r1 w = (w1, Ok ()) →
  update_index P v2 c2 u2 r2 w1 = (w12, Ok ()) →
  ∃ w2 w21,
    update_index P v2 c2 u2 r2 w = (w2, Ok ()) ∧
    update_index P v1 c1 u1 r1 w2 = (w21, Ok ()) ∧
    simple w21 = simple w12.
Proof.
  intros _ HP Hr1 Hr2 Hne Hload Hvs H1 H2.
  rewrite load_existing_versions_eq in Hload. injection Hload as Hdv.
  apply update_index_returns in H1 as (Hw & vs' & Hv' & ->).
  rewrite Hdv in Hv'. simplify_eq.
  apply update_index_returns in H2 as (_ & vs1 & Hv1 & ->).
  cbv zeta in *. cbn [simple stdout] in *.
  pose proof Hw as (_ & _ & HPi & Hroot).
  set (R1 := mkVersion v1 c1 u1 r1) in *.
  set (R2 := mkVersion v2 c2 u2 r2) in *.
  rewrite package_dir_of_updated in Hv1 by done.
  rewrite dir_versions_rendered in Hv1
    by (done || by apply wf_merge_version).
  simplify_eq.
  eexists _, _. split_and!.
  - apply update_index_returns. split; [done|]. by exists vs'.
  - apply update_index_returns. cbn [simple stdout].
    split; [by apply writable_updated|].
    exists (merge_version vs' R2). split; [|done].
    rewrite package_dir_of_updated by done.
    apply dir_versions_rendered; [done|]. by apply wf_merge_version.
  - cbn [simple]. rewrite !updated_again by done.
    by rewrite (merge_version_commute vs' R1 R2).
Qed.

(** X10.  Publishing the same tuple twice.  For a package name that is a
    single path component and that, like the records, survives a render and
    a parse, a second run of [update_index] with the same tuple returns and
    leaves the files as the first run left them. *)
Theorem update_index_same_tuple_twice P v c u r w w1 vs :
  path_component P →
  wf_package P → wf_record (mkVersion v c u r) → Forall wf_record vs →
  load_existing_versions P w = (w, Ok vs) →
  update_index P v c u r w = (w1, Ok ()) →
  ∃ w2, update_index P v c u r w1 = (w2, Ok ()) ∧ simple w2 = simple w1.
Proof.
  intros _ HP Hnew Hvs Hload H1.
  rewrite load_existing_versions_eq in Hload. injection Hload as Hdv.
  apply update_index_returns in H1 as (Hw & vs' & Hv' & ->).
  rewrite Hdv in Hv'. simplify_eq. cbv zeta. cbn [simple].
  pose proof Hw as (_ & _ & HPi & Hroot).
  eexists. split.
  - apply update_index_returns. cbn [simple stdout].
    split; [by apply writable_updated|].
    exists (merge_version vs' (mkVersion v c u r)). split; [|done].
    rewrite package_dir_of_updated by done.
    apply dir_versions_rendered; [done|]. by apply wf_merge_version.
  - cbn [simple]. rewrite updated_again by done.
    by rewrite merge_version_again.
Qed.

(** ** Further properties: link texts of the older form, and [main] *)

Module Legacy.
Import Str StrFacts.

Local Abbreviation tgz := ".tar.gz".

Lemma endswith_app x w : endswith (x +:+ w) w = true.
Proof.
  induction x as [|c x IH].
  - rewrite app_nil_l. destruct w; [done|].
    rewrite endswith_cons. by rewrite String.eqb_refl.
  - rewrite app_cons, endswith_cons, IH. by destruct (String.eqb _ _).
Qed.

(** [.tar.gz] does not overlap itself: it starts nowhere inside [y] or
    across the end of [y] unless it starts [y]. *)
Lemma prefix_tgz_straddle c y :
  String.prefix tgz (String c y) = false →
  String.prefix tgz (String c y +:+ tgz) = false.
Proof.
  intros Hp.
  destruct (String.prefix tgz (String c y +:+ tgz)) eqn:E; [|done].
  apply prefix_inv in E as [t E]. exfalso.
  destruct y as [|c2 [|c3 [|c4 [|c5 [|c6 [|c7 y]]]]]];
    vm_compute in E; simplify_eq.
  change (String.prefix tgz (tgz +:+ y) = false) in Hp.
  by rewrite prefix_app in Hp.
Qed.

Lemma replace_tgz x :
  contains tgz x = false → replace (x +:+ tgz) tgz EmptyString = x.
Proof.
  unfold replace. induction x as [|c x IH]; [done|].
  cbn [contains]. destruct (String.prefix tgz (String c x)) eqn:Ep; [done|].
  intros Hc. rewrite app_cons. cbn [replace_from].
  change (String c (x +:+ tgz)) with (String c x +:+ tgz).
  rewrite (prefix_tgz_straddle c x Ep). by rewrite IH.
Qed.

End Legacy.

(** X11.  A link text of the older form [{package}-{version}.tar.gz] gives
    the version: when the package name holds no [-] and [.tar.gz] occurs
    nowhere in [{package}-{version}]. *)
Theorem version_of_link_text_tarball P v :
  lacks "-"%char P →
  contains ".tar.gz" (P +:+ "-" +:+ v) = false →
  version_of_link_text ((P +:+ "-" +:+ v) +:+ ".tar.gz") = Ok v.
Proof.
  intros HP Hc. unfold version_of_link_text.
  rewrite Legacy.endswith_app, (Legacy.replace_tgz _ Hc).
  unfold split1.
  change (P +:+ "-" +:+ v) with (P +:+ String "-"%char v).
  by rewrite partition_first.
Qed.

Lemma version_of_link_text_tarball_witness :
  version_of_link_text (("eprint" +:+ "-" +:+ "0.0.1") +:+ ".tar.gz")
  = Ok "0.0.1".
Proof.
  apply (version_of_link_text_tarball "eprint" "0.0.1").
  - solve_lacks.
  - reflexivity.
Defined.

Lemma concat_str_app (a b : list string) :
  concat_str (a ++ b) = concat_str a +:+ concat_str b.
Proof.
  induction a as [|x a IH]; [done|].
  unfold concat_str in *. simpl. by rewrite IH, app_assoc.
Qed.

(** The anchor line of the incoming record on the page written. *)
Lemma update_index_holds_anchor P v c u r w w' :
  update_index P v c u r w = (w', Ok ()) →
  ∃ before after,
    page_of w' P
    = Some (before +:+
            spec_line (spec_package_link P (mkVersion v c u r)) +:+ after).
Proof.
  intros H.
  apply update_index_returns in H as ((_ & _ & Hidx & _) & vs & _ & ->).
  cbv zeta. unfold page_of. cbn [simple].
  rewrite updated_lookup, lookup_insert_eq by done.
  rewrite RoundTrip.create_package_index_html_eq.
  set (new := mkVersion v c u r).
  assert (Hin : new ∈ merge_version vs new).
  { rewrite merge_version_perm. apply elem_of_app. right. by left. }
  apply list_elem_of_split in Hin as (l1 & l2 & ->).
  exists (package_page_head P +:+ concat_str (package_anchor P <$> l1)),
         (concat_str (package_anchor P <$> l2) +:+ page_tail).
  rewrite fmap_app, fmap_cons, concat_str_app. f_equal.
  change (concat_str (?x :: ?l)) with (x +:+ concat_str l).
  rewrite <-package_anchor_spec. by rewrite !app_assoc.
Qed.

(** X12.  When a run of [update_index] on a package name that is a single
    path component returns, the package page holds the anchor line of the
    incoming record: a link to the tarball of the commit under the forge
    user and repository given, with the fragment and the text
    [{package}-{version}]. *)
Theorem update_index_page_holds_new P v c u r w w' :
  path_component P →
  update_index P v c u r w = (w', Ok ()) →
  ∃ before after,
    page_of w' P
    = Some (before +:+
            spec_line (spec_package_link P (mkVersion v c u r)) +:+ after).
Proof. intros _. apply update_index_holds_anchor. Qed.

Lemma update_index_page_holds_new_witness :
  ∃ before after,
    page_of eprint_world' "eprint"
    = Some (before +:+
            spec_line (spec_package_link "eprint" eprint_0010) +:+ after).
Proof.
  apply (update_index_page_holds_new
           "eprint" "0.0.10" "0123abc" "jakeogh" "eprint" eprint_world).
  - exact path_component_eprint.
  - exact eprint_run.
Defined.

(** What [main] adds to [update_index]: the publishing hint, printed after
    a run that returned. *)
Lemma main_run args w :
  main args w
  = match update_index (args_package args) (args_version args)
            (args_commit args) (args_github_user args)
            (repo_or_package args) w with
    | (w1, Ok _) =>
        (mkWorld (simple w1)
           (((((stdout w1 ++ [nl +:+ "To publish changes:"]) ++
               ["  cd " +:+ args_index_repo args]) ++
              ["  git add simple/"]) ++
             ["  git commit -m 'Update " +:+ args_package args +:+ " to " +:+
              args_version args +:+ "'"]) ++
            ["  git push"]), Ok ())
    | (w1, Raise e) => (w1, Raise e)
    end.
Proof.
  unfold main, mbind, M_bind.
  by destruct (update_index _ _ _ _ _ w) as [w1 [[]|e]].
Qed.

(** X13.  [main] publishes under the repository named like the package
    when [--github-repo] is not given or is empty, for a package name that
    is a single path component: when it returns, the package page holds the
    anchor line that links to [github.com/{user}/{package}]; and the
    publishing hint is printed only when the update returned: when
    [update_index] raises, [main] raises the same exception in the same
    world. *)
Theorem main_default_repo args w :
  path_component (args_package args) →
  (args_github_repo args = None ∨ args_github_repo args = Some EmptyString) →
  let P := args_package args in
  let new := mkVersion (args_version args) (args_commit args)
               (args_github_user args) P in
  match update_index P (args_version args) (args_commit args)
          (args_github_user args) P w with
  | (w1, Ok _) =>
      (main args w).2 = Ok () ∧
      simple (main args w).1 = simple w1 ∧
      ∃ before after,
        page_of (main args w).1 P
        = Some (before +:+ spec_line (spec_package_link P new) +:+ after)
  | (w1, Raise e) => main args w = (w1, Raise e)
  end.
Proof.
  intros _ Hrepo. cbv zeta.
  assert (Hr : repo_or_package args = args_package args).
  { unfold repo_or_package. by destruct Hrepo as [-> | ->]. }
  rewrite main_run, Hr.
  destruct (update_index _ _ _ _ _ w) as [w1 [[]|e]] eqn:E; [|done].
  cbn [fst snd simple]. split_and!; [done..|].
  destruct (update_index_holds_anchor _ _ _ _ _ _ _ E)
    as (before & after & Hpage).
  exists before, after. by rewrite <-Hpage.
Qed.

Lemma main_default_repo_witness :
  let args := mkArgs "eprint" "0.0.10" "0123abc" "~/_myapps/pip-index"
                "jakeogh" None in
  match update_index "eprint" "0.0.10" "0123abc" "jakeogh" "eprint"
          eprint_world with
  | (w1, Ok _) =>
      (main args eprint_world).2 = Ok () ∧
      simple (main args eprint_world).1 = simple w1 ∧
      ∃ before after,
        page_of (main args eprint_world).1 "eprint"
        = Some (before +:+
                spec_line (spec_package_link "eprint" eprint_0010) +:+ after)
  | (w1, Raise e) => main args eprint_world = (w1, Raise e)
  end.
Proof.
  apply (main_default_repo
           (mkArgs "eprint" "0.0.10" "0123abc" "~/_myapps/pip-index"
              "jakeogh" None) eprint_world).
  - exact path_component_eprint.
  - by left.
Defined.

Lemma wf_record_eprint_0010 : wf_record eprint_0010.
Proof. split; try solve_lacks; done. Defined.

Lemma wf_record_eprint_003 : wf_record eprint_003.
Proof. split; try solve_lacks; done. Defined.

Lemma update_index_packages_commute_witness :
  ∃ w2 w21,
    update_index "asserttool" "0.0.1" "aaa111" "jakeogh" "asserttool"
      eprint_world = (w2, Ok ()) ∧
    update_index "eprint" "0.0.10" "0123abc" "jakeogh" "eprint" w2
    = (w21, Ok ()) ∧
    simple w21 = simple eprint_asserttool_world.
Proof.
  apply (update_index_packages_commute
           "eprint" "0.0.10" "0123abc" "jakeogh" "eprint"
           "asserttool" "0.0.1" "aaa111" "jakeogh" "asserttool"
           eprint_world eprint_world' eprint_asserttool_world).
  - exact path_component_eprint.
  - unfold path_component. split_and!; [solve_lacks|done..].
  - discriminate.
  - exact eprint_run.
  - by vm_compute.
Defined.

Lemma update_index_versions_commute_witness :
  ∃ w2 w21,
    update_index "eprint" "0.0.3" "ccc333" "jakeogh" "eprint" eprint_world
    = (w2, Ok ()) ∧
    update_index "eprint" "0.0.10" "0123abc" "jakeogh" "eprint" w2
    = (w21, Ok ()) ∧
    simple w21 = simple eprint_world_003.
Proof.
  apply (update_index_versions_commute
           "eprint" "0.0.10" "0123abc" "jakeogh" "eprint"
           "0.0.3" "ccc333" "jakeogh" "eprint"
           eprint_world eprint_world' eprint_world_003 [eprint_002]).
  - exact path_component_eprint.
  - exact wf_package_eprint.
  - exact wf_record_eprint_0010.
  - exact wf_record_eprint_003.
  - discriminate.
  - exact eprint_load.
  - constructor; [exact wf_record_eprint_002|constructor].
  - exact eprint_run.
  - by vm_compute.
Defined.

Lemma update_index_same_tuple_twice_witness :
  ∃ w2,
    update_index "eprint" "0.0.10" "0123abc" "jakeogh" "eprint" eprint_world'
    = (w2, Ok ()) ∧
    simple w2 = simple eprint_world'.
Proof.
  apply (update_index_same_tuple_twice
           "eprint" "0.0.10" "0123abc" "jakeogh" "eprint"
           eprint_world eprint_world' [eprint_002]).
  - exact path_component_eprint.
  - exact wf_package_eprint.
  - exact wf_record_eprint_0010.
  - constructor; [exact wf_record_eprint_002|constructor].
  - exact eprint_load.
  - exact eprint_run.
Defined.

(** ** Further properties of the regenerator *)

Module Regen.
Import Str StrFacts.

Ltac run_proc :=
  unfold mbind, Proc_bind, mret, Proc_ret, emit, lift in *.

Lemma added_app l1 l2 : added (l1 ++ l2) = added l1 ++ added l2.
Proof. unfold added. apply omap_app. Qed.

(** [get_github_info] prints no [Adding] line and always returns. *)
Lemma get_github_info_run repo log :
  ∃ log' info,
    get_github_info repo log = (log', Returns info) ∧
    added log' = added log ∧
    (∀ ur, info = Some ur →
       log' = log ∧
       ∃ secs out err,
         cand_remote repo = Exits secs 0 out err ∧ secs ≤ 5).
Proof.
  unfold get_github_info, subprocess_run.
  destruct (cand_remote repo) as [secs code out err| |].
  - destruct (Nat.ltb_spec 5 secs) as [Hlt|Hle]; cbn [andb negb].
    + run_proc. eexists _, _. split; [done|].
      rewrite added_app. simpl. rewrite List.app_nil_r. by split.
    + cbn [returncode proc_stdout].
      destruct (Z.eqb_spec code 0) as [->|Hc]; cbn [negb].
      * destruct (Re.search _ _) as [m|]; run_proc.
        -- eexists _, _. split; [done|]. split; [done|].
           intros ur _. split; [done|]. eauto.
        -- eexists _, _. split; [done|].
           rewrite added_app. simpl. rewrite List.app_nil_r. by split.
      * run_proc. eexists _, _. by split_and!.
  - run_proc. eexists _, _. split; [done|].
    rewrite added_app. simpl. rewrite List.app_nil_r. by split.
  - run_proc. eexists _, _. split; [done|].
    rewrite added_app. simpl. rewrite List.app_nil_r. by split.
Qed.

Lemma forge_identity_run repo log :
  ∃ log' ur,
    forge_identity repo log = (log', Returns ur) ∧ added log' = added log.
Proof.
  unfold forge_identity.
  destruct (get_github_info_run (repo_path repo) log)
    as (log1 & info & Hrun & Hadd & _).
  unfold mbind at 1, Proc_bind at 1. rewrite Hrun.
  destruct info as [[u r]|]; run_proc.
  - by eexists _, _.
  - eexists _, _. split; [done|].
    rewrite added_app. simpl. by rewrite List.app_nil_r.
Qed.

(** The arguments are passed on when the name and the version are
    strings. *)
Lemma writer_args_strings repo u r :
  is_str (repo_name repo) = true → is_str (repo_ver repo) = true →
  ∃ args, writer_args repo u r = Some args.
Proof.
  unfold writer_args.
  destruct (repo_name repo), (repo_ver repo); try done. eauto.
Qed.

Lemma writer_args_other repo u r :
  is_str (repo_name repo) && is_str (repo_ver repo) = false →
  writer_args repo u r = None.
Proof.
  unfold writer_args. by destruct (repo_name repo), (repo_ver repo).
Qed.

(** One turn of the loop in force: it prints its [Adding] line first and
    no other; it returns when the name and the version are strings and the
    Index Writer runs to its end. *)
Lemma add_repo_run repo log :
  ∃ log' o,
    add_repo repo log = (log', o) ∧
    added log' = added log ++ [repo_package repo] ∧
    (is_str (repo_name repo) = true ∧ is_str (repo_ver repo) = true ∧
     (∀ args, exits (cand_writer (repo_path repo) args)) →
     o = Returns ()).
Proof.
  unfold add_repo.
  unfold mbind at 1, Proc_bind at 1, emit at 1.
  destruct (forge_identity_run repo
              (log ++ [Adding (repo_package repo) (repo_version repo)]))
    as (log1 & [u r] & Hrun & Hadd).
  rewrite added_app in Hadd. simpl in Hadd.
  unfold mbind at 1, Proc_bind at 1. rewrite Hrun.
  destruct (writer_args repo u r) as [args|] eqn:Ea.
  - unfold subprocess_run.
    destruct (cand_writer (repo_path repo) args)
      as [secs code out err| |] eqn:Ew.
    + cbn [andb]. destruct (Z.eqb_spec code 0) as [->|Hc]; cbn [negb];
        run_proc; eexists _, _; (split; [done|]);
        rewrite added_app, Hadd; simpl; rewrite List.app_nil_r; auto.
    + run_proc. eexists _, _. split; [done|]. rewrite Hadd.
      split; [done|]. intros (_ & _ & H).
      destruct (H args) as (? & ? & ? & ? & ?). congruence.
    + run_proc. eexists _, _. split; [done|]. rewrite Hadd.
      split; [done|]. intros (_ & _ & H).
      destruct (H args) as (? & ? & ? & ? & ?). congruence.
  - run_proc. eexists _, _. split; [done|]. rewrite Hadd.
    split; [done|]. intros (Hn & Hv & _).
    destruct (writer_args_strings repo u r Hn Hv) as [args E]. congruence.
Qed.

(** A loop whose turns each print their [Adding] line and no other. *)
Lemma for_each_run (body : RepoMetadata → Proc unit)
    (good : RepoMetadata → Prop) repos log :
  (∀ repo log, ∃ log' o,
     body repo log = (log', o) ∧
     added log' = added log ++ [repo_package repo] ∧
     (good repo → o = Returns ())) →
  ∃ log' o n,
    for_each body repos log = (log', o) ∧
    added log' = added log ++ (repo_package <$> firstn n repos) ∧
    ((∀ repo, repo ∈ repos → good repo) →
     o = Returns () ∧ n = length repos).
Proof.
  intros Hbody. revert log.
  induction repos as [|repo repos IH]; intros log.
  - exists log, (Returns ()), 0. simpl. rewrite List.app_nil_r.
    by split_and!; auto.
  - destruct (Hbody repo log) as (log1 & o1 & Hrun & Hadd & Hret).
    cbn [for_each]. unfold mbind, Proc_bind. rewrite Hrun.
    destruct o1 as [[]|e|code| |].
    + destruct (IH log1) as (log2 & o2 & n & Hrun2 & Hadd2 & Hret2).
      fold (@mbind Proc _) in *.
      exists log2, o2, (S n). split; [exact Hrun2|]. split.
      * rewrite Hadd2, Hadd, <-List.app_assoc. done.
      * intros Hall. destruct Hret2 as [-> ->]; [|done].
        intros r Hr. apply Hall. by right.
    + exists log1, (Raises e), 1. split; [done|]. split; [by rewrite Hadd|].
      intros Hall. discriminate Hret. apply Hall. by left.
    + exists log1, (SysExit code), 1. split; [done|].
      split; [by rewrite Hadd|].
      intros Hall. discriminate Hret. apply Hall. by left.
    + exists log1, Blocks, 1. split; [done|]. split; [by rewrite Hadd|].
      intros Hall. discriminate Hret. apply Hall. by left.
    + exists log1, Undetermined, 1. split; [done|].
      split; [by rewrite Hadd|].
      intros Hall. discriminate Hret. apply Hall. by left.
Qed.

Lemma for_each_add_repo_run repos log :
  ∃ log' o n,
    for_each add_repo repos log = (log', o) ∧
    added log' = added log ++ (repo_package <$> firstn n repos) ∧
    ((∀ repo, repo ∈ repos →
        is_str (repo_name repo) = true ∧ is_str (repo_ver repo) = true ∧
        (∀ args, exits (cand_writer (repo_path repo) args))) →
     o = Returns () ∧ n = length repos).
Proof. apply for_each_run. intros repo log0. apply add_repo_run. Qed.

(** Names that are strings are put in order. *)
Lemma sorted_by_name_strings repos :
  Forall (fun repo => is_str (repo_name repo) = true) repos →
  sorted_by_name repos = Returns (Sort.sort repo_package repos).
Proof.
  intros Hall. unfold sorted_by_name.
  assert (forallb (fun repo => is_str (repo_name repo)) repos = true) as ->;
    [|done].
  induction Hall as [|r l Hr Hl IH]; [done|]. simpl. by rewrite Hr, IH.
Qed.

(** Whatever [sorted] returns is in the order of the names printed. *)
Lemma sorted_by_name_sorted repos in_order :
  sorted_by_name repos = Returns in_order →
  StronglySorted (Sort.key_le repo_package) in_order.
Proof.
  unfold sorted_by_name.
  destruct (forallb _ repos).
  - intros [= <-]. apply SortFacts.sort_sorted.
  - destruct repos as [|r1 [|r2 rest]].
    + by cbn.
    + intros [= <-]. repeat constructor.
    + by destruct (existsb _ _).
Qed.

End Regen.

Module Scan.
Import Str StrFacts Regen.

Lemma truthy_nonempty s : truthy (Some s) = true ↔ s ≠ EmptyString.
Proof. by destruct s. Qed.

(** An entry that fails one of the tests is passed over in silence. *)
Lemma scan_item_ineligible item repos log :
  ¬ eligible item →
  ∃ log', scan_item item repos log = (log', Returns repos) ∧
          added log' = added log.
Proof.
  intros Hne. unfold scan_item, eligible in *.
  destruct (cand_is_dir item); cbn [negb]; [|by eexists].
  destruct (startswith (cand_name item) "."); cbn [orb]; [by eexists|].
  destruct (String.eqb_spec (cand_name item) "pip-index"); [by eexists|].
  destruct (cand_marker item); cbn [negb]; [|by eexists].
  destruct (cand_project item) as [pn pv]. cbn [fst snd] in Hne.
  destruct (truthy_value pn); cbn [negb orb].
  - destruct (truthy_value pv); cbn [negb].
    + destruct Hne. by split_and!.
    + run_proc. eexists. split; [done|].
      rewrite added_app. simpl. by rewrite List.app_nil_r.
  - run_proc. eexists. split; [done|].
    rewrite added_app. simpl. by rewrite List.app_nil_r.
Qed.

(** An entry that passes the tests is decided by its commit lookup. *)
Lemma scan_item_eligible item repos log :
  eligible item →
  match cand_rev_parse item with
  | NotStarted => scan_item item repos log = (log, Raises OSError)
  | Hangs => scan_item item repos log = (log, Blocks)
  | Exits seconds code out err =>
      ∃ log', added log' = added log ∧
        if decide (code = 0%Z ∧ strip out ≠ EmptyString) then
          ∃ name ver,
            cand_project item = (Some name, Some ver) ∧
            scan_item item repos log
            = (log', Returns (repos ++ [mkRepo item name ver (strip out)]))
        else scan_item item repos log = (log', Returns repos)
  end.
Proof.
  intros (Hd & Hs & Hn & Hm & Hpn & Hpv). unfold scan_item.
  rewrite Hd, Hs, Hm. cbn [negb orb].
  destruct (String.eqb_spec (cand_name item) "pip-index"); [done|].
  destruct (cand_project item) as [[name|] [ver|]]; cbn [fst snd] in *;
    try done.
  rewrite Hpn, Hpv. cbn [negb orb default].
  unfold get_git_commit, subprocess_run.
  destruct (cand_rev_parse item) as [seconds code out err| |]; [|done..].
  cbn [andb]. destruct (Z.eqb_spec code 0) as [->|Hc]; cbn [negb].
  - cbn [proc_stdout]. run_proc.
    destruct (strip out) as [|c3 t3] eqn:Eo; cbn [truthy negb].
    + eexists. split; [|by rewrite decide_False by (by intros [_ ?])].
      rewrite added_app. simpl. by rewrite List.app_nil_r.
    + eexists. split; [|rewrite decide_True by done; by eexists _, _].
      rewrite added_app. simpl. by rewrite List.app_nil_r.
  - run_proc. cbn [truthy negb].
    eexists. split; [|by rewrite decide_False by (by intros [? _])].
    rewrite added_app. simpl. by rewrite List.app_nil_r.
Qed.

Global Instance eligible_dec item : Decision (eligible item).
Proof. unfold eligible. apply _. Defined.

(** The scan: what it has found when it returns, and when it returns. *)
Lemma scan_items_run items acc log :
  ∃ log' o,
    scan_items items acc log = (log', o) ∧
    added log' = added log ∧
    (o = Blocks ∨ o = Raises OSError ∨
     ∃ found, o = Returns (acc ++ found) ∧
       Forall (discovered items) found ∧
       (∀ item seconds out err,
          item ∈ items → eligible item →
          cand_rev_parse item = Exits seconds 0 out err →
          strip out ≠ EmptyString →
          ∃ repo, repo ∈ found ∧ repo_path repo = item ∧
                  repo_commit repo = strip out)) ∧
    ((∀ item, item ∈ items → eligible item → exits (cand_rev_parse item)) →
     o ≠ Blocks ∧ o ≠ Raises OSError).
Proof.
  revert acc log. induction items as [|item items IH]; intros acc log.
  - exists log, (Returns acc). split_and!; [done..| |done].
    right. right. exists []. rewrite List.app_nil_r.
    split_and!; [done|constructor|].
    intros ? ? ? ? Hin. by apply elem_of_nil in Hin.
  - cbn [scan_items]. unfold mbind, Proc_bind.
    assert (Hweak : ∀ found, Forall (discovered items) found →
                             Forall (discovered (item :: items)) found).
    { intros found Hf. eapply Forall_impl; [exact Hf|].
      intros r (? & ?). split; [by right|done]. }
    destruct (decide (eligible item)) as [He|Hne].
    + pose proof (scan_item_eligible item acc log He) as Hstep.
      destruct (cand_rev_parse item) as [seconds code out err| |] eqn:Erp.
      * destruct Hstep as (log1 & Hadd1 & Hstep).
        destruct (decide (code = 0%Z ∧ strip out ≠ EmptyString))
          as [[-> Ho]|Hno].
        -- destruct Hstep as (name & ver & Hproj & ->).
           destruct (IH (acc ++ [mkRepo item name ver (strip out)]) log1)
             as (log2 & o & Hrun & Hadd2 & Hres & Hret).
           fold (@mbind Proc _) in *.
           exists log2, o. split; [exact Hrun|]. split_and!.
           ++ congruence.
           ++ destruct Hres as [->|[->|(found & -> & Hf & Hc)]];
                [by left|by right; left|right; right].
              exists (mkRepo item name ver (strip out) :: found).
              rewrite <-List.app_assoc. split_and!; [done| |].
              ** constructor; [|by apply Hweak].
                 split_and!; cbn; [by left|done|done|done|eauto].
              ** intros it s o' e' Hin Hel Hrp Hso.
                 apply elem_of_cons in Hin as [->|Hin].
                 --- exists (mkRepo item name ver (strip out)).
                     rewrite Erp in Hrp. simplify_eq.
                     split_and!; [by left|done..].
                 --- destruct (Hc it s o' e' Hin Hel Hrp Hso)
                       as (r & Hr & ? & ?).
                     exists r. split_and!; [by right|done..].
           ++ intros Hall. apply Hret. intros it Hin. apply Hall. by right.
        -- rewrite Hstep.
           destruct (IH acc log1) as (log2 & o & Hrun & Hadd2 & Hres & Hret).
           fold (@mbind Proc _) in *.
           exists log2, o. split; [exact Hrun|]. split_and!.
           ++ congruence.
           ++ destruct Hres as [->|[->|(found & -> & Hf & Hc)]];
                [by left|by right; left|right; right].
              exists found. split_and!; [done|by apply Hweak|].
              intros it s o' e' Hin Hel Hrp Hso.
              apply elem_of_cons in Hin as [->|Hin]; [|by eapply Hc].
              rewrite Erp in Hrp. simplify_eq. by destruct Hno.
           ++ intros Hall. apply Hret. intros it Hin. apply Hall. by right.
      * rewrite Hstep. exists log, Blocks. split_and!; [done..|by left|].
        intros Hall. destruct (Hall item) as (? & ? & ? & ? & ?);
          [by left|done|congruence].
      * rewrite Hstep. exists log, (Raises OSError).
        split_and!; [done..|by right; left|].
        intros Hall. destruct (Hall item) as (? & ? & ? & ? & ?);
          [by left|done|congruence].
    + destruct (scan_item_ineligible item acc log Hne) as (log1 & -> & Hadd1).
      destruct (IH acc log1) as (log2 & o & Hrun & Hadd2 & Hres & Hret).
      fold (@mbind Proc _) in *.
      exists log2, o. split; [exact Hrun|]. split_and!.
      * congruence.
      * destruct Hres as [->|[->|(found & -> & Hf & Hc)]];
          [by left|by right; left|right; right].
        exists found. split_and!; [done|by apply Hweak|].
        intros it s o' e' Hin Hel Hrp Hso.
        apply elem_of_cons in Hin as [->|Hin]; [done|by eapply Hc].
      * intros Hall. apply Hret. intros it Hin. apply Hall. by right.
Qed.

(** The repositories found in manifests that declare strings have names
    and versions that are strings. *)
Lemma discovered_strings items repo :
  (∀ item, item ∈ items → eligible item → declares_strings item) →
  discovered items repo →
  is_str (repo_name repo) = true ∧ is_str (repo_ver repo) = true.
Proof.
  intros Hall (Hin & He & Hproj & _).
  destruct (Hall _ Hin He) as (name & ver & E).
  rewrite E in Hproj. by injection Hproj as <- <-.
Qed.

End Scan.

Import Regen Scan.

(** X14.  [get_github_info] always returns: whatever the [git] process
    does, hang included, the lookup neither blocks nor raises; and it
    returns a forge identity only when the process exited with code 0
    within the 5 seconds, in which case it has printed nothing. *)
Theorem get_github_info_returns repo log :
  ∃ log' info,
    get_github_info repo log = (log', Returns info) ∧
    (∀ identity, info = Some identity →
       log' = log ∧
       ∃ seconds out err,
         cand_remote repo = Exits seconds 0 out err ∧ seconds ≤ 5).
Proof.
  destruct (get_github_info_run repo log) as (log' & info & H & _ & Hi).
  by exists log', info.
Qed.

(** X15.  When the remote lookup does not exit with code 0 within the 5
    seconds, the forge identity is the configured user and the name of the
    directory, and the fall-back is announced by a warning. *)
Theorem forge_identity_defaults repo log :
  (∀ seconds out err,
     cand_remote (repo_path repo) = Exits seconds 0 out err → 5 < seconds) →
  ∃ log1,
    forge_identity repo log
    = (log1 ++ [WarnDefaults (repo_package repo)],
       Returns (GITHUB_USER, cand_name (repo_path repo))).
Proof.
  intros Hbad. unfold forge_identity.
  destruct (get_github_info_run (repo_path repo) log)
    as (log1 & info & Hrun & _ & Hi).
  unfold mbind at 1, Proc_bind at 1. rewrite Hrun.
  destruct info as [identity|].
  - destruct (Hi identity eq_refl) as (_ & s & o & e & Hex & Hle).
    specialize (Hbad s o e Hex). lia.
  - run_proc. by exists log1.
Qed.

Lemma forge_identity_defaults_witness :
  ∃ log1,
    forge_identity (mkRepo hung_repo "eprint" "0.0.1" "abc123") []
    = (log1 ++ [WarnDefaults "eprint"], Returns (GITHUB_USER, "eprint")).
Proof.
  apply (forge_identity_defaults
           (mkRepo hung_repo "eprint" "0.0.1" "abc123") []).
  intros seconds out err H. vm_compute in H. discriminate H.
Defined.

(** X16.  What the scan returns.  Every repository it reports is an entry
    of the directory that is a directory, not hidden, not [pip-index],
    carries the marker, declares the name and the version reported, and
    whose commit lookup exited with code 0 and the non-empty commit
    reported; and every entry of that kind is reported. *)
Theorem find_repos_with_pip_index_discovers items log log' repos :
  find_repos_with_pip_index (Some items) log = (log', Returns repos) →
  Forall (discovered items) repos ∧
  ∀ item seconds out err,
    item ∈ items → eligible item →
    cand_rev_parse item = Exits seconds 0 out err →
    Str.strip out ≠ EmptyString →
    ∃ repo, repo ∈ repos ∧ repo_path repo = item ∧
            repo_commit repo = Str.strip out.
Proof.
  unfold find_repos_with_pip_index. intros H.
  destruct (scan_items_run items [] log) as (l & o & Hrun & _ & Hres & _).
  rewrite H in Hrun. simplify_eq.
  by destruct Hres as [?|[?|(found & [= ->] & Hf & Hc)]].
Qed.

Lemma find_repos_with_pip_index_discovers_witness :
  let items := [no_marker_repo; failing_repo; good_repo] in
  Forall (discovered items) [mkRepo good_repo "eprint" "0.0.1" "abc123def456"] ∧
  ∀ item seconds out err,
    item ∈ items → eligible item →
    cand_rev_parse item = Exits seconds 0 out err →
    Str.strip out ≠ EmptyString →
    ∃ repo, repo ∈ [mkRepo good_repo "eprint" "0.0.1" "abc123def456"] ∧
            repo_path repo = item ∧ repo_commit repo = Str.strip out.
Proof.
  apply (find_repos_with_pip_index_discovers
           [no_marker_repo; failing_repo; good_repo] []
           [Skipping "asserttool" "not a git repo";
            Found "eprint" "0.0.1" "abc123de"]).
  by vm_compute.
Defined.

(** X17.  A commit lookup that fails does not stop the scan: when the
    commit lookup of every entry that passes the tests runs to its end,
    whatever its return code, the scan returns.  (A lookup that hangs
    blocks the scan, and one that cannot be started raises out of it.) *)
Theorem find_repos_with_pip_index_returns items log :
  (∀ item, item ∈ items → eligible item → exits (cand_rev_parse item)) →
  ∃ log' repos,
    find_repos_with_pip_index (Some items) log = (log', Returns repos).
Proof.
  intros Hall. unfold find_repos_with_pip_index.
  destruct (scan_items_run items [] log) as (l & o & Hrun & _ & Hres & Hret).
  destruct (Hret Hall) as [Hb Hr].
  destruct Hres as [->|[->|(found & -> & _)]]; [done..|].
  by exists l, found.
Qed.

Lemma find_repos_with_pip_index_returns_witness :
  ∃ log' repos,
    find_repos_with_pip_index (Some [no_marker_repo; failing_repo; good_repo])
      [] = (log', Returns repos).
Proof.
  apply (find_repos_with_pip_index_returns
           [no_marker_repo; failing_repo; good_repo] []).
  intros item Hin He.
  repeat (apply elem_of_cons in Hin as [->|Hin]).
  - by destruct He as (_ & _ & _ & Hm & _).
  - by eexists _, _, _, _.
  - by eexists _, _, _, _.
  - by apply elem_of_nil in Hin.
Defined.

(** X18.  With nothing to index the regenerator exits with code 0 before
    it starts on any repository: when no entry of the directory passes the
    tests (none carries the marker, say), it prints no [Adding] line. *)
Theorem regenerate_index_nothing_found items log :
  (∀ item, item ∈ items → ¬ eligible item) →
  ∃ log',
    regenerate_index true (Some items) log
    = (log' ++ [NothingFound], SysExit 0) ∧
    added (log' ++ [NothingFound]) = added log.
Proof.
  intros Hnone. unfold regenerate_index, regenerate_with. cbn [negb].
  unfold find_repos_with_pip_index.
  destruct (scan_items_run items [] log) as (l & o & Hrun & Hadd & Hres & Hret).
  unfold mbind at 1, Proc_bind at 1. rewrite Hrun.
  destruct Hret as [Hb Hr].
  { intros item Hin He. by destruct (Hnone item). }
  destruct Hres as [->|[->|(found & -> & Hf & _)]]; [done..|].
  destruct found as [|r found].
  - run_proc. exists l. split; [done|].
    rewrite added_app. simpl. by rewrite List.app_nil_r.
  - apply Forall_cons in Hf as [(Hin & He & _) _].
    by destruct (Hnone _ Hin).
Qed.

Lemma regenerate_index_nothing_found_witness :
  ∃ log',
    regenerate_index true (Some [no_marker_repo]) []
    = (log' ++ [NothingFound], SysExit 0) ∧
    added (log' ++ [NothingFound]) = added [].
Proof.
  apply (regenerate_index_nothing_found [no_marker_repo] []).
  intros item Hin He. apply list_elem_of_singleton in Hin as ->.
  by destruct He as (_ & _ & _ & Hm & _).
Defined.

(** What the hypotheses of the next statements give: the scan returns, the
    repositories are put in the order of their names, and the loop runs
    over all of them. *)
Lemma regenerate_with_run body (good : RepoMetadata → Prop) items log :
  (∀ repo log, ∃ log' o,
     body repo log = (log', o) ∧
     added log' = added log ++ [repo_package repo] ∧
     (good repo → o = Returns ())) →
  (∀ item, item ∈ items → eligible item →
     declares_strings item ∧ exits (cand_rev_parse item)) →
  (∀ repo, discovered items repo → good repo) →
  ∃ log0 repos log' o,
    find_repos_with_pip_index (Some items) log = (log0, Returns repos) ∧
    regenerate_with body true (Some items) log = (log', o) ∧
    (o = Returns () ∨ o = SysExit 0) ∧
    added log'
    = added log ++ (repo_package <$> Sort.sort repo_package repos).
Proof.
  intros Hbody Hitems Hgood. unfold regenerate_with.
  cbn [negb]. unfold find_repos_with_pip_index.
  destruct (scan_items_run items [] log)
    as (l & o & Hrun & Hadd & Hres & Hret).
  unfold mbind at 1, Proc_bind at 1. rewrite Hrun.
  destruct Hret as [Hb Hr].
  { intros item Hin He. by destruct (Hitems item Hin He). }
  destruct Hres as [->|[->|(found & -> & Hf & _)]]; [done..|].
  cbn [app]. exists l, found. destruct found as [|r found].
  { run_proc. eexists _, _. split_and!; [done|done|by right|].
    rewrite added_app, Hadd. done. }
  set (repos := r :: found) in *.
  assert (Hsort : sorted_by_name repos
                  = Returns (Sort.sort repo_package repos)).
  { apply sorted_by_name_strings. eapply Forall_impl; [exact Hf|].
    intros repo Hd. eapply (discovered_strings items); [|done].
    intros item Hin He. by destruct (Hitems item Hin He). }
  unfold mbind at 1, Proc_bind at 1, lift at 1. rewrite Hsort.
  destruct (for_each_run body good (Sort.sort repo_package repos) l Hbody)
    as (l2 & o2 & n & Hloop & Hadd2 & Hdone).
  destruct Hdone as [-> ->].
  { intros repo Hin. rewrite SortFacts.sort_perm in Hin.
    rewrite Forall_forall in Hf. by apply Hgood, Hf. }
  unfold mbind, Proc_bind. fold (@mbind Proc _) in *. rewrite Hloop.
  run_proc. eexists _, _. split_and!; [done|done|by left|].
  rewrite added_app, Hadd2, Hadd, firstn_all. simpl.
  by rewrite List.app_nil_r.
Qed.

(** X19.  The regenerator runs to its end when every process does.  When
    the Index Writer script exists and, for every entry that passes the
    tests, the manifest gives the name and the version as strings, the
    commit lookup runs to its end and so does every Index Writer run,
    [regenerate_index] neither blocks nor raises: it exits with code 0
    when the scan finds nothing and returns otherwise, whatever the return
    codes of the processes and whatever the other entries would do. *)
Theorem regenerate_index_completes items log :
  (∀ item, item ∈ items → eligible item →
     declares_strings item ∧ exits (cand_rev_parse item) ∧
     ∀ args, exits (cand_writer item args)) →
  ∃ log' o,
    regenerate_index true (Some items) log = (log', o) ∧
    (o = Returns () ∨ o = SysExit 0).
Proof.
  intros Hall. unfold regenerate_index.
  destruct (regenerate_with_run add_repo
              (fun repo =>
                 is_str (repo_name repo) = true ∧
                 is_str (repo_ver repo) = true ∧
                 ∀ args, exits (cand_writer (repo_path repo) args))
              items log)
    as (log0 & repos & log' & o & _ & Hrun & Ho & _).
  - intros repo log1. apply add_repo_run.
  - intros item Hin He. destruct (Hall item Hin He) as (? & ? & _). done.
  - intros repo Hd.
    destruct (discovered_strings items repo) as [Hn Hv]; [|done|].
    { intros item Hin He. by destruct (Hall item Hin He). }
    split_and!; [done..|].
    destruct Hd as (Hin & He & _). by destruct (Hall _ Hin He) as (_ & _ & ?).
  - by exists log', o.
Qed.

Lemma good_items_run item :
  item ∈ [no_marker_repo; failing_writer_repo; good_repo] → eligible item →
  declares_strings item ∧ exits (cand_rev_parse item) ∧
  ∀ args, exits (cand_writer item args).
Proof.
  intros Hin He. repeat (apply elem_of_cons in Hin as [->|Hin]).
  - by destruct He as (_ & _ & _ & Hm & _).
  - split_and!; [by eexists _, _|by eexists _, _, _, _|].
    intros args. by eexists _, _, _, _.
  - split_and!; [by eexists _, _|by eexists _, _, _, _|].
    intros args. by eexists _, _, _, _.
  - by apply elem_of_nil in Hin.
Defined.

Lemma regenerate_index_completes_witness :
  ∃ log' o,
    regenerate_index true
      (Some [no_marker_repo; failing_writer_repo; good_repo]) []
    = (log', o) ∧
    (o = Returns () ∨ o = SysExit 0).
Proof.
  apply (regenerate_index_completes
           [no_marker_repo; failing_writer_repo; good_repo] []).
  exact good_items_run.
Defined.

Lemma StronglySorted_firstn {A} (R : relation A) n (l : list A) :
  StronglySorted R l → StronglySorted R (firstn n l).
Proof.
  intros Hs. revert n. induction Hs as [|x l Hs IH Hx]; intros [|n]; simpl;
    try constructor; [apply IH|].
  apply Forall_forall. intros y Hy. rewrite Forall_forall in Hx.
  apply Hx. by eapply subseteq_take.
Qed.

(** X20.  The repositories are taken in the order of their package names,
    whatever the order in which the directory lists them: in any run of
    [regenerate_index], complete or not, the package names of the [Adding]
    lines ascend in [String.le]. *)
Theorem regenerate_index_adds_in_order script_exists myapps log' o :
  regenerate_index script_exists myapps [] = (log', o) →
  StronglySorted String.le (added log').
Proof.
  unfold regenerate_index, regenerate_with.
  destruct script_exists; cbn [negb]; [|run_proc; intros [= <- _]; constructor].
  assert (Hscan : ∃ l o1,
    find_repos_with_pip_index myapps [] = (l, o1) ∧ added l = []).
  { destruct myapps as [items|].
    - destruct (scan_items_run items [] []) as (l & o1 & Hrun & Hadd & _).
      by exists l, o1.
    - run_proc. by eexists _, _. }
  destruct Hscan as (l & o1 & Hrun & Hadd).
  unfold mbind at 1, Proc_bind at 1. rewrite Hrun.
  destruct o1 as [repos| | | |];
    try (intros [= <- _]; rewrite Hadd; constructor).
  destruct repos as [|r found].
  { run_proc. intros [= <- _]. rewrite added_app, Hadd. constructor. }
  unfold mbind at 1, Proc_bind at 1, lift at 1.
  destruct (sorted_by_name (r :: found)) as [in_order| | | |] eqn:Es;
    try (intros [= <- _]; rewrite Hadd; constructor).
  apply sorted_by_name_sorted in Es.
  destruct (for_each_add_repo_run in_order l)
    as (l2 & o2 & n & Hloop & Hadd2 & _).
  unfold mbind, Proc_bind. fold (@mbind Proc _). rewrite Hloop.
  rewrite Hadd in Hadd2. cbn [app] in Hadd2.
  assert (Hsorted : StronglySorted String.le (added l2)).
  { rewrite Hadd2.
    apply (StronglySorted_fmap _ (Sort.key_le repo_package) String.le).
    - by intros ???.
    - by apply StronglySorted_firstn. }
  destruct o2; run_proc; intros [= <- _]; try done.
  rewrite added_app. simpl. by rewrite List.app_nil_r.
Qed.

Lemma regenerate_index_adds_in_order_witness :
  StronglySorted String.le
    (added [Found "eprint" "0.0.1" "abc123de"; Adding "eprint" "0.0.1";
            WarnRemoteTimeout "eprint"; WarnDefaults "eprint"]).
Proof.
  apply (regenerate_index_adds_in_order true (Some [hung_writer_repo]) _
           Blocks).
  by vm_compute.
Defined.

(** *** The remote pattern on the usual GitHub addresses *)

Module Remote.
Import Str StrFacts Re ReFacts.

Lemma lacks_all_ok cs s :
  Forall (fun c => lacks c s) cs → all_ok (ANot cs) s.
Proof.
  induction s as [|d s IH]; [done|]. intros Hl. split.
  - unfold atom_ok, mem. apply negb_true_iff.
    destruct (existsb (Ascii.eqb d) cs) eqn:E; [|done].
    apply existsb_exists in E as (c & Hin & Hc).
    apply Ascii.eqb_eq in Hc as <-.
    rewrite Forall_forall in Hl. apply list_elem_of_In in Hin.
    by destruct (Hl d Hin).
  - apply IH. eapply Forall_impl; [exact Hl|]. by intros c [_ H].
Qed.

Lemma all_ok_app a x y : all_ok a (x +:+ y) ↔ all_ok a x ∧ all_ok a y.
Proof.
  induction x as [|c x IH]; [simpl; tauto|].
  rewrite app_cons. simpl. tauto.
Qed.

Lemma search_found r s m rest :
  match_at r s = Some (m, rest) → search r s = Some m.
Proof. intros H. destruct s; simpl; by rewrite H. Qed.

Lemma search_cons_none r c s :
  match_at r (String c s) = None → search r (String c s) = search r s.
Proof. intros H. simpl. by rewrite H. Qed.

Section Lazy.
Context {R : Type}.

Lemma rmatch_atom a c s m (k : string → caps → option R) :
  rmatch (RAtom a) (String c s) m k = if atom_ok a c then k s m else None.
Proof. reflexivity. Qed.

Lemma rmatch_lazy a s m (k : string → caps → option R) :
  rmatch (RLazy a) s m k = plus_lazy a s (fun s' => k s' m).
Proof. reflexivity. Qed.

(** The lazy [+] stops at the first end the continuation accepts. *)
Lemma plus_lazy_first a x s (k : string → option R) res :
  x ≠ EmptyString → all_ok a x → k s = Some res →
  (∀ x1 x2, x = x1 +:+ x2 → x1 ≠ EmptyString → x2 ≠ EmptyString →
     k (x2 +:+ s) = None) →
  plus_lazy a (x +:+ s) k = Some res.
Proof.
  intros Hne Hok Hk. induction x as [|c x IH]; [done|]. intros Hno.
  destruct Hok as [Hc Hx]. rewrite app_cons. simpl. rewrite Hc.
  destruct x as [|d x].
  - rewrite app_nil_l. by rewrite Hk.
  - rewrite (Hno (String c EmptyString) (String d x)); [|done..].
    apply IH; [done|done|]. intros x1 x2 E H1 H2.
    apply (Hno (String c x1) x2); [|done..]. by rewrite app_cons, E.
Qed.

(** Where the end of the pattern, an optional [.git] and the end of the
    text, accepts. *)
Lemma tail_inv s m (k : string → caps → option R) res :
  rmatch (RCat (ROpt (lit ".git")) REnd) s m k = Some res →
  s = EmptyString ∨ s = nl ∨ s = ".git" ∨ s = ".git" +:+ nl.
Proof.
  assert (Hend : ∀ u r, rmatch REnd u m k = Some r →
                        u = EmptyString ∨ u = nl).
  { intros u r. cbn [rmatch].
    destruct (String.eqb_spec u EmptyString) as [->|_]; [by left|].
    destruct (String.eqb_spec u nl) as [->|_]; [by right|done]. }
  rewrite rmatch_cat. cbn [rmatch].
  destruct (rmatch (lit ".git") s m _) as [res'|] eqn:E.
  - intros _. apply rmatch_lit_inv in E as (u & -> & E).
    destruct (Hend u res' E) as [-> | ->].
    + by right; right; left.
    + by right; right; right.
  - fold (rmatch REnd s m k). intros H.
    destruct (Hend s res H) as [-> | ->]; auto.
Qed.
End Lazy.

(** After a proper, non-empty part of the name the end of the pattern does
    not accept. *)
Lemma tail_none {R} x1 x2 name suffix m (k : string → caps → option R) :
  name = x1 +:+ x2 → x1 ≠ EmptyString → x2 ≠ EmptyString →
  all_ok name_atom name →
  suffix = ".git" ∨ suffix = EmptyString ∧ endswith name ".git" = false →
  rmatch (RCat (ROpt (lit ".git")) REnd) (x2 +:+ suffix) m k = None.
Proof.
  intros -> H1 H2 Hok Hsuf.
  destruct (rmatch _ (x2 +:+ suffix) m k) as [res|] eqn:E; [|done].
  exfalso. apply tail_inv in E.
  apply all_ok_app in Hok as [_ Hok].
  destruct Hsuf as [-> | [-> Hends]].
  - assert (Hlen : 5 ≤ len (x2 +:+ ".git")).
    { rewrite len_app. destruct x2; [done|]. unfold len. simpl. lia. }
    destruct E as [E|[E|[E|E]]]; rewrite E in Hlen;
      try (vm_compute in Hlen; lia).
    destruct x2 as [|c [|d x2]]; [done| |].
    + vm_compute in E. by simplify_eq.
    + apply (f_equal len) in E. rewrite len_app in E.
      unfold len in E. simpl in E. lia.
  - rewrite app_nil_r in E.
    destruct E as [E|[E|[E|E]]]; subst x2; try done.
    + destruct Hok as [Hok _]. by vm_compute in Hok.
    + by rewrite Legacy.endswith_app in Hends.
    + apply all_ok_app in Hok as [_ [Hok _]]. by vm_compute in Hok.
Qed.

(** The match of [remote_pattern] at the host name. *)
Lemma match_at_remote sep user name suffix :
  sep ∈ [":"%char; "/"%char] →
  user ≠ EmptyString → lacks "/"%char user →
  name ≠ EmptyString → all_ok name_atom name →
  suffix = ".git" ∨ suffix = EmptyString ∧ endswith name ".git" = false →
  match_at remote_pattern
    ("github.com" +:+ String sep (user +:+ "/" +:+ name +:+ suffix))
  = Some (set_group 2 name (set_group 1 user no_caps), EmptyString).
Proof.
  intros Hsep Hu Hul Hn Hnok Hsuf.
  unfold match_at, remote_pattern.
  rewrite rmatch_cat, rmatch_lit, rmatch_cat.
  assert (Hs : atom_ok (ASet [":"%char; "/"%char]) sep = true).
  { by repeat (apply elem_of_cons in Hsep as [->|Hsep]; [done|]);
      apply elem_of_nil in Hsep. }
  rewrite rmatch_atom, Hs, rmatch_cat, rmatch_group, rmatch_plus.
  apply plus_greedy_found; [done|by apply lacks_all_ok1|reflexivity|].
  rewrite consumed_app, rmatch_cat.
  change ("/" +:+ name +:+ suffix) with ("/" +:+ (name +:+ suffix)).
  rewrite rmatch_lit, rmatch_cat, rmatch_group, rmatch_lazy.
  apply plus_lazy_first; [done|done| |].
  - rewrite consumed_app.
    by destruct Hsuf as [-> | [-> _]].
  - intros x1 x2 E H1 H2. by eapply tail_none.
Qed.

Lemma search_remote scheme sep user name suffix :
  scheme ∈ schemes →
  sep ∈ [":"%char; "/"%char] →
  user ≠ EmptyString → lacks "/"%char user →
  name ≠ EmptyString → all_ok name_atom name →
  suffix = ".git" ∨ suffix = EmptyString ∧ endswith name ".git" = false →
  search remote_pattern
    (scheme +:+
       "github.com" +:+ String sep (user +:+ "/" +:+ name +:+ suffix))
  = Some (set_group 2 name (set_group 1 user no_caps)).
Proof.
  intros Hscheme Hsep Hu Hul Hn Hnok Hsuf.
  pose proof (match_at_remote sep user name suffix Hsep Hu Hul Hn Hnok Hsuf)
    as Hm.
  apply search_found in Hm. revert Hm.
  generalize (String sep (user +:+ "/" +:+ name +:+ suffix)). intros t Hm.
  unfold schemes in Hscheme.
  repeat (apply elem_of_cons in Hscheme as [->|Hscheme];
    [repeat (rewrite app_cons, search_cons_none by reflexivity);
     by rewrite app_nil_l|]).
  by apply elem_of_nil in Hscheme.
Qed.

End Remote.

(** X21.  The remote pattern on the usual addresses.  When the remote
    lookup exits with code 0 within the 5 seconds and prints, white space
    around it apart, the host [github.com] after one of the usual schemes,
    a colon or a slash, a user without slash, a slash and a repository
    name without slash or white space, followed by [.git] or by nothing
    (the name then not ending in [.git]), [get_github_info] returns this
    user and this name and prints nothing. *)
Theorem get_github_info_resolves
    repo log seconds out err scheme sep user name suffix :
  cand_remote repo = Exits seconds 0 out err → seconds ≤ 5 →
  scheme ∈ schemes →
  sep ∈ [":"%char; "/"%char] →
  user ≠ EmptyString → Str.lacks "/"%char user →
  name ≠ EmptyString →
  Forall (fun c => Str.lacks c name) ("/"%char :: Str.whitespace) →
  suffix = ".git" ∨
    suffix = EmptyString ∧ Str.endswith name ".git" = false →
  Str.strip out
  = scheme +:+
      "github.com" +:+ String sep (user +:+ "/" +:+ name +:+ suffix) →
  get_github_info repo log = (log, Returns (Some (user, name))).
Proof.
  intros Hrun Hsec Hscheme Hsep Hu Hul Hn Hnl Hsuf Hout.
  unfold get_github_info, subprocess_run. rewrite Hrun.
  destruct (Nat.ltb_spec 5 seconds) as [Hlt|_]; [lia|].
  cbn [andb negb returncode proc_stdout Z.eqb]. rewrite Hout.
  rewrite (Remote.search_remote scheme sep user name suffix);
    [done|done..| |done].
  by apply Remote.lacks_all_ok.
Qed.

Lemma get_github_info_resolves_witness :
  get_github_info good_repo [] = ([], Returns (Some ("jakeogh", "eprint"))).
Proof.
  apply (get_github_info_resolves good_repo [] 1
           ("git@github.com:jakeogh/eprint.git" +:+ Str.nl) EmptyString
           "git@" ":"%char "jakeogh" "eprint" ".git").
  - reflexivity.
  - lia.
  - unfold schemes. set_solver.
  - set_solver.
  - done.
  - by vm_compute.
  - done.
  - repeat constructor; by vm_compute.
  - by left.
  - by vm_compute.
Defined.


Module RemoteInv.
Import Str StrFacts Re ReFacts ParseFacts Remote.

Lemma all_ok_lacks cs s :
  all_ok (ANot cs) s → Forall (fun c => lacks c s) cs.
Proof.
  intros Hok. apply Forall_forall. intros c Hin.
  induction s as [|d s IH]; [done|]. destruct Hok as [Hd Hs].
  split; [|by apply IH]. intros ->.
  unfold atom_ok, mem in Hd. apply negb_true_iff in Hd.
  assert (He : existsb (Ascii.eqb c) cs = true); [|congruence].
  apply existsb_exists. exists c. split; [by apply list_elem_of_In|].
  apply Ascii.eqb_refl.
Qed.

Section Inversion.
Context {R : Type}.

Lemma plus_lazy_inv a s (k : string → option R) res :
  plus_lazy a s k = Some res →
  ∃ x s', s = x +:+ s' ∧ x ≠ EmptyString ∧ all_ok a x ∧ k s' = Some res.
Proof.
  revert res. induction s as [|c s IH]; intros res; simpl; [done|].
  destruct (atom_ok a c) eqn:Ec; [|done].
  destruct (k s) as [res'|] eqn:E.
  - intros [= <-]. exists (String c EmptyString), s. by repeat split.
  - intros H. destruct (IH _ H) as (x & s' & -> & _ & Hx & Hk).
    exists (String c x), s'. by repeat split.
Qed.

Lemma rmatch_group_lazy_inv n a s m (k : string → caps → option R) res :
  rmatch (RGroup n (RLazy a)) s m k = Some res →
  ∃ x s', s = x +:+ s' ∧ x ≠ EmptyString ∧ all_ok a x ∧
          k s' (set_group n x m) = Some res.
Proof.
  rewrite rmatch_group, rmatch_lazy. intros H.
  apply plus_lazy_inv in H as (x & s' & -> & Hx & Hok & Hk).
  rewrite consumed_app in Hk. by exists x, s'.
Qed.

Lemma rmatch_atom_inv a s m (k : string → caps → option R) res :
  rmatch (RAtom a) s m k = Some res →
  ∃ c s', s = String c s' ∧ k s' m = Some res.
Proof.
  destruct s as [|c s]; [done|]. rewrite rmatch_atom.
  destruct (atom_ok a c); [|done]. by exists c, s.
Qed.
End Inversion.

(** The end of the pattern holds no group. *)
Lemma tail_caps s m m' rest :
  rmatch (RCat (ROpt (lit ".git")) REnd) s m
    (fun s' m0 => Some (m0, s')) = Some (m', rest) →
  m' = m.
Proof.
  rewrite rmatch_cat. cbn [rmatch].
  destruct (rmatch (lit ".git") s m _) as [res'|] eqn:E.
  - intros [= ->]. apply rmatch_lit_inv in E as (u & -> & E).
    destruct (_ || _); by simplify_eq.
  - destruct (_ || _); by intros [= <- _].
Qed.

(** The groups of any match of [remote_pattern]. *)
Lemma match_at_remote_groups u m rest :
  match_at remote_pattern u = Some (m, rest) →
  ∃ user name,
    m = set_group 2 name (set_group 1 user no_caps) ∧
    user ≠ EmptyString ∧ lacks "/"%char user ∧
    name ≠ EmptyString ∧ all_ok name_atom name.
Proof.
  unfold match_at, remote_pattern. rewrite rmatch_cat. intros H.
  apply rmatch_lit_inv in H as (u1 & -> & H).
  rewrite rmatch_cat in H. apply rmatch_atom_inv in H as (c & u2 & -> & H).
  rewrite rmatch_cat in H.
  apply rmatch_group_plus_inv in H as (user & u3 & -> & Hu & Huok & H).
  rewrite rmatch_cat in H. apply rmatch_lit_inv in H as (u4 & -> & H).
  rewrite rmatch_cat in H.
  apply rmatch_group_lazy_inv in H as (name & u5 & -> & Hn & Hnok & H).
  apply tail_caps in H as ->.
  exists user, name. split_and!; try done. by apply all_ok_lacks1.
Qed.

Lemma search_inv r s m :
  search r s = Some m → ∃ u rest, match_at r u = Some (m, rest).
Proof.
  induction s as [|c s IH]; simpl.
  - destruct (match_at r EmptyString) as [[m' rest]|] eqn:E; [|done].
    intros [= ->]. eauto.
  - destruct (match_at r (String c s)) as [[m' rest]|] eqn:E; [|done].
    intros [= ->]. eauto.
Qed.

End RemoteInv.

(** X22.  What [get_github_info] can return.  A forge identity it returns
    has a non-empty user without slash and a non-empty repository name
    without slash and without white space. *)
Theorem get_github_info_identity repo log log' user name :
  get_github_info repo log = (log', Returns (Some (user, name))) →
  user ≠ EmptyString ∧ Str.lacks "/"%char user ∧
  name ≠ EmptyString ∧
  Forall (fun c => Str.lacks c name) ("/"%char :: Str.whitespace).
Proof.
  unfold get_github_info.
  destruct (subprocess_run _ _ _) as [result|e|code| |];
    [|destruct e; by Regen.run_proc|by Regen.run_proc..].
  destruct (negb _); [by Regen.run_proc|].
  destruct (Re.search _ _) as [m|] eqn:E; [|by Regen.run_proc].
  Regen.run_proc. intros [= _ <- <-].
  apply RemoteInv.search_inv in E as (u & rest & E).
  apply RemoteInv.match_at_remote_groups in E
    as (user & name & -> & Hu & Hul & Hn & Hnok).
  split_and!; try done. by apply RemoteInv.all_ok_lacks.
Qed.

Lemma get_github_info_identity_witness :
  ("jakeogh" : string) ≠ EmptyString ∧ Str.lacks "/"%char "jakeogh" ∧
  ("eprint" : string) ≠ EmptyString ∧
  Forall (fun c => Str.lacks c "eprint") ("/"%char :: Str.whitespace).
Proof.
  apply (get_github_info_identity
    (mkCandidate "eprint" true true
       (Some (TomlStr "eprint"), Some (TomlStr "0.0.1"))
       (Exits 0 0 "abc123" EmptyString)
       (Exits 1 0 ("https://github.com/jakeogh/eprint" +:+ Str.nl)
          EmptyString)
       (fun _ => Exits 0 0 EmptyString EmptyString)) [] []).
  by vm_compute.
Defined.


Module First.
Import Regen.

(** One turn of the loop of the first definition: it returns when the name
    and the version are strings and the Index Writer can be started. *)
Lemma add_repo_first_run repo log :
  ∃ log' o,
    add_repo_first repo log = (log', o) ∧
    added log' = added log ++ [repo_package repo] ∧
    (is_str (repo_name repo) = true ∧ is_str (repo_ver repo) = true ∧
     (∀ args, cand_writer (repo_path repo) args ≠ NotStarted) →
     o = Returns ()).
Proof.
  unfold add_repo_first.
  unfold mbind at 1, Proc_bind at 1, emit at 1.
  destruct (forge_identity_run repo
              (log ++ [Adding (repo_package repo) (repo_version repo)]))
    as (log1 & [u r] & Hrun & Hadd).
  rewrite added_app in Hadd. simpl in Hadd.
  unfold mbind at 1, Proc_bind at 1. rewrite Hrun.
  destruct (writer_args repo u r) as [args|] eqn:Ea.
  - unfold subprocess_run.
    destruct (cand_writer (repo_path repo) args)
      as [secs code out err| |] eqn:Ew.
    + destruct (Nat.ltb 10 secs); cbn [andb returncode];
        [|destruct (Z.eqb code 0)];
        run_proc; eexists _, _; (split; [done|]);
        rewrite added_app, Hadd; simpl; rewrite List.app_nil_r; auto.
    + run_proc. eexists _, _. split; [done|].
      rewrite added_app, Hadd. simpl. rewrite List.app_nil_r. auto.
    + run_proc. eexists _, _. split; [done|]. rewrite Hadd.
      split; [done|]. intros (_ & _ & H). by destruct (H args).
  - run_proc. eexists _, _. split; [done|]. rewrite Hadd.
    split; [done|]. intros (Hn & Hv & _).
    destruct (writer_args_strings repo u r Hn Hv) as [args E]. congruence.
Qed.

End First.

(** X23.  The first definition of [regenerate_index], which the second one
    replaces when the module is loaded, bounds every Index Writer run by 10
    seconds.  When the script exists and, for every entry that passes the
    tests, the manifest gives the name and the version as strings, the
    commit lookup runs to its end and the Index Writer can be started, a
    run of it neither blocks nor raises, whatever the Index Writer then
    does, hang included. *)
Theorem regenerate_index_first_completes items log :
  (∀ item, item ∈ items → eligible item →
     declares_strings item ∧ exits (cand_rev_parse item) ∧
     ∀ args, cand_writer item args ≠ NotStarted) →
  ∃ log' o,
    regenerate_index_first true (Some items) log = (log', o) ∧
    (o = Returns () ∨ o = SysExit 0).
Proof.
  intros Hall. unfold regenerate_index_first.
  destruct (regenerate_with_run add_repo_first
              (fun repo =>
                 is_str (repo_name repo) = true ∧
                 is_str (repo_ver repo) = true ∧
                 ∀ args, cand_writer (repo_path repo) args ≠ NotStarted)
              items log)
    as (log0 & repos & log' & o & _ & Hrun & Ho & _).
  - intros repo log1. apply First.add_repo_first_run.
  - intros item Hin He. destruct (Hall item Hin He) as (? & ? & _). done.
  - intros repo Hd.
    destruct (discovered_strings items repo) as [Hn Hv]; [|done|].
    { intros item Hin He. by destruct (Hall item Hin He). }
    split_and!; [done..|].
    destruct Hd as (Hin & He & _). by destruct (Hall _ Hin He) as (_ & _ & ?).
  - by exists log', o.
Qed.

Lemma regenerate_index_first_completes_witness :
  ∃ log' o,
    regenerate_index_first true (Some [hung_writer_repo]) [] = (log', o) ∧
    (o = Returns () ∨ o = SysExit 0).
Proof.
  apply (regenerate_index_first_completes [hung_writer_repo] []).
  intros item Hin _. apply list_elem_of_singleton in Hin as ->.
  split_and!; [by eexists _, _|by eexists _, _, _, _|done].
Defined.

(** X24.  A failing Index Writer run does not end the loop.  When, for
    every entry that passes the tests, the manifest gives the name and the
    version as strings, the commit lookup runs to its end and so does
    every Index Writer run, the run of [regenerate_index] prints one
    [Adding] line for each repository the scan returns, in the order of
    the package names, whatever the return codes of the Index Writer
    runs. *)
Theorem regenerate_index_adds_every_repo items log :
  (∀ item, item ∈ items → eligible item →
     declares_strings item ∧ exits (cand_rev_parse item) ∧
     ∀ args, exits (cand_writer item args)) →
  ∃ log0 repos log' o,
    find_repos_with_pip_index (Some items) log = (log0, Returns repos) ∧
    regenerate_index true (Some items) log = (log', o) ∧
    added log'
    = added log ++ (repo_package <$> Sort.sort repo_package repos).
Proof.
  intros Hall. unfold regenerate_index.
  destruct (regenerate_with_run add_repo
              (fun repo =>
                 is_str (repo_name repo) = true ∧
                 is_str (repo_ver repo) = true ∧
                 ∀ args, exits (cand_writer (repo_path repo) args))
              items log)
    as (log0 & repos & log' & o & Hscan & Hrun & _ & Hadd).
  - intros repo log1. apply add_repo_run.
  - intros item Hin He. destruct (Hall item Hin He) as (? & ? & _). done.
  - intros repo Hd.
    destruct (discovered_strings items repo) as [Hn Hv]; [|done|].
    { intros item Hin He. by destruct (Hall item Hin He). }
    split_and!; [done..|].
    destruct Hd as (Hin & He & _). by destruct (Hall _ Hin He) as (_ & _ & ?).
  - by exists log0, repos, log', o.
Qed.

Lemma regenerate_index_adds_every_repo_witness :
  ∃ log0 repos log' o,
    find_repos_with_pip_index
      (Some [no_marker_repo; failing_writer_repo; good_repo]) []
    = (log0, Returns repos) ∧
    regenerate_index true
      (Some [no_marker_repo; failing_writer_repo; good_repo]) []
    = (log', o) ∧
    added log' = added [] ++ (repo_package <$> Sort.sort repo_package repos).
Proof.
  apply (regenerate_index_adds_every_repo
           [no_marker_repo; failing_writer_repo; good_repo] []).
  exact good_items_run.
Defined.

(** X25.  A manifest value that is not a string ends the run.  For a
    directory with one entry that passes the tests, whose commit lookup
    gives a commit, and whose manifest gives a name or a version that is
    not a string (a number, say), [regenerate_index] prints the [Adding]
    line of the repository and raises [TypeError]: no Index Writer is
    started. *)
Theorem regenerate_index_type_error item name ver seconds out err log :
  eligible item →
  cand_project item = (Some name, Some ver) →
  is_str name && is_str ver = false →
  cand_rev_parse item = Exits seconds 0 out err →
  Str.strip out ≠ EmptyString →
  ∃ log',
    regenerate_index true (Some [item]) log = (log', Raises TypeError) ∧
    added log' = added log ++ [shown_text name].
Proof.
  intros He Hproj Hstr Hrp Hout.
  unfold regenerate_index, regenerate_with, find_repos_with_pip_index.
  cbn [negb scan_items].
  pose proof (scan_item_eligible item [] log He) as Hstep.
  rewrite Hrp in Hstep. destruct Hstep as (log1 & Hadd1 & Hstep).
  rewrite decide_True in Hstep by done.
  destruct Hstep as (name' & ver' & Hproj' & Hstep).
  rewrite Hproj in Hproj'. simplify_eq. cbn [app] in Hstep.
  set (repo := mkRepo item name' ver' (Str.strip out)) in *.
  unfold mbind at 1, Proc_bind at 1.
  unfold mbind at 1, Proc_bind at 1. rewrite Hstep.
  unfold mret at 1, Proc_ret at 1.
  assert (Hsort : sorted_by_name [repo] = Returns [repo]).
  { unfold sorted_by_name. by destruct (forallb _ _). }
  unfold mbind at 1, Proc_bind at 1, lift at 1. rewrite Hsort.
  cbn [for_each].
  unfold add_repo.
  unfold mbind at 1, Proc_bind at 1.
  unfold mbind at 1, Proc_bind at 1.
  unfold mbind at 1, Proc_bind at 1, emit at 1.
  destruct (forge_identity_run repo
              (log1 ++ [Adding (repo_package repo) (repo_version repo)]))
    as (log2 & [u r] & Hrun & Hadd2).
  unfold mbind at 1, Proc_bind at 1. rewrite Hrun.
  rewrite (writer_args_other repo u r) by done.
  unfold lift. exists log2. split; [done|].
  rewrite Hadd2, added_app, Hadd1. done.
Qed.

Lemma regenerate_index_type_error_witness :
  ∃ log',
    regenerate_index true (Some [float_version_repo]) []
    = (log', Raises TypeError) ∧
    added log' = added [] ++ [shown_text (TomlStr "tool")].
Proof.
  apply (regenerate_index_type_error float_version_repo
           (TomlStr "tool") (TomlOther true "1.0") 0
           ("0a1b2c3d4e5f" +:+ Str.nl) EmptyString []).
  - unfold eligible. by split_and!.
  - reflexivity.
  - reflexivity.
  - reflexivity.
  - by vm_compute.
Defined.
